(** * HTML Highlighter: the query-set registry and the selection reader

    A shallow embedding of [src/htmlhighlighter.js] (class [HtmlHighlighter]).

    The registry state ([queries], [highlights], [lastId], [stats], the
    [transaction] queue) is threaded explicitly through a small state and
    exception monad.  Query-set descriptors are JavaScript objects shared by
    reference between [this.queries] and the entries of [this.highlights]
    (field [query]); they live in a store ([heap]) and are named by their
    address.

    The document side (TextContent, the finders, RangeHighlighter,
    RangeUnhighlighter, Cursor, the widget) is not embedded.  What the
    registry observes of it is taken as input: a query is given by whether
    its finder can be built, by the hits the finder yields and, for each hit,
    by whether wrapping it succeeds.  [finder.next()], [unhighlighter.undo],
    [cursor.clear] and [ui.update] are taken to return. *)

From Stdlib Require Import ZArith String Lia.
From stdpp Require Import base gmap list sorting.

Local Open Scope string_scope.
Local Open Scope list_scope.
Local Open Scope Z_scope.

(** ** Data model *)

(** Thrown values.  [Error msg] is [new Error(msg)]; [TypeError] is what the
    engine raises when a property of [undefined] is read. *)
Inductive Exn :=
| Error (msg : string)
| TypeError (msg : string).

(** Lines written to the console. *)
Inductive LogEntry :=
| LogInfo (msg : string)
| LogError (msg : string)
| LogErrorExn (msg : string) (x : Exn).

(** Query set descriptor: the object literal built in [deferred_add_].
    [q_reserve = None] is an absent [reserve] property. *)
Record QuerySet := mkQuerySet {
  q_name : string;
  q_enabled : bool;
  q_id_highlight : Z;
  q_id : Z;
  q_length : Z;
  q_reserve : option Z
}.

#[global] Instance QuerySet_inhabited : Inhabited QuerySet :=
  populate (mkQuerySet "" false 0 0 0 None).

(** Entry of [this.highlights]: [{ query: q, index: count, offset: offset }];
    [m_query] is the address of the shared descriptor. *)
Record HMarker := mkHMarker {
  m_query : nat;
  m_index : Z;
  m_offset : Z
}.

(** A hit returned by [finder.next()]: its absolute start offset
    [hit.start.marker.offset + hit.start.offset], and whether
    [highlighter.do(hit)] returns normally ([true]) or throws ([false]). *)
Record Hit := mkHit {
  hit_offset : Z;
  hit_wraps : bool
}.

(** A query, as seen by [add_queries_]: [constructFinder(content, i)] either
    throws ([NoFinder]) or gives a finder whose [next()] yields the listed
    hits and then [false]. *)
Inductive Query :=
| NoFinder
| Finder (hits : list Hit).

(** The [queries] argument of [add] and [append]: anything, or an array. *)
Inductive QueriesArg :=
| NotAnArray
| QueriesArray (qs : list Query).

(** The deferred closures pushed on the transaction queue, by the method
    that pushed them and the arguments they captured. *)
Inductive Action :=
| ActAdd (name : string) (queries : QueriesArg) (enabled : bool) (reserve : option Z)
| ActAppend (name : string) (queries : QueriesArg) (enabled : bool)
| ActRemove (name : string)
| ActEnable (name : string)
| ActDisable (name : string)
| ActClear (reset : bool).

Record Stats := mkStats {
  s_queries : Z;
  s_total : Z;
  s_highlight : Z
}.

Record Options := mkOptions {
  maxHighlight : Z;
  useQueryAsClass : bool;
  normalise : bool
}.

(** The highlighter instance.  [queries] is the object used as a map from
    names to descriptors, in key insertion order; [debug] is the static
    [HtmlHighlighter.debug]; [console] collects what is logged. *)
Record HH := mkHH {
  options : Options;
  debug : bool;
  transaction : list Action;
  heap : gmap nat QuerySet;
  next_ref : nat;
  queries : list (string * nat);
  highlights : list HMarker;
  lastId : Z;
  stats : Stats;
  console : list LogEntry
}.

Definition set_transaction (t : list Action) (st : HH) : HH :=
  mkHH (options st) (debug st) t (heap st) (next_ref st) (queries st)
       (highlights st) (lastId st) (stats st) (console st).
Definition set_heap (h : gmap nat QuerySet) (st : HH) : HH :=
  mkHH (options st) (debug st) (transaction st) h (next_ref st) (queries st)
       (highlights st) (lastId st) (stats st) (console st).
Definition set_next_ref (n : nat) (st : HH) : HH :=
  mkHH (options st) (debug st) (transaction st) (heap st) n (queries st)
       (highlights st) (lastId st) (stats st) (console st).
Definition set_queries (qs : list (string * nat)) (st : HH) : HH :=
  mkHH (options st) (debug st) (transaction st) (heap st) (next_ref st) qs
       (highlights st) (lastId st) (stats st) (console st).
Definition set_highlights (ms : list HMarker) (st : HH) : HH :=
  mkHH (options st) (debug st) (transaction st) (heap st) (next_ref st) (queries st)
       ms (lastId st) (stats st) (console st).
Definition set_lastId (i : Z) (st : HH) : HH :=
  mkHH (options st) (debug st) (transaction st) (heap st) (next_ref st) (queries st)
       (highlights st) i (stats st) (console st).
Definition set_stats (s : Stats) (st : HH) : HH :=
  mkHH (options st) (debug st) (transaction st) (heap st) (next_ref st) (queries st)
       (highlights st) (lastId st) s (console st).
Definition set_console (c : list LogEntry) (st : HH) : HH :=
  mkHH (options st) (debug st) (transaction st) (heap st) (next_ref st) (queries st)
       (highlights st) (lastId st) (stats st) c.

Definition set_s_queries (v : Z) (s : Stats) : Stats := mkStats v (s_total s) (s_highlight s).
Definition set_s_total (v : Z) (s : Stats) : Stats := mkStats (s_queries s) v (s_highlight s).
Definition set_s_highlight (v : Z) (s : Stats) : Stats := mkStats (s_queries s) (s_total s) v.

Definition set_q_enabled (b : bool) (q : QuerySet) : QuerySet :=
  mkQuerySet (q_name q) b (q_id_highlight q) (q_id q) (q_length q) (q_reserve q).
Definition set_q_length (l : Z) (q : QuerySet) : QuerySet :=
  mkQuerySet (q_name q) (q_enabled q) (q_id_highlight q) (q_id q) l (q_reserve q).
Definition set_q_reserve (r : option Z) (q : QuerySet) : QuerySet :=
  mkQuerySet (q_name q) (q_enabled q) (q_id_highlight q) (q_id q) (q_length q) r.

(** ** The state and exception monad

    A JavaScript method reads and mutates [this] and either returns or
    throws; what it mutated before throwing stays mutated. *)
Inductive Res (A : Type) :=
| Ret (a : A)
| Throw (e : Exn).
Arguments Ret {A} a.
Arguments Throw {A} e.

Definition M (A : Type) : Type := HH -> Res A * HH.

Definition ret {A} (a : A) : M A := fun st => (Ret a, st).
Definition throw {A} (e : Exn) : M A := fun st => (Throw e, st).
Definition bind {A B} (c : M A) (k : A -> M B) : M B :=
  fun st =>
    match c st with
    | (Ret a, st') => k a st'
    | (Throw e, st') => (Throw e, st')
    end.
Definition gets {A} (f : HH -> A) : M A := fun st => (Ret (f st), st).
Definition modify (f : HH -> HH) : M unit := fun st => (Ret tt, f st).
Definition try_catch (c : M unit) (handler : Exn -> M unit) : M unit :=
  fun st =>
    match c st with
    | (Ret _, st') => (Ret tt, st')
    | (Throw e, st') => handler e st'
    end.

Notation "x <- c1 ;; c2" := (bind c1 (fun x => c2))
  (at level 100, c1 at next level, right associativity).
Notation "c1 ;; c2" := (bind c1 (fun _ => c2))
  (at level 100, right associativity).

Definition when (b : bool) (c : M unit) : M unit := if b then c else ret tt.

Definition console_info (msg : string) : M unit :=
  modify (fun st => set_console (console st ++ [LogInfo msg]) st).
Definition console_error (msg : string) : M unit :=
  modify (fun st => set_console (console st ++ [LogError msg]) st).
Definition console_error_exn (msg : string) (x : Exn) : M unit :=
  modify (fun st => set_console (console st ++ [LogErrorExn msg x]) st).

(** Reading and writing a descriptor through its address. *)
Definition deref (q : nat) : M QuerySet := gets (fun st => heap st !!! q).
Definition update_q (q : nat) (f : QuerySet -> QuerySet) : M unit :=
  modify (fun st => set_heap (<[q := f (heap st !!! q)]> (heap st)) st).

(** ** The object [this.queries]

    [this.queries] is an object literal used as a map.  The embedding keeps
    its own keys, in insertion order (the order [Object.keys] lists names
    that are not array indices in).  That is all that [this.queries[name]],
    [name in this.queries] and [this.queries[name] = q] see of the object
    for every name but the property names of [Object.prototype]: an object
    literal inherits those, so that [name in {}] holds of them,
    [{}[name]] is not [undefined], and an assignment to [__proto__] creates
    no key.  [plain_name] tells the names the embedding is exact for;
    statements that depend on how a name is looked up are made for plain
    names. *)

(** The property names of [Object.prototype]. *)
Definition object_prototype_names : list string :=
  ["constructor"; "__defineGetter__"; "__defineSetter__"; "hasOwnProperty";
   "__lookupGetter__"; "__lookupSetter__"; "isPrototypeOf";
   "propertyIsEnumerable"; "toString"; "valueOf"; "__proto__";
   "toLocaleString"].

Definition plain_name (name : string) : bool :=
  negb (existsb (String.eqb name) object_prototype_names).

(** [Number.MAX_SAFE_INTEGER].  [lastId], the lengths and the counters are
    JavaScript numbers; the embedding computes them in [Z], which is what
    the code computes as long as they stay within the safe integers. *)
Definition max_safe_integer : Z := 2 ^ 53 - 1.

Fixpoint lookup_name (name : string) (qs : list (string * nat)) : option nat :=
  match qs with
  | [] => None
  | (k, q) :: rest => if String.eqb k name then Some q else lookup_name name rest
  end.

(** [name in this.queries] *)
Definition name_in (name : string) (qs : list (string * nat)) : bool :=
  match lookup_name name qs with Some _ => true | None => false end.

(** [this.queries[name] = q]: an existing key keeps its place, a new key goes
    last. *)
Fixpoint assign_name (name : string) (q : nat) (qs : list (string * nat))
  : list (string * nat) :=
  match qs with
  | [] => [(name, q)]
  | (k, q') :: rest =>
      if String.eqb k name then (k, q) :: rest
      else (k, q') :: assign_name name q rest
  end.

(** [delete this.queries[name]] *)
Fixpoint delete_name (name : string) (qs : list (string * nat)) : list (string * nat) :=
  match qs with
  | [] => []
  | (k, q) :: rest =>
      if String.eqb k name then delete_name name rest
      else (k, q) :: delete_name name rest
  end.

(** ** [constructor] *)
Definition constructor (o : Options) (dbg : bool) : HH :=
  mkHH o dbg [] ∅ 0%nat [] [] 0 (mkStats 0 0 0) [].

(** ** [add_queries_] *)

(** [markers[i]] for a number [i]: [undefined] out of range. *)
Definition marker_at (markers : list HMarker) (i : Z) : option HMarker :=
  if i <? 0 then None else markers !! Z.to_nat i.

(** The inner [while (min < max)] loop.  [fuel] bounds the number of
    iterations; [None] stands for a read of [markers[mid].offset] on
    [undefined], or for exhausted fuel. *)
Fixpoint bsearch (fuel : nat) (markers : list HMarker) (offset min max : Z) : option Z :=
  if min <? max then
    match fuel with
    | O => None
    | S fuel' =>
        let mid := (min + max) / 2 in
        match marker_at markers mid with
        | None => None
        | Some m =>
            if m_offset m <? offset
            then bsearch fuel' markers offset (mid + 1) max
            else bsearch fuel' markers offset min mid
        end
    end
  else Some min.

(** The first argument of [markers.splice]:
    [markers.length > 0 && markers[min].offset < offset ? min + 1 : min]. *)
Definition splice_index (markers : list HMarker) (offset : Z) : option Z :=
  let len := Z.of_nat (length markers) in
  match bsearch (length markers) markers offset 0 (len - 1) with
  | None => None
  | Some min =>
      if 0 <? len then
        match marker_at markers min with
        | None => None
        | Some m => Some (if m_offset m <? offset then min + 1 else min)
        end
      else Some min
  end.

(** [markers.splice(pos, 0, m)] for [0 <= pos]. *)
Definition splice_in (pos : Z) (m : HMarker) (markers : list HMarker) : list HMarker :=
  take (Z.to_nat pos) markers ++ m :: drop (Z.to_nat pos) markers.

(** [reserve !== null && count >= reserve] *)
Definition reserve_exceeded (reserve : option Z) (count : Z) : bool :=
  match reserve with
  | Some r => r <=? count
  | None => false
  end.

(** [while ((hit = finder.next()) !== false) { ... }] for one finder: the
    marker is spliced into [this.highlights] first, then the hit is wrapped,
    and [count] is incremented when wrapping returned. *)
Fixpoint while_hits (q : nat) (reserve : option Z) (hits : list Hit) (count : Z) : M Z :=
  match hits with
  | [] => ret count
  | hit :: rest =>
      if reserve_exceeded reserve count then
        console_error "highlight reserve exceeded" ;;
        ret count
      else
        markers <- gets highlights ;;
        match splice_index markers (hit_offset hit) with
        | None => throw (TypeError "Cannot read properties of undefined (reading 'offset')")
        | Some pos =>
            modify (set_highlights (splice_in pos (mkHMarker q count (hit_offset hit)) markers)) ;;
            if hit_wraps hit then while_hits q reserve rest (count + 1)
            else
              console_error "exception: " ;;
              while_hits q reserve rest count
        end
  end.

(** [queries.forEach(function(i) { ... })] *)
Fixpoint forEach_query (q : nat) (reserve : option Z) (qs : list Query) (count : Z) : M Z :=
  match qs with
  | [] => ret count
  | i :: rest =>
      match i with
      | NoFinder =>
          console_error "exception: " ;;
          forEach_query q reserve rest count
      | Finder hits =>
          count' <- while_hits q reserve hits count ;;
          forEach_query q reserve rest count'
      end
  end.

Definition add_queries_ (name : string) (q : nat) (qs : list Query) (enabled : bool) : M Z :=
  d <- deref q ;;
  let reserve :=
    match q_reserve d with
    | Some r => if 0 <? r then Some (r - q_length d) else None
    | None => None
    end in
  count <- forEach_query q reserve qs 0 ;;
  update_q q (fun d => set_q_length (q_length d + count) d) ;;
  when enabled
    (modify (fun st => set_stats (set_s_total (s_total (stats st) + count) (stats st)) st)) ;;
  ret count.

(** ** [get_], [remove_], [assert_] *)

Definition get_ (name : string) : M nat :=
  qs <- gets queries ;;
  match lookup_name name qs with
  | None => throw (Error "Query set non-existent")
  | Some q => ret q
  end.

(** The loop [for (let i = 0; i < markers.length; ) { if (markers[i].query
    === q) markers.splice(i, 1); else ++i; }]: entries of [q] are dropped in
    place, the others keep their order. *)
Fixpoint drop_query (q : nat) (markers : list HMarker) : list HMarker :=
  match markers with
  | [] => []
  | m :: rest =>
      if Nat.eqb (m_query m) q then drop_query q rest
      else m :: drop_query q rest
  end.

(** [unhighlighter.undo(i)], [container.normalize()] and [refresh()] act on
    the document and on [this.content]; they leave the registry alone. *)
Definition remove_ (name : string) : M unit :=
  q <- get_ name ;;
  d <- deref q ;;
  modify (fun st => set_stats (set_s_queries (s_queries (stats st) - 1) (stats st)) st) ;;
  modify (fun st => set_stats (set_s_total (s_total (stats st) - q_length d) (stats st)) st) ;;
  modify (fun st => set_highlights (drop_query q (highlights st)) st) ;;
  modify (fun st => set_queries (delete_name name (queries st)) st).

(** [Object.keys(this.queries).forEach(ki => { l += this.queries[ki].length })] *)
Definition sum_lengths (h : gmap nat QuerySet) (qs : list (string * nat)) : Z :=
  foldl (fun l kq => l + q_length (h !!! kq.2)) 0 qs.

(** The [this.highlights.forEach] of [assert_], with its locals [c], [k]. *)
Fixpoint assert_markers (h : gmap nat QuerySet) (markers : list HMarker) (c k : Z)
  : Res Z :=
  match markers with
  | [] => Ret k
  | i :: rest =>
      if (m_offset i <? c) || (q_length (h !!! m_query i) <=? m_index i)
      then Throw (Error "Invalid state: highlight out of position")
      else assert_markers h rest (m_offset i) (k + 1)
  end.

Definition assert_ : M unit :=
  fun st =>
    let l := sum_lengths (heap st) (queries st) in
    match assert_markers (heap st) (highlights st) 0 0 with
    | Throw e => (Throw e, st)
    | Ret k =>
        if k =? l then (Ret tt, st)
        else (Throw (Error "Invalid state: length mismatch"), st)
    end.

(** ** The deferred operations

    [this.cursor.clear()] and [this.ui.update()] read the registry and write
    to the cursor and to the widget only. *)

Definition deferred_remove_ (name : string) : M unit :=
  remove_ name.

(** [let q = (this.queries[name] = { name, enabled, id_highlight:
    this.stats.highlight, id: this.lastId, length: 0 })] *)
Definition new_query_set (name : string) (enabled : bool) : M nat :=
  fun st =>
    let q := next_ref st in
    let d := mkQuerySet name enabled (s_highlight (stats st)) (lastId st) 0 None in
    (Ret q,
     set_queries (assign_name name q (queries st))
       (set_next_ref (S q) (set_heap (<[q := d]> (heap st)) st))).

(** [if (reserve != null) { if (reserve > count) { this.lastId = reserve;
    q.reserve = reserve; } else { console.error(...); q.reserve = count; } }
    else { this.lastId += count; }] *)
Definition advance_lastId (q : nat) (reserve : option Z) (count : Z) : M unit :=
  match reserve with
  | Some r =>
      if count <? r then
        modify (set_lastId r) ;;
        update_q q (set_q_reserve (Some r))
      else
        console_error "Invalid or insufficient reserve specified" ;;
        update_q q (set_q_reserve (Some count))
  | None =>
      modify (fun st => set_lastId (lastId st + count) st)
  end.

(** [++this.stats.highlight; if (this.stats.highlight >=
    this.options.maxHighlight) { this.stats.highlight = 0; }] *)
Definition next_highlight : M unit :=
  modify (fun st => set_stats (set_s_highlight (s_highlight (stats st) + 1) (stats st)) st) ;;
  over <- gets (fun st => maxHighlight (options st) <=? s_highlight (stats st)) ;;
  when over (modify (fun st => set_stats (set_s_highlight 0 (stats st)) st)).

(** [if (HtmlHighlighter.debug === true) { this.assert_(); }] *)
Definition debug_assert : M unit :=
  dbg <- gets debug ;;
  when dbg assert_.

Definition deferred_add_ (name : string) (queries_arg : QueriesArg) (enabled : bool)
    (reserve : option Z) : M unit :=
  match queries_arg with
  | NotAnArray => throw (Error "Invalid or no queries array specified")
  | QueriesArray qs =>
      let reserve :=
        match reserve with
        | Some r => if r <? 1 then None else Some r
        | None => None
        end in
      present <- gets (fun st => name_in name (queries st)) ;;
      when present (deferred_remove_ name) ;;
      q <- new_query_set name enabled ;;
      count <- add_queries_ name q qs enabled ;;
      advance_lastId q reserve count ;;
      modify (fun st => set_stats (set_s_queries (s_queries (stats st) + 1) (stats st)) st) ;;
      next_highlight ;;
      debug_assert
  end.

Definition deferred_append_ (name : string) (queries_arg : QueriesArg) (enabled : bool)
  : M unit :=
  match queries_arg with
  | NotAnArray => throw (Error "Invalid or no queries array specified")
  | QueriesArray qs =>
      registry <- gets queries ;;
      match lookup_name name registry with
      | None => throw (Error "Invalid or query set not yet created")
      | Some q =>
          add_queries_ name q qs enabled ;;
          debug_assert
      end
  end.

(** [q.id] is always a number, so [q.id === null] is [false]. *)
Definition deferred_enable_ (name : string) : M unit :=
  q <- get_ name ;;
  d <- deref q ;;
  if q_enabled d then ret tt
  else
    update_q q (set_q_enabled true) ;;
    d' <- deref q ;;
    modify (fun st => set_stats (set_s_total (s_total (stats st) + q_length d') (stats st)) st).

Definition deferred_disable_ (name : string) : M unit :=
  q <- get_ name ;;
  d <- deref q ;;
  if negb (q_enabled d) then ret tt
  else
    update_q q (set_q_enabled false) ;;
    d' <- deref q ;;
    modify (fun st => set_stats (set_s_total (s_total (stats st) - q_length d') (stats st)) st).

(** [Object.keys(this.queries).forEach(k => this.remove_(k))] *)
Fixpoint forEach_remove (keys : list string) : M unit :=
  match keys with
  | [] => ret tt
  | k :: rest => remove_ k ;; forEach_remove rest
  end.

Definition deferred_clear_ (reset : bool) : M unit :=
  keys <- gets (fun st => map fst (queries st)) ;;
  forEach_remove keys ;;
  registry <- gets queries ;;
  match registry with
  | _ :: _ => throw (Error "Query set object not empty")
  | [] =>
      when reset
        (modify (set_lastId 0) ;;
         modify (fun st => set_stats (set_s_highlight 0 (stats st)) st))
  end.

(** ** The transaction queue *)

(** The closure an entry of [this.transaction] stands for. *)
Definition run_action (a : Action) : M unit :=
  match a with
  | ActAdd name qs enabled reserve => deferred_add_ name qs enabled reserve
  | ActAppend name qs enabled => deferred_append_ name qs enabled
  | ActRemove name => deferred_remove_ name
  | ActEnable name => deferred_enable_ name
  | ActDisable name => deferred_disable_ name
  | ActClear reset => deferred_clear_ reset
  end.

(** [add], [append], [remove], [enable], [disable], [clear]:
    [this.transaction.push(...)]. *)
Definition enqueue (a : Action) (st : HH) : HH :=
  set_transaction (transaction st ++ [a]) st.

(** The callback of [this.transaction.forEach]. *)
Definition apply_action (a : Action) : M unit :=
  try_catch (run_action a) (console_error_exn "Failed to apply action:").

Fixpoint forEach_action (actions : list Action) : M unit :=
  match actions with
  | [] => ret tt
  | a :: rest => apply_action a ;; forEach_action rest
  end.

Definition apply : M unit :=
  pending <- gets transaction ;;
  match pending with
  | [] => console_info "Nothing to apply: transaction queue empty"
  | _ :: _ =>
      forEach_action pending ;;
      modify (set_transaction [])
  end.

(** ** [empty] *)

(** [!Object.keys(this.queries).some(k => this.queries[k].length > 0)] *)
Definition empty (st : HH) : bool :=
  negb (existsb (fun kq => 0 <? q_length (heap st !!! kq.2)) (queries st)).

(** [lastIdOf] *)
Definition lastIdOf (name : string) : M Z :=
  q <- get_ name ;;
  d <- deref q ;;
  let l := q_length d in
  ret (if 0 <? l then q_id d + l - 1 else -1).

(** ** Running a session *)

Definition exec {A} (c : M A) (st : HH) : HH := (c st).2.

(** The options of the sample page: [maxHighlight: 5]. *)
Definition sample_options : Options := mkOptions 5 false false.

Definition hit (offset : Z) : Hit := mkHit offset true.
Definition failing_hit (offset : Z) : Hit := mkHit offset false.


(** ** [getSelectedRange] *)

(** A DOM node: its identity, its [nodeType] (3 for a text node) and the
    length of its [data]. *)
Record Node := mkNode {
  node_id : nat;
  nodeType : Z;
  data_length : Z
}.

(** [a === b] on nodes. *)
Definition same_node (a b : Node) : bool := Nat.eqb (node_id a) (node_id b).

(** Text marker of TextContent: [{ node, offset }]. *)
Record TextMarker := mkTextMarker {
  tm_node : Node;
  tm_offset : Z
}.

(** Position descriptor: [{ marker, offset }]. *)
Record Descriptor := mkDescriptor {
  d_marker : TextMarker;
  d_offset : Z
}.

Definition TextContent : Type := list TextMarker.

(** [new Range(content, start, end)] *)
Record Range := mkRange {
  r_content : TextContent;
  r_start : Descriptor;
  r_end : Descriptor
}.

(** What [window.getSelection()] returns once a node is selected.  The host
    sets [anchorNode] and [focusNode] together. *)
Record Selection := mkSelection {
  anchorNode : Node;
  anchorOffset : Z;
  focusNode : Node;
  focusOffset : Z;
  toString_length : Z
}.

(** [window.getSelection()]: [null], a selection whose [anchorNode] is
    [null], or a selection with nodes. *)
Inductive WindowSelection :=
| SelectionNull
| SelectionEmpty
| Selected (sel : Selection).

(** Modelled from the spec: [TextContent.find(node)], missing from the
    sources, returns the index of the marker whose [node] is identical to
    the argument, else [-1]. *)
Fixpoint find_from (i : Z) (markers : TextContent) (n : Node) : Z :=
  match markers with
  | [] => -1
  | m :: rest => if same_node (tm_node m) n then i else find_from (i + 1) rest n
  end.

Definition content_find (content : TextContent) (n : Node) : Z :=
  find_from 0 content n.

(** Modelled from the spec: [TextContent.at(index)], missing from the
    sources, returns marker [index]. *)
Definition content_at (content : TextContent) (i : Z) : option TextMarker :=
  if i <? 0 then None else content !! Z.to_nat i.

(** Modelled from the spec: [TextContent.at] returns marker [index]; handed
    a position descriptor instead of an index it finds no marker and returns
    [undefined]. *)
Definition content_at_descriptor (content : TextContent) (d : Descriptor)
  : option TextMarker := None.

(** Modelled from the spec: [Range.descriptorRel(marker, relOffset)], missing
    from the sources, clamps the offset into the marker's node. *)
Definition descriptorRel_clamped (m : TextMarker) (rel : Z) : Res Descriptor :=
  Ret (mkDescriptor m (Z.max 0 (Z.min rel (data_length (tm_node m) - 1)))).

Section GetSelectedRange.
(** [Range.descriptorRel] is not part of the sources; the method is
    embedded for any behaviour of it, throwing included. *)
Variable descriptorRel : TextMarker -> Z -> Res Descriptor.

(** [Range.descriptorRel(m, rel)] where [m] may be [undefined]. *)
Definition descriptor_of (m : option TextMarker) (rel : Z) : Res Descriptor :=
  match m with
  | Some m => descriptorRel m rel
  | None => Throw (TypeError "Cannot read properties of undefined")
  end.

(** [Range.descriptorRel(this.content.at(i), rel)] *)
Definition descriptor_at (content : TextContent) (i rel : Z) : Res Descriptor :=
  descriptor_of (content_at content i) rel.

(** The result, and the lines written to the console.  In the branch of
    the selections made from right to left, [start] holds the start
    descriptor by the time [this.content.at(start)] is called for the end
    descriptor. *)
Definition getSelectedRange (content : TextContent) (ws : WindowSelection)
  : Res (option Range) * list LogEntry :=
  match ws with
  | SelectionNull => (Ret None, [])
  | SelectionEmpty => (Ret None, [])
  | Selected sel =>
      if negb (nodeType (anchorNode sel) =? 3) || negb (nodeType (focusNode sel) =? 3)
      then (Ret None, [LogInfo "Selection anchor or focus node(s) not text: ignoring"])
      else
        let same := same_node (anchorNode sel) (focusNode sel) in
        let len :=
          if same then focusOffset sel - anchorOffset sel else toString_length sel in
        if len <=? 0 then (Ret None, [])
        else
          let start := content_find content (anchorNode sel) in
          let end_ :=
            if same_node (focusNode sel) (anchorNode sel) then start
            else content_find content (focusNode sel) in
          if (start <? 0) || (end_ <? 0)
          then (Ret None,
                [LogError "Unable to retrieve offset of selection anchor or focus node(s)"])
          else if (start <? end_) || ((start =? end_) && (anchorOffset sel <? focusOffset sel))
          then
            match descriptor_at content start (anchorOffset sel) with
            | Throw e => (Throw e, [])
            | Ret s =>
                if same_node (focusNode sel) (anchorNode sel)
                then (Ret (Some (mkRange content s
                                   (mkDescriptor (d_marker s) (d_offset s + len - 1)))), [])
                else
                  match descriptor_at content end_ (focusOffset sel - 1) with
                  | Throw e => (Throw e, [])
                  | Ret e' => (Ret (Some (mkRange content s e')), [])
                  end
            end
          else
            match descriptor_at content end_ (focusOffset sel) with
            | Throw e => (Throw e, [])
            | Ret s =>
                if same_node (focusNode sel) (anchorNode sel)
                then (Ret (Some (mkRange content s
                                   (mkDescriptor (d_marker s) (d_offset s + len - 1)))), [])
                else
                  match descriptor_of (content_at_descriptor content s)
                          (anchorOffset sel - 1) with
                  | Throw e => (Throw e, [])
                  | Ret e' => (Ret (Some (mkRange content s e')), [])
                  end
            end
  end.
End GetSelectedRange.

(** * Specification vocabulary *)

(** The marker list is kept in non-decreasing order of offset. *)
Definition offset_le (a b : HMarker) : Prop := m_offset a <= m_offset b.
Definition sorted_by_offset (markers : list HMarker) : Prop :=
  StronglySorted offset_le markers.

(** Every entry at an index below [n] has an offset below [offset]. *)
Definition below_before (markers : list HMarker) (offset n : Z) : Prop :=
  forall i m, i < n -> marker_at markers i = Some m -> m_offset m < offset.
(** Every entry at index [n] or later has an offset of at least [offset]. *)
Definition at_least_from (markers : list HMarker) (offset n : Z) : Prop :=
  forall i m, n <= i -> marker_at markers i = Some m -> offset <= m_offset m.


(** Number of entries of the marker list that belong to the descriptor at
    address [q]. *)
Fixpoint n_query (q : nat) (markers : list HMarker) : Z :=
  match markers with
  | [] => 0
  | m :: rest => (if Nat.eqb (m_query m) q then 1 else 0) + n_query q rest
  end.

(** Number of hits of a finder, or of an array of queries, whose wrapping
    succeeds. *)
Fixpoint wrapped_hits (hits : list Hit) : Z :=
  match hits with
  | [] => 0
  | h :: rest => (if hit_wraps h then 1 else 0) + wrapped_hits rest
  end.

Fixpoint wrapped_queries (qs : list Query) : Z :=
  match qs with
  | [] => 0
  | NoFinder :: rest => wrapped_queries rest
  | Finder hits :: rest => wrapped_hits hits + wrapped_queries rest
  end.

(** No wrap fails: [highlighter.do] returns for every hit. *)
Definition query_wraps (i : Query) : bool :=
  match i with
  | NoFinder => true
  | Finder hits => forallb hit_wraps hits
  end.

Definition queries_wrap (qa : QueriesArg) : bool :=
  match qa with
  | NotAnArray => true
  | QueriesArray qs => forallb query_wraps qs
  end.

Definition action_wraps (a : Action) : bool :=
  match a with
  | ActAdd _ qa _ _ => queries_wrap qa
  | ActAppend _ qa _ => queries_wrap qa
  | _ => true
  end.

(** Operations on query sets with plain names: none is named after a
    property of [Object.prototype]. *)
Definition plain_names (a : Action) : bool :=
  match a with
  | ActAdd name _ _ _ => plain_name name
  | ActAppend name _ _ => plain_name name
  | ActRemove name => plain_name name
  | ActEnable name => plain_name name
  | ActDisable name => plain_name name
  | ActClear _ => true
  end.

(** What holds of the registry of a highlighter constructed with options [o]
    and whose queue holds [t], whatever the operations are. *)
Definition highlight_in_range (st : HH) : Prop :=
  1 <= maxHighlight (options st) ->
  0 <= s_highlight (stats st) < maxHighlight (options st).

Definition lengths_nonneg (st : HH) : Prop :=
  forall q, 0 <= q_length (heap st !!! q).

Record registry_inv (o : Options) (t : list Action) (st : HH) : Prop := mk_registry_inv {
  inv_options : options st = o;
  inv_transaction : transaction st = t;
  inv_sorted : sorted_by_offset (highlights st);
  inv_highlight : highlight_in_range st;
  inv_lengths : lengths_nonneg st
}.

(** What holds in addition as long as no wrap fails: the entries of the
    marker list belong to registered descriptors, as many to each as its
    [length] says. *)
Record markers_inv (st : HH) : Prop := mk_markers_inv {
  inv_names : NoDup (map fst (queries st));
  inv_refs : NoDup (map snd (queries st));
  inv_alloc : forall q, In q (map snd (queries st)) -> (q < next_ref st)%nat;
  inv_owner : forall m, In m (highlights st) -> In (m_query m) (map snd (queries st));
  inv_count : forall q, In q (map snd (queries st)) ->
                n_query q (highlights st) = q_length (heap st !!! q)
}.

(** States a client can bring the highlighter to: construct it, queue
    operations whose arguments satisfy [ok], and [apply]; the last case is a
    state met while a transaction is being applied, after one more closure. *)
Inductive reachable_by (ok : Action -> Prop) (o : Options) (dbg : bool) : HH -> Prop :=
| reachable_constructor : reachable_by ok o dbg (constructor o dbg)
| reachable_enqueue st a :
    reachable_by ok o dbg st -> ok a -> reachable_by ok o dbg (enqueue a st)
| reachable_apply st :
    reachable_by ok o dbg st -> reachable_by ok o dbg (exec apply st)
| reachable_applying st a :
    reachable_by ok o dbg st -> ok a -> reachable_by ok o dbg (exec (apply_action a) st).

Definition reachable : Options -> bool -> HH -> Prop := reachable_by (fun _ => True).

(** Hoare triples of the monad: from a state satisfying [P], [c] either
    returns [a] in a state satisfying [Q a], or throws in one satisfying [E]. *)
Definition triple {A} (P : HH -> Prop) (c : M A) (Q : A -> HH -> Prop) (E : HH -> Prop)
  : Prop :=
  forall st, P st ->
    match c st with
    | (Ret a, st') => Q a st'
    | (Throw _, st') => E st'
    end.

(** An invariant is kept by an operation, on return and on throw. *)
Definition keeps {A} (I : HH -> Prop) (c : M A) : Prop :=
  triple I c (fun _ => I) I.


(** The state [add_queries_] leaves, given what its loops computed. *)
Definition after_add_queries (q : nat) (enabled : bool) (count : Z)
    (markers' : list HMarker) (log : list LogEntry) (st : HH) : HH :=
  let st1 := set_console (console st ++ log) (set_highlights markers' st) in
  let st2 :=
    set_heap (<[q := set_q_length (q_length (heap st !!! q) + count) (heap st !!! q)]>
                (heap st)) st1 in
  if enabled
  then set_stats (set_s_total (s_total (stats st) + count) (stats st)) st2
  else st2.


(** The state [remove_] leaves when the descriptor of [name] is [q]. *)
Definition after_remove (name : string) (q : nat) (st : HH) : HH :=
  set_queries (delete_name name (queries st))
    (set_highlights (drop_query q (highlights st))
       (set_stats
          (set_s_total (s_total (stats st) - q_length (heap st !!! q))
             (set_s_queries (s_queries (stats st) - 1) (stats st))) st)).


(** The state one turn of the loop over the hits of a finder leaves, for a
    hit whose marker was spliced in at [pos]: [this.highlights] holds the
    new entry, and a failure to wrap the hit is logged. *)
Definition after_hit (q : nat) (count pos : Z) (h : Hit) (st : HH) : HH :=
  let st1 :=
    set_highlights
      (splice_in pos (mkHMarker q count (hit_offset h)) (highlights st)) st in
  if hit_wraps h then st1
  else set_console (console st1 ++ [LogError "exception: "]) st1.

(** Queued operations none of whose wraps fails. *)
Definition wrap_safe (st : HH) : Prop :=
  markers_inv st /\ forallb action_wraps (transaction st) = true.


(** [Σ (q.enabled ? q.length : 0)] over the registered query sets. *)
Definition enabled_total (st : HH) : Z :=
  foldl (fun acc kq =>
           let d := heap st !!! kq.2 in
           acc + (if q_enabled d then q_length d else 0)) 0 (queries st).

(** Ties inserted after the equal entries: every stored entry whose offset
    equals the new one sits below the insertion index. *)
Definition ties_after (markers : list HMarker) (offset pos : Z) : Prop :=
  forall i m, marker_at markers i = Some m -> m_offset m = offset -> i < pos.

(** Ties inserted before the equal entries. *)
Definition ties_before (markers : list HMarker) (offset pos : Z) : Prop :=
  forall i m, marker_at markers i = Some m -> m_offset m = offset -> pos <= i.

(** A selection of zero length. *)
Definition zero_length (sel : Selection) : Prop :=
  if same_node (anchorNode sel) (focusNode sel)
  then focusOffset sel = anchorOffset sel
  else toString_length sel = 0.

(** The selections [getSelectedRange] is to answer [null] to. *)
Definition not_a_range (ws : WindowSelection) : Prop :=
  match ws with
  | SelectionNull => True
  | SelectionEmpty => True
  | Selected sel =>
      nodeType (anchorNode sel) <> 3 \/ nodeType (focusNode sel) <> 3 \/ zero_length sel
  end.

(** The selection made the other way round: anchor and focus exchanged. *)
Definition reversed (sel : Selection) : Selection :=
  mkSelection (focusNode sel) (focusOffset sel) (anchorNode sel) (anchorOffset sel)
    (toString_length sel).

(** Sample sessions. *)
Definition fresh : HH := constructor sample_options false.

Definition session (actions : list Action) (st : HH) : HH :=
  exec apply (foldl (fun s a => enqueue a s) st actions).

Definition hits_at (offsets : list Z) : QueriesArg :=
  QueriesArray [Finder (map hit offsets)].

Definition ten_hits : QueriesArg := hits_at [0; 1; 2; 3; 4; 5; 6; 7; 8; 9].

(** A text node of ten characters, alone in its container. *)
Definition sample_node : Node := mkNode 1 3 10.
Definition sample_content : TextContent := [mkTextMarker sample_node 0].

(** ** [next] and [prev]

    The Cursor class is not embedded; what is kept of the two methods is the
    index they hand to [this.cursor.set], given [this.cursor.index] and
    [this.cursor.total]. *)

(** [this.cursor.set(this.cursor.index + 1, false)] *)
Definition next_target (index : Z) : Z := index + 1.

(** [if (this.cursor.total <= 0) return;] then
    [this.cursor.set((this.cursor.index < 1 ? this.cursor.total :
    this.cursor.index) - 1, false)]; [None] is the early return. *)
Definition prev_target (index total : Z) : option Z :=
  if total <=? 0 then None
  else Some ((if index <? 1 then total else index) - 1).

(** * Further specification vocabulary *)

(** The shape of the registry, whatever the wraps do: names and descriptors
    are registered once, descriptors were allocated, every entry of the
    marker list belongs to a registered descriptor, a set with a reserve
    holds no more highlights than the reserve, and [stats.queries], corrected
    by [k], counts the registered sets. *)
Record shape_at (k : Z) (st : HH) : Prop := mk_shape_at {
  shape_names : NoDup (map fst (queries st));
  shape_refs : NoDup (map snd (queries st));
  shape_alloc : forall q, In q (map snd (queries st)) -> (q < next_ref st)%nat;
  shape_owner : forall m, In m (highlights st) -> In (m_query m) (map snd (queries st));
  shape_reserve : forall q r, q_reserve (heap st !!! q) = Some r ->
                    1 <= r /\ q_length (heap st !!! q) <= r;
  shape_queries : s_queries (stats st) + k = Z.of_nat (length (queries st))
}.

Definition shape_inv : HH -> Prop := shape_at 0.

(** A hit that wraps and starts at a non-negative offset. *)
Definition hit_sane (h : Hit) : bool := hit_wraps h && (0 <=? hit_offset h).

Definition query_sane (i : Query) : bool :=
  match i with
  | NoFinder => true
  | Finder hits => forallb hit_sane hits
  end.

Definition queries_sane (qa : QueriesArg) : bool :=
  match qa with
  | NotAnArray => true
  | QueriesArray qs => forallb query_sane qs
  end.

Definition action_sane (a : Action) : bool :=
  match a with
  | ActAdd _ qa _ _ => queries_sane qa
  | ActAppend _ qa _ => queries_sane qa
  | _ => true
  end.

(** What [assert_] checks of each entry: a non-negative offset and an index
    below the length of its query set. *)
Definition index_inv (st : HH) : Prop :=
  forall m, In m (highlights st) ->
    0 <= m_offset m /\ m_index m < q_length (heap st !!! m_query m).

(** Two states that differ in nothing a client can read: every field is the
    same and every descriptor reads the same. *)
Definition same_registry (st st' : HH) : Prop :=
  options st' = options st /\ debug st' = debug st /\
  transaction st' = transaction st /\ queries st' = queries st /\
  highlights st' = highlights st /\ lastId st' = lastId st /\
  stats st' = stats st /\ console st' = console st /\
  forall q, heap st' !!! q = heap st !!! q.

(** The cap [add_queries_] computes for a descriptor:
    [q.reserve > 0 ? q.reserve - q.length : null]. *)
Definition reserve_left (d : QuerySet) : option Z :=
  match q_reserve d with
  | Some r => if 0 <? r then Some (r - q_length d) else None
  | None => None
  end.

(** Both invariants of a session whose hits are sane. *)
Definition sane_inv (st : HH) : Prop := markers_inv st /\ index_inv st.

(** The state [deferred_add_] continues from after
    [if (name in this.queries) this.deferred_remove_(name)]. *)
Definition add_target (name : string) (st : HH) : HH :=
  match lookup_name name (queries st) with
  | Some q0 => after_remove name q0 st
  | None => st
  end.

(** The reserve [deferred_add_] works with:
    [if (typeof reserve !== 'number' || reserve < 1) reserve = null]. *)
Definition normal_reserve (reserve : option Z) : option Z :=
  match reserve with
  | Some r => if r <? 1 then None else Some r
  | None => None
  end.

(** The entries of the marker list that belong to the descriptor at [q], in
    the order of the list. *)
Fixpoint keep_query (q : nat) (markers : list HMarker) : list HMarker :=
  match markers with
  | [] => []
  | m :: rest =>
      if Nat.eqb (m_query m) q then m :: keep_query q rest
      else keep_query q rest
  end.

(** The name of the query set an operation is about. *)
Definition action_name (a : Action) : option string :=
  match a with
  | ActAdd name _ _ _ => Some name
  | ActAppend name _ _ => Some name
  | ActRemove name => Some name
  | ActEnable name => Some name
  | ActDisable name => Some name
  | ActClear _ => None
  end.

(** The state [deferred_enable_] ([b = true]) or [deferred_disable_]
    ([b = false]) leaves when it has something to do. *)
Definition toggled (q : nat) (b : bool) (st : HH) : HH :=
  let d := heap st !!! q in
  set_stats
    (set_s_total (if b then s_total (stats st) + q_length d
                  else s_total (stats st) - q_length d) (stats st))
    (set_heap (<[q := set_q_enabled b d]> (heap st)) st).


(** The share of a descriptor in [stats.total]: [q.enabled ? q.length : 0]. *)
Definition counted (d : QuerySet) : Z := if q_enabled d then q_length d else 0.

(** [Σ (q.enabled ? q.length : 0)] over a registry read in store [h]. *)
Definition enabled_sum (h : gmap nat QuerySet) (qs : list (string * nat)) : Z :=
  foldl (fun acc kq => acc + counted (h !!! kq.2)) 0 qs.

(** How far [stats.total] is from the sum over the enabled sets. *)
Definition total_drift (st : HH) : Z := s_total (stats st) - enabled_total st.

(** Two states with the same registry: they differ at most in the queue and
    in the console. *)
Definition registry_eq (st st' : HH) : Prop :=
  options st' = options st /\ heap st' = heap st /\ next_ref st' = next_ref st /\
  queries st' = queries st /\ highlights st' = highlights st /\
  lastId st' = lastId st /\ stats st' = stats st.

(** An operation that uses neither a reserve nor [append]. *)
Definition action_plain (a : Action) : bool :=
  match a with
  | ActAdd _ _ _ reserve =>
      match normal_reserve reserve with Some _ => false | None => true end
  | ActAppend _ _ _ => false
  | _ => true
  end.

(** The highlight ids [q.id, q.id + q.length) of the registered query sets
    lie below [lastId] and those of two sets do not overlap. *)
Definition ids_inv (st : HH) : Prop :=
  (forall q, In q (map snd (queries st)) ->
     q_id (heap st !!! q) + q_length (heap st !!! q) <= lastId st) /\
  (forall q1 q2, In q1 (map snd (queries st)) -> In q2 (map snd (queries st)) ->
     q1 <> q2 ->
     q_id (heap st !!! q1) + q_length (heap st !!! q1) <= q_id (heap st !!! q2) \/
     q_id (heap st !!! q2) + q_length (heap st !!! q2) <= q_id (heap st !!! q1)).

(** Every registered query set has its CSS variant [id_highlight] in
    [0, maxHighlight). *)
Definition variants_inv (st : HH) : Prop :=
  forall q, In q (map snd (queries st)) ->
    0 <= q_id_highlight (heap st !!! q) < maxHighlight (options st).

(** * Properties *)

(** ** The binary search of [add_queries_] *)

Lemma marker_at_Some markers i m :
  marker_at markers i = Some m ->
  0 <= i < Z.of_nat (length markers) /\ markers !! Z.to_nat i = Some m.
Proof.
  unfold marker_at. destruct (Z.ltb_spec i 0) as [|Hi]; [discriminate|].
  intros H. split; [|exact H].
  apply lookup_lt_Some in H. lia.
Qed.

Lemma marker_at_in_range markers i :
  0 <= i < Z.of_nat (length markers) -> exists m, marker_at markers i = Some m.
Proof.
  intros Hi. unfold marker_at.
  destruct (Z.ltb_spec i 0) as [|_]; [lia|].
  destruct (lookup_lt_is_Some_2 markers (Z.to_nat i)) as [m Hm]; [lia|].
  exists m. exact Hm.
Qed.

Lemma sorted_lookup_le markers :
  sorted_by_offset markers ->
  forall i j a b, (i <= j)%nat ->
    markers !! i = Some a -> markers !! j = Some b -> m_offset a <= m_offset b.
Proof.
  induction 1 as [|x l Hl IH Hx]; intros i j a b Hij Ha Hb.
  - rewrite lookup_nil in Ha. discriminate.
  - destruct i as [|i], j as [|j]; simpl in *.
    + assert (a = b) by congruence. subst. lia.
    + injection Ha as <-.
      rewrite Forall_lookup in Hx. exact (Hx j b Hb).
    + lia.
    + apply (IH i j); [lia|assumption..].
Qed.

Lemma sorted_marker_at_le markers i j a b :
  sorted_by_offset markers -> i <= j ->
  marker_at markers i = Some a -> marker_at markers j = Some b ->
  m_offset a <= m_offset b.
Proof.
  intros Hs Hij Ha Hb.
  apply marker_at_Some in Ha as [Hi Ha], Hb as [Hj Hb].
  apply (sorted_lookup_le markers Hs (Z.to_nat i) (Z.to_nat j)); [lia|assumption..].
Qed.

(** The loop ends, never reads out of range, and on a sorted list narrows
    [min, max] to the boundary between the smaller offsets and the others. *)
Lemma bsearch_spec markers offset fuel :
  forall min max,
    0 <= min <= max -> max < Z.of_nat (length markers) ->
    max - min <= Z.of_nat fuel ->
    exists r,
      bsearch fuel markers offset min max = Some r /\ min <= r <= max /\
      (sorted_by_offset markers ->
       below_before markers offset min -> at_least_from markers offset (max + 1) ->
       below_before markers offset r /\ at_least_from markers offset (r + 1)).
Proof.
  induction fuel as [|fuel IH]; intros min max Hmm Hlen Hfuel.
  - assert (min = max) as -> by lia.
    exists max. simpl. rewrite Z.ltb_irrefl. repeat split; tauto || lia.
  - simpl. destruct (Z.ltb_spec min max) as [Hlt|Hge].
    + pose proof (Z.div_le_lower_bound (min + max) 2 min) as Hlo.
      pose proof (Z.div_lt_upper_bound (min + max) 2 max) as Hhi.
      set (mid := (min + max) / 2) in *.
      assert (min <= mid < max) as Hmid by lia.
      destruct (marker_at_in_range markers mid) as [m Hm]; [lia|].
      rewrite Hm.
      destruct (Z.ltb_spec (m_offset m) offset) as [Hsmall|Hbig].
      * destruct (IH (mid + 1) max) as (r & Hr & Hrange & Hsorted); [lia..|].
        exists r. split; [exact Hr|]. split; [lia|].
        intros Hs Hbelow Hfrom. apply Hsorted; [assumption| |assumption].
        intros i m' Hi Hm'.
        pose proof (sorted_marker_at_le markers i mid m' m Hs) as Hle.
        specialize (Hle ltac:(lia) Hm' Hm). lia.
      * destruct (IH min mid) as (r & Hr & Hrange & Hsorted); [lia..|].
        exists r. split; [exact Hr|]. split; [lia|].
        intros Hs Hbelow Hfrom. apply Hsorted; [assumption..|].
        intros i m' Hi Hm'.
        pose proof (sorted_marker_at_le markers mid i m m' Hs) as Hle.
        specialize (Hle ltac:(lia) Hm Hm'). lia.
    + assert (min = max) as -> by lia.
      exists max. repeat split; tauto || lia.
Qed.

(** The index handed to [splice] always exists, lies in [0, length], and on a
    sorted list is the first index whose stored offset is at least the new
    offset (the length when there is none). *)
Lemma splice_index_spec markers offset :
  exists pos,
    splice_index markers offset = Some pos /\
    0 <= pos <= Z.of_nat (length markers) /\
    (sorted_by_offset markers ->
     below_before markers offset pos /\ at_least_from markers offset pos).
Proof.
  unfold splice_index.
  destruct markers as [|m0 rest] eqn:E.
  - exists 0. simpl. repeat split; try lia.
    + intros i m _ Hm. apply marker_at_Some in Hm as [Hi _]. simpl in Hi. lia.
    + intros i m _ Hm. apply marker_at_Some in Hm as [Hi _]. simpl in Hi. lia.
  - rewrite <- E. assert (0 < Z.of_nat (length markers)) as Hpos by (subst; simpl; lia).
    clear E m0 rest.
    destruct (bsearch_spec markers offset (length markers) 0 (Z.of_nat (length markers) - 1))
      as (r & Hr & Hrange & Hsorted); [lia..|].
    rewrite Hr.
    destruct (Z.ltb_spec 0 (Z.of_nat (length markers))) as [_|]; [|lia].
    destruct (marker_at_in_range markers r) as [m Hm]; [lia|].
    rewrite Hm.
    destruct (Z.ltb_spec (m_offset m) offset) as [Hsmall|Hbig].
    + exists (r + 1). split; [reflexivity|]. split; [lia|].
      intros Hs. destruct Hsorted as [Hb Ha]; [assumption| | |].
      * intros i m' Hi Hm'. apply marker_at_Some in Hm' as [Hi' _]. lia.
      * intros i m' Hi Hm'. apply marker_at_Some in Hm' as [Hi' _]. lia.
      * split; [|exact Ha].
        intros i m' Hi Hm'.
        destruct (Z.eq_dec i r) as [->|Hne].
        -- assert (m' = m) by congruence. subst. lia.
        -- apply (Hb i m'); [lia|assumption].
    + exists r. split; [reflexivity|]. split; [lia|].
      intros Hs. destruct Hsorted as [Hb Ha]; [assumption| | |].
      * intros i m' Hi Hm'. apply marker_at_Some in Hm' as [Hi' _]. lia.
      * intros i m' Hi Hm'. apply marker_at_Some in Hm' as [Hi' _]. lia.
      * split; [exact Hb|].
        intros i m' Hi Hm'.
        destruct (Z.eq_dec i r) as [->|Hne].
        -- assert (m' = m) by congruence. subst. lia.
        -- apply (Ha i m'); [lia|assumption].
Qed.

Lemma below_before_take markers offset pos m :
  0 <= pos -> below_before markers offset pos ->
  m ∈ take (Z.to_nat pos) markers -> m_offset m < offset.
Proof.
  intros Hpos Hb Hin.
  apply list_elem_of_lookup in Hin as [i Hi].
  apply lookup_take_Some in Hi as [Hi Hlt].
  apply (Hb (Z.of_nat i) m); [lia|].
  unfold marker_at. destruct (Z.ltb_spec (Z.of_nat i) 0); [lia|].
  rewrite Nat2Z.id. exact Hi.
Qed.

Lemma at_least_from_drop markers offset pos m :
  0 <= pos -> at_least_from markers offset pos ->
  m ∈ drop (Z.to_nat pos) markers -> offset <= m_offset m.
Proof.
  intros Hpos Ha Hin.
  apply list_elem_of_lookup in Hin as [i Hi].
  rewrite lookup_drop in Hi.
  apply (Ha (Z.of_nat (Z.to_nat pos + i)) m); [lia|].
  unfold marker_at. destruct (Z.ltb_spec (Z.of_nat (Z.to_nat pos + i)) 0); [lia|].
  rewrite Nat2Z.id. exact Hi.
Qed.

(** Splicing a marker at that index keeps the list sorted. *)
Lemma splice_in_sorted markers pos m :
  sorted_by_offset markers -> 0 <= pos ->
  below_before markers (m_offset m) pos -> at_least_from markers (m_offset m) pos ->
  sorted_by_offset (splice_in pos m markers).
Proof.
  intros Hs Hpos Hb Ha. unfold splice_in, sorted_by_offset.
  rewrite <- (take_drop (Z.to_nat pos) markers) in Hs.
  apply StronglySorted_app in Hs as (Hcross & Hl & Hr).
  apply StronglySorted_app_2.
  - intros x1 x2 H1 H2. apply elem_of_cons in H2 as [->|H2].
    + pose proof (below_before_take _ _ _ _ Hpos Hb H1). unfold offset_le. lia.
    + apply Hcross; assumption.
  - exact Hl.
  - apply StronglySorted_cons. split; [|exact Hr].
    apply Forall_forall. intros x Hx.
    pose proof (at_least_from_drop _ _ _ _ Hpos Ha Hx). exact H.
Qed.

Lemma drop_query_sorted q markers :
  sorted_by_offset markers -> sorted_by_offset (drop_query q markers).
Proof.
  induction 1 as [|x l Hl IH Hx]; simpl.
  - constructor.
  - destruct (Nat.eqb (m_query x) q); [exact IH|].
    constructor; [exact IH|].
    clear -Hx. induction Hx as [|y l Hy Hl IH]; simpl; [constructor|].
    destruct (Nat.eqb (m_query y) q); [exact IH|constructor; assumption].
Qed.

(** ** The monad *)

Lemma triple_ret {A} (P : HH -> Prop) (a : A) Q E :
  (forall st, P st -> Q a st) -> triple P (ret a) Q E.
Proof. intros H st HP. simpl. auto. Qed.

Lemma triple_throw {A} (P : HH -> Prop) e (Q : A -> HH -> Prop) (E : HH -> Prop) :
  (forall st, P st -> E st) -> triple P (throw e) Q E.
Proof. intros H st HP. simpl. auto. Qed.

Lemma triple_bind {A B} (P : HH -> Prop) (c : M A) (k : A -> M B) R Q E :
  triple P c R E -> (forall a, triple (R a) (k a) Q E) -> triple P (bind c k) Q E.
Proof.
  intros Hc Hk st HP. unfold bind. specialize (Hc st HP).
  destruct (c st) as [[a|e] st']; [|exact Hc].
  exact (Hk a st' Hc).
Qed.

Lemma triple_gets {A} (P : HH -> Prop) (f : HH -> A) Q E :
  (forall st, P st -> Q (f st) st) -> triple P (gets f) Q E.
Proof. intros H st HP. simpl. auto. Qed.

Lemma triple_modify (P : HH -> Prop) (f : HH -> HH) Q E :
  (forall st, P st -> Q tt (f st)) -> triple P (modify f) Q E.
Proof. intros H st HP. simpl. auto. Qed.

Lemma triple_weaken {A} (P P' : HH -> Prop) (c : M A) (Q Q' : A -> HH -> Prop)
    (E E' : HH -> Prop) :
  triple P' c Q' E' ->
  (forall st, P st -> P' st) -> (forall a st, Q' a st -> Q a st) ->
  (forall st, E' st -> E st) ->
  triple P c Q E.
Proof.
  intros Hc HP HQ HE st Hst. specialize (Hc st (HP st Hst)).
  destruct (c st) as [[a|e] st']; auto.
Qed.

Lemma triple_when (P : HH -> Prop) (b : bool) (c : M unit) Q E :
  (b = true -> triple P c Q E) -> (b = false -> forall st, P st -> Q tt st) ->
  triple P (when b c) Q E.
Proof.
  intros Hc Hn. destruct b; simpl.
  - auto.
  - apply triple_ret. auto.
Qed.

Lemma triple_try_catch (P : HH -> Prop) (c : M unit) handler (R : HH -> Prop) Q E :
  triple P c (fun _ => Q tt) R -> (forall e, triple R (handler e) Q E) ->
  triple P (try_catch c handler) Q E.
Proof.
  intros Hc Hh st HP. unfold try_catch. specialize (Hc st HP).
  destruct (c st) as [[[]|e] st']; [exact Hc|].
  exact (Hh e st' Hc).
Qed.

Lemma keeps_exec {A} (I : HH -> Prop) (c : M A) st :
  keeps I c -> I st -> I (exec c st).
Proof.
  intros Hc HI. specialize (Hc st HI). unfold exec.
  destruct (c st) as [[a|e] st']; exact Hc.
Qed.

(** ** The loops of [add_queries_] *)

Lemma n_query_app q l1 l2 : n_query q (l1 ++ l2) = n_query q l1 + n_query q l2.
Proof. induction l1 as [|m l1 IH]; simpl; lia. Qed.

Lemma drop_query_app q l1 l2 :
  drop_query q (l1 ++ l2) = drop_query q l1 ++ drop_query q l2.
Proof.
  induction l1 as [|m l1 IH]; simpl; [reflexivity|].
  destruct (Nat.eqb (m_query m) q); simpl; congruence.
Qed.

Lemma n_query_splice q pos m markers :
  n_query q (splice_in pos m markers) =
  n_query q markers + (if Nat.eqb (m_query m) q then 1 else 0).
Proof.
  unfold splice_in. rewrite n_query_app. simpl.
  rewrite <- (take_drop (Z.to_nat pos) markers) at 3.
  rewrite n_query_app. lia.
Qed.

Lemma drop_query_splice q pos idx offset markers :
  drop_query q (splice_in pos (mkHMarker q idx offset) markers) = drop_query q markers.
Proof.
  unfold splice_in. rewrite drop_query_app. simpl. rewrite Nat.eqb_refl.
  rewrite <- drop_query_app, take_drop. reflexivity.
Qed.

Lemma n_query_nonneg q markers : 0 <= n_query q markers.
Proof. induction markers as [|m l IH]; simpl; [lia|]. destruct (Nat.eqb _ _); lia. Qed.

Lemma n_query_drop_other q r markers :
  r <> q -> n_query r (drop_query q markers) = n_query r markers.
Proof.
  intros Hne. induction markers as [|m l IH]; simpl; [reflexivity|].
  destruct (Nat.eqb_spec (m_query m) q) as [Heq|]; simpl.
  - destruct (Nat.eqb_spec (m_query m) r); [congruence|lia].
  - lia.
Qed.

Lemma n_query_drop_same q markers : n_query q (drop_query q markers) = 0.
Proof.
  induction markers as [|m l IH]; simpl; [reflexivity|].
  destruct (Nat.eqb_spec (m_query m) q) as [Heq|Hne]; simpl; [exact IH|].
  destruct (Nat.eqb_spec (m_query m) q); [contradiction|lia].
Qed.

Lemma In_drop_query q m markers :
  In m (drop_query q markers) <-> In m markers /\ m_query m <> q.
Proof.
  induction markers as [|x l IH]; simpl; [tauto|].
  destruct (Nat.eqb_spec (m_query x) q) as [Heq|Hne]; simpl; rewrite IH.
  - split; [tauto|]. intros [[->|H] Hq]; [contradiction|tauto].
  - split; [|tauto]. intros [->|[H Hq]]; tauto.
Qed.

Lemma wrapped_hits_nonneg hits : 0 <= wrapped_hits hits.
Proof. induction hits as [|h l IH]; simpl; [lia|]. destruct (hit_wraps h); lia. Qed.

Lemma state_eta st :
  set_console (console st ++ []) (set_highlights (highlights st) st) = st.
Proof. destruct st. unfold set_console, set_highlights. simpl. rewrite app_nil_r. reflexivity. Qed.

(** One finder: the loop returns, touches [this.highlights] and the console
    only, leaves the entries of other descriptors in place and in order, and
    keeps the list sorted. *)
Lemma while_hits_spec q reserve hits :
  forall count st,
  exists count' markers' log,
    while_hits q reserve hits count st =
      (Ret count', set_console (console st ++ log) (set_highlights markers' st)) /\
    count <= count' /\
    drop_query q markers' = drop_query q (highlights st) /\
    (sorted_by_offset (highlights st) -> sorted_by_offset markers') /\
    (forallb hit_wraps hits = true ->
       n_query q markers' = n_query q (highlights st) + (count' - count)) /\
    (reserve = None -> count' = count + wrapped_hits hits).
Proof.
  induction hits as [|h rest IH]; intros count st.
  - exists count, (highlights st), []. simpl. unfold ret.
    rewrite state_eta. repeat split; auto; lia.
  - simpl. destruct (reserve_exceeded reserve count) eqn:Hres.
    + exists count, (highlights st), [LogError "highlight reserve exceeded"].
      unfold bind, console_error, modify, ret. simpl.
      split; [destruct st; reflexivity|].
      split; [lia|]. split; [reflexivity|]. split; [auto|].
      split; [intros _; lia|].
      intros ->. discriminate.
    + unfold bind at 1. unfold gets at 1.
      destruct (splice_index_spec (highlights st) (hit_offset h))
        as (pos & Hpos & Hrange & Hsorted).
      rewrite Hpos. unfold bind at 1. unfold modify at 1.
      set (m := mkHMarker q count (hit_offset h)).
      set (st1 := set_highlights (splice_in pos m (highlights st)) st).
      assert (sorted_by_offset (highlights st) -> sorted_by_offset (highlights st1)) as Hs1.
      { intros Hs. destruct (Hsorted Hs) as [Hb Ha].
        apply splice_in_sorted; [assumption|lia|exact Hb|exact Ha]. }
      assert (drop_query q (highlights st1) = drop_query q (highlights st)) as Hd1
        by apply drop_query_splice.
      assert (n_query q (highlights st1) = n_query q (highlights st) + 1) as Hn1.
      { simpl. rewrite n_query_splice. simpl. rewrite Nat.eqb_refl. reflexivity. }
      destruct (hit_wraps h) eqn:Hw.
      * destruct (IH (count + 1) st1) as (count' & ms' & log & Heq & Hle & Hd & Hs & Hn & Hnone).
        exists count', ms', log. rewrite Heq.
        split; [reflexivity|]. split; [lia|]. split; [congruence|].
        split; [auto|]. split.
        -- simpl. intros Hall. rewrite (Hn Hall), Hn1. lia.
        -- intros Hr. rewrite (Hnone Hr). lia.
      * unfold bind at 1. unfold console_error at 1, modify at 1.
        set (st2 := set_console (console st1 ++ [LogError "exception: "]) st1).
        destruct (IH count st2) as (count' & ms' & log & Heq & Hle & Hd & Hs & Hn & Hnone).
        exists count', ms', (LogError "exception: " :: log). rewrite Heq.
        split.
        { subst st2 st1. simpl. unfold set_console, set_highlights. simpl.
          rewrite <- app_assoc. reflexivity. }
        split; [lia|]. split; [exact (eq_trans Hd Hd1)|].
        split; [auto|]. split.
        -- simpl. discriminate.
        -- intros Hr. rewrite (Hnone Hr). lia.
Qed.

Lemma wrapped_queries_nonneg qs : 0 <= wrapped_queries qs.
Proof.
  induction qs as [|[|hits] l IH]; simpl; [lia|lia|].
  pose proof (wrapped_hits_nonneg hits). lia.
Qed.

(** All finders of one call. *)
Lemma forEach_query_spec q reserve qs :
  forall count st,
  exists count' markers' log,
    forEach_query q reserve qs count st =
      (Ret count', set_console (console st ++ log) (set_highlights markers' st)) /\
    count <= count' /\
    drop_query q markers' = drop_query q (highlights st) /\
    (sorted_by_offset (highlights st) -> sorted_by_offset markers') /\
    (forallb query_wraps qs = true ->
       n_query q markers' = n_query q (highlights st) + (count' - count)) /\
    (reserve = None -> count' = count + wrapped_queries qs).
Proof.
  induction qs as [|i rest IH]; intros count st.
  - exists count, (highlights st), []. simpl. unfold ret.
    rewrite state_eta. repeat split; auto; lia.
  - simpl. destruct i as [|hits].
    + unfold bind at 1. unfold console_error at 1, modify at 1.
      set (st1 := set_console (console st ++ [LogError "exception: "]) st).
      destruct (IH count st1) as (count' & ms' & log & Heq & Hle & Hd & Hs & Hn & Hnone).
      exists count', ms', (LogError "exception: " :: log). rewrite Heq.
      split.
      { subst st1. unfold set_console, set_highlights. simpl.
        rewrite <- app_assoc. reflexivity. }
      repeat split; auto.
    + unfold bind at 1.
      destruct (while_hits_spec q reserve hits count st)
        as (c1 & ms1 & log1 & Heq1 & Hle1 & Hd1 & Hs1 & Hn1 & Hnone1).
      rewrite Heq1.
      set (st1 := set_console (console st ++ log1) (set_highlights ms1 st)).
      destruct (IH c1 st1) as (count' & ms' & log & Heq & Hle & Hd & Hs & Hn & Hnone).
      exists count', ms', (log1 ++ log). rewrite Heq.
      split.
      { subst st1. unfold set_console, set_highlights. simpl.
        rewrite <- app_assoc. reflexivity. }
      split; [lia|]. split; [exact (eq_trans Hd Hd1)|].
      split; [auto|]. split.
      * simpl. intros Hall. apply andb_prop in Hall as [Hh Hr].
        simpl in Hn. rewrite (Hn Hr), (Hn1 Hh). lia.
      * intros Hr. rewrite (Hnone Hr), (Hnone1 Hr). lia.
Qed.

(** One turn of the loop over the hits of a finder. *)
Lemma while_hits_step q reserve h rest count st pos :
  reserve_exceeded reserve count = false ->
  splice_index (highlights st) (hit_offset h) = Some pos ->
  while_hits q reserve (h :: rest) count st =
    while_hits q reserve rest (if hit_wraps h then count + 1 else count)
      (after_hit q count pos h st).
Proof.
  intros Hres Hpos. simpl. rewrite Hres.
  unfold bind, gets, modify, console_error, after_hit. simpl. rewrite Hpos.
  destruct (hit_wraps h); reflexivity.
Qed.

(** ** The object [this.queries] *)

Lemma lookup_name_In name q qs : lookup_name name qs = Some q -> In (name, q) qs.
Proof.
  induction qs as [|[k r] l IH]; simpl; [discriminate|].
  destruct (String.eqb_spec k name) as [->|Hne].
  - intros [= ->]. left. reflexivity.
  - intros H. right. exact (IH H).
Qed.

Lemma lookup_name_None name qs : lookup_name name qs = None -> ~ In name (map fst qs).
Proof.
  induction qs as [|[k r] l IH]; simpl; [tauto|].
  destruct (String.eqb_spec k name) as [->|Hne]; [discriminate|].
  intros H [Hk|Hin]; [contradiction|]. exact (IH H Hin).
Qed.

Lemma NoDup_lookup_name k r qs :
  NoDup (map fst qs) -> In (k, r) qs -> lookup_name k qs = Some r.
Proof.
  induction qs as [|[k' r'] l IH]; simpl; [tauto|].
  intros Hnd [Heq|Hin]; apply NoDup_cons in Hnd as [Hk Hnd].
  - injection Heq as -> ->. rewrite String.eqb_refl. reflexivity.
  - destruct (String.eqb_spec k' k) as [->|Hne]; [|exact (IH Hnd Hin)].
    exfalso. apply Hk. apply list_elem_of_In. apply in_map_iff. exists (k, r). auto.
Qed.

Lemma In_delete_name name k r qs :
  In (k, r) (delete_name name qs) <-> In (k, r) qs /\ k <> name.
Proof.
  induction qs as [|[k' r'] l IH]; simpl; [tauto|].
  destruct (String.eqb_spec k' name) as [->|Hne]; simpl; rewrite IH.
  - split; [tauto|]. intros [[[= -> ->]|H] Hk]; [contradiction|tauto].
  - split; [|tauto]. intros [[= -> ->]|[H Hk]]; tauto.
Qed.

Lemma lookup_delete_name name qs : lookup_name name (delete_name name qs) = None.
Proof.
  induction qs as [|[k r] l IH]; simpl; [reflexivity|].
  destruct (String.eqb_spec k name) as [->|Hne]; [exact IH|].
  simpl. destruct (String.eqb_spec k name); [contradiction|exact IH].
Qed.

Lemma NoDup_fst_delete_name name qs :
  NoDup (map fst qs) -> NoDup (map fst (delete_name name qs)).
Proof.
  induction qs as [|[k r] l IH]; simpl; [auto|].
  intros Hnd. apply NoDup_cons in Hnd as [Hk Hnd].
  destruct (String.eqb_spec k name) as [->|Hne]; [auto|].
  simpl. apply NoDup_cons. split; [|auto].
  intros Hin. apply Hk. apply list_elem_of_In in Hin. apply list_elem_of_In.
  apply in_map_iff in Hin as [[k' r'] [Hf Hin]]. simpl in Hf. subst k'.
  apply In_delete_name in Hin as [Hin _].
  apply in_map_iff. exists (k, r'). auto.
Qed.

Lemma NoDup_snd_delete_name name qs :
  NoDup (map snd qs) -> NoDup (map snd (delete_name name qs)).
Proof.
  induction qs as [|[k r] l IH]; simpl; [auto|].
  intros Hnd. apply NoDup_cons in Hnd as [Hk Hnd].
  destruct (String.eqb_spec k name) as [->|Hne]; [auto|].
  simpl. apply NoDup_cons. split; [|auto].
  intros Hin. apply Hk. apply list_elem_of_In in Hin. apply list_elem_of_In.
  apply in_map_iff in Hin as [[k' r'] [Hf Hin]]. simpl in Hf. subst r'.
  apply In_delete_name in Hin as [Hin _].
  apply in_map_iff. exists (k', r). auto.
Qed.

Lemma assign_name_fresh name q qs :
  lookup_name name qs = None -> assign_name name q qs = qs ++ [(name, q)].
Proof.
  induction qs as [|[k r] l IH]; simpl; [reflexivity|].
  destruct (String.eqb_spec k name) as [->|Hne]; [discriminate|].
  intros H. rewrite (IH H). reflexivity.
Qed.

Lemma In_snd_delete_name name q r qs :
  NoDup (map fst qs) -> lookup_name name qs = Some q ->
  In r (map snd qs) -> r <> q -> In r (map snd (delete_name name qs)).
Proof.
  intros Hnd Hq Hin Hne.
  apply in_map_iff in Hin as [[k r'] [Hf Hin]]. simpl in Hf. subst r'.
  apply in_map_iff. exists (k, r). split; [reflexivity|].
  apply In_delete_name. split; [exact Hin|].
  intros ->. rewrite (NoDup_lookup_name _ _ _ Hnd Hin) in Hq. congruence.
Qed.

Lemma NoDup_snd_key k1 k2 (r : nat) (qs : list (string * nat)) :
  NoDup (map snd qs) -> In (k1, r) qs -> In (k2, r) qs -> k1 = k2.
Proof.
  induction qs as [|[k' r'] l IH]; simpl; [tauto|].
  intros Hnd H1 H2. apply NoDup_cons in Hnd as [Hr Hnd].
  assert (forall k0, In (k0, r') l -> False) as Hfresh.
  { intros k0 H0. apply Hr. apply list_elem_of_In. apply in_map_iff.
    exists (k0, r'). auto. }
  destruct H1 as [H1|H1], H2 as [H2|H2].
  - congruence.
  - injection H1 as -> ->. exfalso. eauto.
  - injection H2 as -> ->. exfalso. eauto.
  - auto.
Qed.

Lemma In_snd_delete_name_ne name q r qs :
  NoDup (map snd qs) -> lookup_name name qs = Some q ->
  In r (map snd (delete_name name qs)) -> In r (map snd qs) /\ r <> q.
Proof.
  intros Hnd Hq Hin.
  apply in_map_iff in Hin as [[k r'] [Hf Hin]]. simpl in Hf. subst r'.
  apply In_delete_name in Hin as [Hin Hk].
  split; [apply in_map_iff; exists (k, r); auto|].
  intros ->. apply lookup_name_In in Hq.
  apply Hk. exact (NoDup_snd_key _ _ _ _ Hnd Hin Hq).
Qed.

(** ** [add_queries_] and [remove_] as state transformers *)

Lemma add_queries__spec name q qs enabled st :
  exists count markers' log,
    add_queries_ name q qs enabled st =
      (Ret count, after_add_queries q enabled count markers' log st) /\
    0 <= count /\
    drop_query q markers' = drop_query q (highlights st) /\
    (sorted_by_offset (highlights st) -> sorted_by_offset markers') /\
    (forallb query_wraps qs = true ->
       n_query q markers' = n_query q (highlights st) + count) /\
    (q_reserve (heap st !!! q) = None -> count = wrapped_queries qs).
Proof.
  unfold add_queries_. unfold bind at 1. unfold deref at 1, gets at 1.
  set (reserve := match q_reserve (heap st !!! q) with
                  | Some r => if 0 <? r then Some (r - q_length (heap st !!! q)) else None
                  | None => None
                  end).
  unfold bind at 1.
  destruct (forEach_query_spec q reserve qs 0 st)
    as (count & ms' & log & Heq & Hle & Hd & Hs & Hn & Hnone).
  rewrite Heq. exists count, ms', log.
  split.
  { unfold after_add_queries, bind, update_q, modify, when, ret.
    destruct enabled; reflexivity. }
  split; [exact Hle|]. split; [exact Hd|]. split; [exact Hs|]. split.
  - intros Hall. rewrite (Hn Hall). lia.
  - intros Hr. subst reserve. rewrite Hr in Hnone. rewrite (Hnone eq_refl). lia.
Qed.

Lemma remove__spec name st :
  match lookup_name name (queries st) with
  | None => remove_ name st = (Throw (Error "Query set non-existent"), st)
  | Some q => remove_ name st = (Ret tt, after_remove name q st)
  end.
Proof.
  unfold remove_, get_, bind, gets, deref, modify, throw, ret, after_remove.
  destruct (lookup_name name (queries st)); reflexivity.
Qed.

(** ** Invariant-keeping operations *)

Section Keeps.
Variable I : HH -> Prop.

Lemma keeps_ret {A} (a : A) : keeps I (ret a).
Proof. apply triple_ret. auto. Qed.

Lemma keeps_throw {A} e : keeps I (@throw A e).
Proof. apply triple_throw. auto. Qed.

Lemma keeps_gets {A} (f : HH -> A) : keeps I (gets f).
Proof. apply triple_gets. auto. Qed.

Lemma keeps_modify f : (forall st, I st -> I (f st)) -> keeps I (modify f).
Proof. intros H. apply triple_modify. exact H. Qed.

Lemma keeps_bind {A B} (c : M A) (k : A -> M B) :
  keeps I c -> (forall a, keeps I (k a)) -> keeps I (bind c k).
Proof. intros Hc Hk. eapply triple_bind; [exact Hc|exact Hk]. Qed.

Lemma keeps_when b c : keeps I c -> keeps I (when b c).
Proof. intros Hc. apply triple_when; auto. Qed.

Lemma keeps_try_catch c handler :
  keeps I c -> (forall e, keeps I (handler e)) -> keeps I (try_catch c handler).
Proof. intros Hc Hh. eapply triple_try_catch; [exact Hc|exact Hh]. Qed.
End Keeps.

Create HintDb keeps.
#[local] Hint Resolve keeps_ret keeps_throw keeps_gets keeps_bind keeps_when
  keeps_try_catch : keeps.

Section RegistryInv.
Variable o : Options.
Variable t : list Action.

(** The registry invariant only looks at the marker list, at the rotating
  highlight id and at the lengths. *)
Lemma registry_inv_frame st st' :
registry_inv o t st ->
highlights st' = highlights st -> options st' = options st ->
transaction st' = transaction st ->
s_highlight (stats st') = s_highlight (stats st) ->
(lengths_nonneg st -> lengths_nonneg st') ->
registry_inv o t st'.
Proof.
intros [Hopt Htr Hs Hh Hl] Hm Ho Ht Hhi Hq. constructor.
- congruence.
- congruence.
- rewrite Hm. exact Hs.
- unfold highlight_in_range in *. rewrite Ho, Hhi. exact Hh.
- auto.
Qed.

Lemma lengths_nonneg_insert st q d h :
lengths_nonneg st -> 0 <= q_length d -> h = <[q := d]> (heap st) ->
forall q', 0 <= q_length (h !!! q').
Proof.
intros Hl Hd -> q'. rewrite lookup_total_insert.
destruct (decide (q = q')); [exact Hd|apply Hl].
Qed.

Lemma registry_inv_console_error msg : keeps (registry_inv o t) (console_error msg).
Proof. apply keeps_modify. intros st H. apply (registry_inv_frame st); auto. Qed.

Lemma registry_inv_console_error_exn msg x :
keeps (registry_inv o t) (console_error_exn msg x).
Proof. apply keeps_modify. intros st H. apply (registry_inv_frame st); auto. Qed.

Lemma registry_inv_console_info msg : keeps (registry_inv o t) (console_info msg).
Proof. apply keeps_modify. intros st H. apply (registry_inv_frame st); auto. Qed.

Lemma assert__state st : (assert_ st).2 = st.
Proof.
unfold assert_. destruct (assert_markers _ _ _ _); [|reflexivity].
destruct (_ =? _); reflexivity.
Qed.

Lemma keeps_assert_ I : keeps I assert_.
Proof.
intros st H. pose proof (assert__state st) as E.
destruct (assert_ st) as [[a|e] st']; simpl in E; subst; exact H.
Qed.

Lemma keeps_debug_assert I : keeps I debug_assert.
Proof.
unfold debug_assert. apply keeps_bind; [apply keeps_gets|].
intros dbg. apply keeps_when. apply keeps_assert_.
Qed.

Lemma registry_inv_remove_ name : keeps (registry_inv o t) (remove_ name).
Proof.
intros st H. pose proof (remove__spec name st) as E.
destruct (lookup_name name (queries st)) as [q|]; rewrite E; [|exact H].
destruct H as [Hopt Htr Hs Hh Hl]. constructor.
- exact Hopt.
- exact Htr.
- simpl. apply drop_query_sorted. exact Hs.
- exact Hh.
- exact Hl.
Qed.

Lemma registry_inv_new_query_set name enabled :
keeps (registry_inv o t) (new_query_set name enabled).
Proof.
intros st H. unfold new_query_set.
apply (registry_inv_frame st); auto.
intros Hl q. simpl. eapply lengths_nonneg_insert; [exact Hl| |reflexivity].
simpl. lia.
Qed.

Lemma registry_inv_update_q q f :
(forall d, q_length (f d) = q_length d) -> keeps (registry_inv o t) (update_q q f).
Proof.
intros Hf. apply keeps_modify. intros st H.
apply (registry_inv_frame st); auto.
intros Hl q'. simpl. eapply lengths_nonneg_insert; [exact Hl| |reflexivity].
rewrite Hf. apply Hl.
Qed.

Lemma registry_inv_add_queries_ name q qs enabled :
keeps (registry_inv o t) (add_queries_ name q qs enabled).
Proof.
intros st H.
destruct (add_queries__spec name q qs enabled st)
  as (count & ms' & log & Heq & Hle & Hd & Hs & Hn & Hnone).
rewrite Heq. destruct H as [Hopt Htr Hsorted Hh Hl].
unfold after_add_queries. destruct enabled; constructor; simpl; auto.
- intros q'. simpl. eapply lengths_nonneg_insert; [exact Hl| |reflexivity].
  simpl. specialize (Hl q). lia.
- intros q'. simpl. eapply lengths_nonneg_insert; [exact Hl| |reflexivity].
  simpl. specialize (Hl q). lia.
Qed.

Lemma registry_inv_advance_lastId q reserve count :
keeps (registry_inv o t) (advance_lastId q reserve count).
Proof.
unfold advance_lastId. destruct reserve as [r|].
- destruct (count <? r).
  + apply keeps_bind; [|intros _; apply registry_inv_update_q; reflexivity].
    apply keeps_modify. intros st H. apply (registry_inv_frame st); auto.
  + apply keeps_bind; [apply registry_inv_console_error|].
    intros _. apply registry_inv_update_q. reflexivity.
- apply keeps_modify. intros st H. apply (registry_inv_frame st); auto.
Qed.

(** The rotating id stays below [maxHighlight]. *)
Lemma next_highlight_spec st :
next_highlight st =
  (Ret tt,
   set_stats
     (set_s_highlight
        (if maxHighlight (options st) <=? s_highlight (stats st) + 1
         then 0 else s_highlight (stats st) + 1) (stats st)) st).
Proof.
unfold next_highlight, bind, modify, gets, when, ret. simpl.
destruct (maxHighlight (options st) <=? s_highlight (stats st) + 1);
  destruct st as [? ? ? ? ? ? ? ? [? ? ?] ?]; reflexivity.
Qed.

Lemma registry_inv_next_highlight : keeps (registry_inv o t) next_highlight.
Proof.
intros st H. rewrite next_highlight_spec.
destruct H as [Hopt Htr Hs Hh Hl]. constructor; auto.
unfold highlight_in_range in *. simpl. intros Hmax. specialize (Hh Hmax).
destruct (Z.leb_spec (maxHighlight (options st)) (s_highlight (stats st) + 1)); lia.
Qed.

Lemma registry_inv_stats_queries v :
keeps (registry_inv o t)
  (modify (fun st => set_stats (set_s_queries (s_queries (stats st) + v) (stats st)) st)).
Proof. apply keeps_modify. intros st H. apply (registry_inv_frame st); auto. Qed.

#[local] Hint Resolve registry_inv_console_error registry_inv_console_error_exn
registry_inv_console_info keeps_assert_ keeps_debug_assert registry_inv_remove_
registry_inv_new_query_set registry_inv_add_queries_ registry_inv_advance_lastId
registry_inv_next_highlight registry_inv_stats_queries : keeps.

Lemma registry_inv_deferred_add_ name qa enabled reserve :
keeps (registry_inv o t) (deferred_add_ name qa enabled reserve).
Proof.
unfold deferred_add_, deferred_remove_. destruct qa as [|qs]; [apply keeps_throw|].
repeat (apply keeps_bind; [auto with keeps|intros ?]).
auto with keeps.
Qed.

Lemma registry_inv_deferred_append_ name qa enabled :
keeps (registry_inv o t) (deferred_append_ name qa enabled).
Proof.
unfold deferred_append_. destruct qa as [|qs]; [apply keeps_throw|].
apply keeps_bind; [apply keeps_gets|]. intros registry.
destruct (lookup_name name registry); auto with keeps.
Qed.

Lemma registry_inv_stats_total (f : HH -> Z) :
keeps (registry_inv o t)
  (modify (fun st => set_stats (set_s_total (f st) (stats st)) st)).
Proof. apply keeps_modify. intros st H. apply (registry_inv_frame st); auto. Qed.

Lemma registry_inv_get_ name : keeps (registry_inv o t) (get_ name).
Proof.
unfold get_. apply keeps_bind; [apply keeps_gets|]. intros qs.
destruct (lookup_name name qs); auto with keeps.
Qed.

Lemma registry_inv_deferred_enable_ name : keeps (registry_inv o t) (deferred_enable_ name).
Proof.
unfold deferred_enable_, deref.
apply keeps_bind; [apply registry_inv_get_|]. intros q.
apply keeps_bind; [apply keeps_gets|]. intros d.
destruct (q_enabled d); [apply keeps_ret|].
apply keeps_bind; [apply registry_inv_update_q; reflexivity|]. intros _.
apply keeps_bind; [apply keeps_gets|]. intros d'.
apply (registry_inv_stats_total (fun st => s_total (stats st) + q_length d')).
Qed.

Lemma registry_inv_deferred_disable_ name : keeps (registry_inv o t) (deferred_disable_ name).
Proof.
unfold deferred_disable_, deref.
apply keeps_bind; [apply registry_inv_get_|]. intros q.
apply keeps_bind; [apply keeps_gets|]. intros d.
destruct (negb (q_enabled d)); [apply keeps_ret|].
apply keeps_bind; [apply registry_inv_update_q; reflexivity|]. intros _.
apply keeps_bind; [apply keeps_gets|]. intros d'.
apply (registry_inv_stats_total (fun st => s_total (stats st) - q_length d')).
Qed.

Lemma keeps_forEach_remove I keys :
(forall name, keeps I (remove_ name)) -> keeps I (forEach_remove keys).
Proof.
intros Hr. induction keys as [|k rest IH]; simpl.
- apply keeps_ret.
- apply keeps_bind; [apply Hr|intros _; exact IH].
Qed.

Lemma registry_inv_deferred_clear_ reset : keeps (registry_inv o t) (deferred_clear_ reset).
Proof.
unfold deferred_clear_.
apply keeps_bind; [apply keeps_gets|]. intros keys.
apply keeps_bind; [apply keeps_forEach_remove, registry_inv_remove_|]. intros _.
apply keeps_bind; [apply keeps_gets|]. intros registry.
destruct registry; [|apply keeps_throw].
apply keeps_when. apply keeps_bind.
- apply keeps_modify. intros st H. apply (registry_inv_frame st); auto.
- intros _. apply keeps_modify. intros st [Hopt Htr Hs Hh Hl]. constructor; auto.
  unfold highlight_in_range. simpl. lia.
Qed.

Lemma registry_inv_run_action a : keeps (registry_inv o t) (run_action a).
Proof.
destruct a; simpl.
- apply registry_inv_deferred_add_.
- apply registry_inv_deferred_append_.
- apply registry_inv_remove_.
- apply registry_inv_deferred_enable_.
- apply registry_inv_deferred_disable_.
- apply registry_inv_deferred_clear_.
Qed.

Lemma registry_inv_apply_action a : keeps (registry_inv o t) (apply_action a).
Proof.
unfold apply_action. apply keeps_try_catch; [apply registry_inv_run_action|].
intros e. apply registry_inv_console_error_exn.
Qed.

End RegistryInv.

Lemma keeps_forEach_action I actions :
  (forall a, In a actions -> keeps I (run_action a)) ->
  (forall msg x, keeps I (console_error_exn msg x)) ->
  keeps I (forEach_action actions).
Proof.
  intros Hr Hlog. induction actions as [|a rest IH]; simpl.
  - apply keeps_ret.
  - apply keeps_bind.
    + unfold apply_action. apply keeps_try_catch; [apply Hr; left; reflexivity|].
      intros e. apply Hlog.
    + intros _. apply IH. intros a' Ha'. apply Hr. right. exact Ha'.
Qed.

Lemma forEach_action_returns actions st :
  exists st', forEach_action actions st = (Ret tt, st').
Proof.
  revert st. induction actions as [|a rest IH]; intros st; simpl.
  - exists st. reflexivity.
  - unfold bind, apply_action, try_catch, console_error_exn, modify.
    destruct (run_action a st) as [[[]|e] st1]; apply IH.
Qed.

Lemma apply_transaction st : transaction (exec apply st) = [].
Proof.
  unfold exec, apply, bind, gets. destruct (transaction st) as [|a rest] eqn:E.
  - simpl. exact E.
  - destruct (forEach_action_returns (a :: rest) st) as [st' ->]. reflexivity.
Qed.

Lemma registry_inv_apply o t st :
  registry_inv o t st -> registry_inv o [] (exec apply st).
Proof.
  intros H. unfold exec, apply, bind, gets.
  destruct (transaction st) as [|a rest] eqn:E.
  - simpl. destruct H as [Hopt Htr Hs Hh Hl]. constructor; auto.
  - assert (keeps (registry_inv o t) (forEach_action (a :: rest))) as K.
    { apply keeps_forEach_action.
      - intros a' _. apply registry_inv_run_action.
      - apply registry_inv_console_error_exn. }
    specialize (K st H).
    destruct (forEach_action_returns (a :: rest) st) as [st' E'].
    rewrite E' in K |- *. simpl.
    destruct K as [Hopt Htr Hs Hh Hl]. constructor; auto.
Qed.

Lemma registry_inv_constructor o dbg : registry_inv o [] (constructor o dbg).
Proof.
  constructor; simpl.
  - reflexivity.
  - reflexivity.
  - constructor.
  - unfold highlight_in_range. simpl. lia.
  - intros q. simpl. rewrite lookup_total_empty. simpl. lia.
Qed.

Lemma registry_inv_reachable ok o dbg st :
  reachable_by ok o dbg st -> registry_inv o (transaction st) st.
Proof.
  induction 1 as [|st a Hst IH Ha|st Hst IH|st a Hst IH Ha].
  - apply registry_inv_constructor.
  - destruct IH as [Hopt Htr Hs Hh Hl]. constructor; auto.
  - rewrite apply_transaction. exact (registry_inv_apply _ _ _ IH).
  - pose proof (keeps_exec _ _ _ (registry_inv_apply_action o (transaction st) a) IH) as K.
    rewrite (inv_transaction _ _ _ K). exact K.
Qed.

(** ** The marker list and the lengths, when no wrap fails *)

Lemma markers_inv_frame st st' :
  markers_inv st ->
  queries st' = queries st -> next_ref st' = next_ref st ->
  highlights st' = highlights st ->
  (forall q, In q (map snd (queries st)) ->
     q_length (heap st' !!! q) = q_length (heap st !!! q)) ->
  markers_inv st'.
Proof.
  intros [Hn Hr Ha Ho Hc] Hq Hnext Hm Hlen. constructor.
  - rewrite Hq. exact Hn.
  - rewrite Hq. exact Hr.
  - rewrite Hq, Hnext. exact Ha.
  - rewrite Hq, Hm. exact Ho.
  - rewrite Hq, Hm. intros q Hin. rewrite (Hlen q Hin). exact (Hc q Hin).
Qed.

Lemma n_query_absent q markers :
  (forall m, In m markers -> m_query m <> q) -> n_query q markers = 0.
Proof.
  induction markers as [|m l IH]; simpl; [reflexivity|].
  intros H. destruct (Nat.eqb_spec (m_query m) q) as [Heq|Hne].
  - exfalso. exact (H m (or_introl eq_refl) Heq).
  - rewrite IH; [lia|]. intros m' Hm'. apply H. right. exact Hm'.
Qed.

Lemma markers_inv_remove_ name :
  triple markers_inv (remove_ name)
    (fun _ st => markers_inv st /\ lookup_name name (queries st) = None)
    markers_inv.
Proof.
  intros st H. pose proof (remove__spec name st) as E.
  destruct (lookup_name name (queries st)) as [q|] eqn:Hq; rewrite E; [|exact H].
  destruct H as [Hn Hr Ha Ho Hc].
  split; [|simpl; apply lookup_delete_name].
  constructor; simpl.
  - apply NoDup_fst_delete_name. exact Hn.
  - apply NoDup_snd_delete_name. exact Hr.
  - intros q' Hin. apply Ha.
    exact (proj1 (In_snd_delete_name_ne _ _ _ _ Hr Hq Hin)).
  - intros m Hm. apply In_drop_query in Hm as [Hm Hne].
    apply (In_snd_delete_name name q); auto.
  - intros q' Hin.
    destruct (In_snd_delete_name_ne _ _ _ _ Hr Hq Hin) as [Hin' Hne].
    rewrite n_query_drop_other by exact Hne. exact (Hc q' Hin').
Qed.

Lemma keeps_of_triple {A} (I : HH -> Prop) (c : M A) (Q : A -> HH -> Prop) :
  triple I c (fun a st => I st /\ Q a st) I -> keeps I c.
Proof.
  intros H. eapply triple_weaken; [exact H|auto..].
  intros a st [HI _]. exact HI.
Qed.

Lemma markers_inv_new_query_set name enabled :
  triple (fun st => markers_inv st /\ lookup_name name (queries st) = None)
    (new_query_set name enabled)
    (fun q st => markers_inv st /\ In q (map snd (queries st)))
    markers_inv.
Proof.
  intros st [[Hn Hr Ha Ho Hc] Hfresh]. unfold new_query_set.
  rewrite (assign_name_fresh _ _ _ Hfresh).
  assert (~ In (next_ref st) (map snd (queries st))) as Hnew.
  { intros Hin. specialize (Ha _ Hin). lia. }
  split.
  - constructor; simpl.
    + rewrite map_app. simpl. apply NoDup_app. split; [exact Hn|].
      split; [|apply NoDup_singleton].
      intros k Hk Hk'. apply list_elem_of_In in Hk.
      apply list_elem_of_singleton in Hk'. subst k.
      exact (lookup_name_None _ _ Hfresh Hk).
    + rewrite map_app. simpl. apply NoDup_app. split; [exact Hr|].
      split; [|apply NoDup_singleton].
      intros r Hin Hin'. apply list_elem_of_In in Hin.
      apply list_elem_of_singleton in Hin'. subst r. contradiction.
    + intros q. rewrite map_app, in_app_iff. simpl.
      intros [Hin|[Heq|[]]]; [specialize (Ha _ Hin)|]; lia.
    + intros m Hm. rewrite map_app, in_app_iff. left. exact (Ho m Hm).
    + intros q. rewrite map_app, in_app_iff. simpl. intros [Hin|[Heq|[]]].
      * rewrite lookup_total_insert_ne by (intros Heq; subst q; contradiction).
        exact (Hc q Hin).
      * subst q. rewrite lookup_total_insert_eq. simpl.
        apply n_query_absent. intros m Hm Heq. apply Hnew. rewrite <- Heq.
        exact (Ho m Hm).
  - simpl. rewrite map_app, in_app_iff. right. left. reflexivity.
Qed.

Lemma markers_inv_add_queries_ name q qs enabled :
  forallb query_wraps qs = true ->
  triple (fun st => markers_inv st /\ In q (map snd (queries st)))
    (add_queries_ name q qs enabled)
    (fun _ => markers_inv) markers_inv.
Proof.
  intros Hw st [[Hn Hr Ha Ho Hc] Hq].
  destruct (add_queries__spec name q qs enabled st)
    as (count & ms' & log & Heq & Hle & Hd & Hs & Hcount & Hnone).
  rewrite Heq. specialize (Hcount Hw).
  assert (markers_inv
            (set_heap (<[q := set_q_length (q_length (heap st !!! q) + count) (heap st !!! q)]>
                         (heap st))
               (set_console (console st ++ log) (set_highlights ms' st)))) as Hinv.
  { constructor; simpl; auto.
    - intros m Hm. destruct (Nat.eq_dec (m_query m) q) as [->|Hne]; [exact Hq|].
      apply Ho. assert (In m (drop_query q ms')) as Hm'
        by (apply In_drop_query; auto).
      rewrite Hd in Hm'. apply In_drop_query in Hm'. tauto.
    - intros q' Hin. destruct (Nat.eq_dec q q') as [<-|Hne].
      + rewrite lookup_total_insert_eq. simpl. rewrite Hcount, (Hc q Hin). reflexivity.
      + rewrite lookup_total_insert_ne by exact Hne.
        rewrite <- (Hc q' Hin).
        rewrite <- (n_query_drop_other q q' ms') by auto.
        rewrite Hd. apply n_query_drop_other. auto. }
  unfold after_add_queries. destruct enabled; [|exact Hinv].
  apply (markers_inv_frame _ _ Hinv); reflexivity.
Qed.

Lemma markers_inv_update_q q f :
  (forall d, q_length (f d) = q_length d) -> keeps markers_inv (update_q q f).
Proof.
  intros Hf. apply keeps_modify. intros st H.
  apply (markers_inv_frame st); auto.
  intros q' _. simpl. rewrite lookup_total_insert.
  destruct (decide (q = q')) as [->|]; [apply Hf|reflexivity].
Qed.

Lemma markers_inv_modify_stats (f : HH -> Stats) :
  keeps markers_inv (modify (fun st => set_stats (f st) st)).
Proof. apply keeps_modify. intros st H. apply (markers_inv_frame st); auto. Qed.

Lemma markers_inv_modify_lastId (f : HH -> Z) :
  keeps markers_inv (modify (fun st => set_lastId (f st) st)).
Proof. apply keeps_modify. intros st H. apply (markers_inv_frame st); auto. Qed.

Lemma markers_inv_console_error msg : keeps markers_inv (console_error msg).
Proof. apply keeps_modify. intros st H. apply (markers_inv_frame st); auto. Qed.

Lemma markers_inv_console_error_exn msg x : keeps markers_inv (console_error_exn msg x).
Proof. apply keeps_modify. intros st H. apply (markers_inv_frame st); auto. Qed.

Lemma markers_inv_console_info msg : keeps markers_inv (console_info msg).
Proof. apply keeps_modify. intros st H. apply (markers_inv_frame st); auto. Qed.

Lemma markers_inv_advance_lastId q reserve count :
  keeps markers_inv (advance_lastId q reserve count).
Proof.
  unfold advance_lastId. destruct reserve as [r|].
  - destruct (count <? r).
    + apply keeps_bind; [|intros _; apply markers_inv_update_q; reflexivity].
      apply (markers_inv_modify_lastId (fun _ => r)).
    + apply keeps_bind; [apply markers_inv_console_error|].
      intros _. apply markers_inv_update_q. reflexivity.
  - apply (markers_inv_modify_lastId (fun st => lastId st + count)).
Qed.

Lemma markers_inv_next_highlight : keeps markers_inv next_highlight.
Proof.
  intros st H. rewrite next_highlight_spec.
  apply (markers_inv_frame st); auto.
Qed.

Lemma markers_inv_deferred_add_ name qa enabled reserve :
  queries_wrap qa = true ->
  keeps markers_inv (deferred_add_ name qa enabled reserve).
Proof.
  intros Hw. unfold deferred_add_, deferred_remove_.
  destruct qa as [|qs]; [apply keeps_throw|]. simpl in Hw.
  eapply triple_bind.
  { apply triple_gets with
      (Q := fun b st => markers_inv st /\ b = name_in name (queries st)).
    auto. }
  intros present. eapply triple_bind.
  { apply triple_when with
      (Q := fun _ st => markers_inv st /\ lookup_name name (queries st) = None).
    - intros _. eapply triple_weaken; [apply markers_inv_remove_|..]; auto.
      intros st [H _]. exact H.
    - intros Hb st [H Hp]. split; [exact H|].
      rewrite Hb in Hp. unfold name_in in Hp. destruct (lookup_name name (queries st)); congruence. }
  intros ?. eapply triple_bind; [apply markers_inv_new_query_set|].
  intros q. eapply triple_bind; [apply markers_inv_add_queries_; exact Hw|].
  intros count.
  apply keeps_bind; [apply markers_inv_advance_lastId|]. intros _.
  apply keeps_bind; [apply markers_inv_modify_stats|]. intros _.
  apply keeps_bind; [apply markers_inv_next_highlight|]. intros _.
  apply keeps_debug_assert.
Qed.

Lemma markers_inv_deferred_append_ name qa enabled :
  queries_wrap qa = true ->
  keeps markers_inv (deferred_append_ name qa enabled).
Proof.
  intros Hw. unfold deferred_append_.
  destruct qa as [|qs]; [apply keeps_throw|]. simpl in Hw.
  eapply triple_bind.
  { apply triple_gets with
      (Q := fun registry st => markers_inv st /\ registry = queries st).
    auto. }
  intros registry. destruct (lookup_name name registry) as [q|] eqn:Hq.
  - apply triple_bind with (R := fun _ => markers_inv).
    + eapply triple_weaken; [apply markers_inv_add_queries_; exact Hw|..].
      * intros st [H ->]. split; [exact H|].
        apply in_map_iff. exists (name, q). split; [reflexivity|].
        apply lookup_name_In. exact Hq.
      * auto.
      * auto.
    + intros ?. apply keeps_debug_assert.
  - apply triple_throw. tauto.
Qed.

Lemma markers_inv_get_ name : keeps markers_inv (get_ name).
Proof.
  unfold get_. apply keeps_bind; [apply keeps_gets|]. intros qs.
  destruct (lookup_name name qs); [apply keeps_ret|apply keeps_throw].
Qed.

Lemma markers_inv_deferred_enable_ name : keeps markers_inv (deferred_enable_ name).
Proof.
  unfold deferred_enable_, deref.
  apply keeps_bind; [apply markers_inv_get_|]. intros q.
  apply keeps_bind; [apply keeps_gets|]. intros d.
  destruct (q_enabled d); [apply keeps_ret|].
  apply keeps_bind; [apply markers_inv_update_q; reflexivity|]. intros _.
  apply keeps_bind; [apply keeps_gets|]. intros d'.
  apply markers_inv_modify_stats.
Qed.

Lemma markers_inv_deferred_disable_ name : keeps markers_inv (deferred_disable_ name).
Proof.
  unfold deferred_disable_, deref.
  apply keeps_bind; [apply markers_inv_get_|]. intros q.
  apply keeps_bind; [apply keeps_gets|]. intros d.
  destruct (negb (q_enabled d)); [apply keeps_ret|].
  apply keeps_bind; [apply markers_inv_update_q; reflexivity|]. intros _.
  apply keeps_bind; [apply keeps_gets|]. intros d'.
  apply markers_inv_modify_stats.
Qed.

Lemma markers_inv_keeps_remove_ name : keeps markers_inv (remove_ name).
Proof. eapply keeps_of_triple. apply markers_inv_remove_. Qed.

Lemma markers_inv_deferred_clear_ reset : keeps markers_inv (deferred_clear_ reset).
Proof.
  unfold deferred_clear_.
  apply keeps_bind; [apply keeps_gets|]. intros keys.
  apply keeps_bind; [apply keeps_forEach_remove, markers_inv_keeps_remove_|]. intros _.
  apply keeps_bind; [apply keeps_gets|]. intros registry.
  destruct registry; [|apply keeps_throw].
  apply keeps_when. apply keeps_bind.
  - apply (markers_inv_modify_lastId (fun _ => 0)).
  - intros _. apply markers_inv_modify_stats.
Qed.

Lemma markers_inv_run_action a :
  action_wraps a = true -> keeps markers_inv (run_action a).
Proof.
  destruct a; simpl; intros Hw.
  - apply markers_inv_deferred_add_. exact Hw.
  - apply markers_inv_deferred_append_. exact Hw.
  - apply markers_inv_keeps_remove_.
  - apply markers_inv_deferred_enable_.
  - apply markers_inv_deferred_disable_.
  - apply markers_inv_deferred_clear_.
Qed.

Lemma wrap_safe_apply st : wrap_safe st -> wrap_safe (exec apply st).
Proof.
  intros [Hinv Hw]. split; [|rewrite apply_transaction; reflexivity].
  unfold exec, apply, bind, gets. destruct (transaction st) as [|a rest] eqn:E.
  - simpl. apply (markers_inv_frame st); auto.
  - assert (keeps markers_inv (forEach_action (a :: rest))) as K.
    { apply keeps_forEach_action.
      - intros a' Ha'. apply markers_inv_run_action.
        rewrite forallb_forall in Hw. apply Hw. exact Ha'.
      - apply markers_inv_console_error_exn. }
    specialize (K st Hinv).
    destruct (forEach_action_returns (a :: rest) st) as [st' E'].
    rewrite E' in K |- *. simpl.
    apply (markers_inv_frame st'); auto.
Qed.

Lemma markers_inv_apply_action a :
  action_wraps a = true -> keeps markers_inv (apply_action a).
Proof.
  intros Hw. unfold apply_action.
  apply keeps_try_catch; [apply markers_inv_run_action; exact Hw|].
  intros e. apply markers_inv_console_error_exn.
Qed.

Lemma wrap_safe_reachable o dbg st :
  reachable_by (fun a => action_wraps a = true) o dbg st -> wrap_safe st.
Proof.
  induction 1 as [|st a Hst [Hinv Hw] Ha|st Hst IH|st a Hst [Hinv Hw] Ha].
  - split; [|reflexivity].
    constructor; simpl; try constructor; tauto.
  - split.
    + apply (markers_inv_frame st); auto.
    + simpl. rewrite forallb_app, Hw. simpl. rewrite Ha. reflexivity.
  - apply wrap_safe_apply. exact IH.
  - split.
    + exact (keeps_exec _ _ _ (markers_inv_apply_action a Ha) Hinv).
    + pose proof (registry_inv_reachable _ _ _ _ Hst) as R.
      pose proof (keeps_exec _ _ _ (registry_inv_apply_action o (transaction st) a) R) as K.
      rewrite (inv_transaction _ _ _ K). exact Hw.
Qed.

Lemma sum_lengths_cons h k q qs :
  sum_lengths h ((k, q) :: qs) = q_length (h !!! q) + sum_lengths h qs.
Proof.
  unfold sum_lengths. simpl. generalize (q_length (h !!! q)). generalize 0.
  induction qs as [|[k' q'] l IH]; intros a b; simpl; [lia|].
  replace (a + b + q_length (h !!! q')) with (a + q_length (h !!! q') + b) by lia.
  apply IH.
Qed.

Lemma length_drop_query q markers :
  Z.of_nat (length markers) = n_query q markers + Z.of_nat (length (drop_query q markers)).
Proof.
  induction markers as [|m l IH]; simpl length; simpl n_query; simpl drop_query; [lia|].
  destruct (Nat.eqb (m_query m) q); simpl length; lia.
Qed.

(** Counting the marker list owner by owner. *)
Lemma length_by_owner h qs :
  forall markers,
    NoDup (map snd qs) ->
    (forall m, In m markers -> In (m_query m) (map snd qs)) ->
    (forall q, In q (map snd qs) -> n_query q markers = q_length (h !!! q)) ->
    Z.of_nat (length markers) = sum_lengths h qs.
Proof.
  induction qs as [|[k r] rest IH]; intros markers Hnd Ho Hc.
  - destruct markers as [|m l]; [reflexivity|].
    exfalso. exact (Ho m (or_introl eq_refl)).
  - simpl in Hnd. apply NoDup_cons in Hnd as [Hr Hnd].
    rewrite sum_lengths_cons, (length_drop_query r markers).
    rewrite (Hc r (or_introl eq_refl)).
    rewrite (IH (drop_query r markers) Hnd); [reflexivity| |].
    + intros m Hm. apply In_drop_query in Hm as [Hm Hne].
      destruct (Ho m Hm) as [Heq|Hin]; [simpl in Heq; congruence|exact Hin].
    + intros q Hq. rewrite n_query_drop_other.
      * apply Hc. right. exact Hq.
      * intros ->. apply Hr. apply list_elem_of_In. exact Hq.
Qed.

Lemma markers_inv_length st :
  markers_inv st -> Z.of_nat (length (highlights st)) = sum_lengths (heap st) (queries st).
Proof. intros [Hn Hr Ha Ho Hc]. apply length_by_owner; assumption. Qed.

(** ** [deferred_add_] with a reserve *)

Lemma lookup_assign_name name q qs : lookup_name name (assign_name name q qs) = Some q.
Proof.
  induction qs as [|[k r] l IH]; simpl.
  - rewrite String.eqb_refl. reflexivity.
  - destruct (String.eqb_spec k name) as [->|Hne]; simpl.
    + rewrite String.eqb_refl. reflexivity.
    + destruct (String.eqb_spec k name); [contradiction|exact IH].
Qed.

Lemma debug_assert_state st : (debug_assert st).2 = st.
Proof.
  unfold debug_assert, bind, gets, when. destruct (debug st).
  - apply assert__state.
  - reflexivity.
Qed.

(** [if (name in this.queries) this.deferred_remove_(name)] returns, and
    leaves the rotating id and the options as they are. *)
Lemma remove_if_present_returns name st :
  exists st',
    (forall B (k : M B),
       (present <- gets (fun st => name_in name (queries st)) ;;
        when present (deferred_remove_ name) ;; k) st = k st') /\
    s_highlight (stats st') = s_highlight (stats st) /\
    options st' = options st.
Proof.
  unfold name_in, deferred_remove_.
  pose proof (remove__spec name st) as E.
  destruct (lookup_name name (queries st)) as [q|] eqn:Hq.
  - exists (after_remove name q st). split; [|split; reflexivity].
    intros B k. unfold bind at 1. unfold gets at 1. rewrite Hq. simpl.
    unfold bind at 1. rewrite E. reflexivity.
  - exists st. split; [|split; reflexivity].
    intros B k. unfold bind at 1. unfold gets at 1. rewrite Hq. reflexivity.
Qed.

Lemma advance_lastId_returns q reserve count st :
  exists st',
    advance_lastId q reserve count st = (Ret tt, st') /\
    stats st' = stats st /\ options st' = options st.
Proof.
  unfold advance_lastId. destruct reserve as [r|].
  - destruct (count <? r); eexists; (split; [reflexivity|split; reflexivity]).
  - eexists. split; [reflexivity|split; reflexivity].
Qed.


(** The part of [deferred_add_] that follows the removal of an older set of
    the same name, when the reserve is not above the count. *)
Lemma add_insufficient_reserve name qs enabled r st :
  r <= wrapped_queries qs ->
  exists res st',
    (q <- new_query_set name enabled ;;
     count <- add_queries_ name q qs enabled ;;
     advance_lastId q (Some r) count ;;
     modify (fun st => set_stats (set_s_queries (s_queries (stats st) + 1) (stats st)) st) ;;
     next_highlight ;;
     debug_assert) st = (res, st') /\
    exists q,
      lookup_name name (queries st') = Some q /\
      q_length (heap st' !!! q) = wrapped_queries qs /\
      q_reserve (heap st' !!! q) = Some (wrapped_queries qs) /\
      In (LogError "Invalid or insufficient reserve specified") (console st').
Proof.
  intros Hr. unfold bind at 1. unfold new_query_set at 1.
  set (q := next_ref st).
  set (st2 := set_queries _ _).
  unfold bind at 1.
  destruct (add_queries__spec name q qs enabled st2)
    as (count & ms' & log & Heq & Hle & Hd & Hs & Hn & Hnone).
  assert (heap st2 !!! q =
          mkQuerySet name enabled (s_highlight (stats st)) (lastId st) 0 None) as Hfresh.
  { subst st2. simpl. apply lookup_total_insert_eq. }
  assert (count = wrapped_queries qs) as Hcount.
  { apply Hnone. rewrite Hfresh. reflexivity. }
  rewrite Heq.
  set (st3 := after_add_queries q enabled count ms' log st2).
  assert (queries st3 = queries st2 /\
          heap st3 !!! q = set_q_length (q_length (heap st2 !!! q) + count) (heap st2 !!! q))
    as [Hq3 Hh3].
  { subst st3. unfold after_add_queries. destruct enabled; simpl;
      rewrite lookup_total_insert_eq; split; reflexivity. }
  unfold advance_lastId.
  destruct (Z.ltb_spec count r) as [Hlt|_]; [lia|].
  unfold bind at 1. unfold bind at 1. unfold console_error at 1, modify at 1.
  unfold update_q at 1, modify at 1.
  unfold bind at 1. unfold modify at 1.
  unfold bind at 1. rewrite next_highlight_spec.
  match goal with
  | |- context [debug_assert ?s] =>
      pose proof (debug_assert_state s) as Hdbg;
      destruct (debug_assert s) as [res st'] eqn:Edbg
  end.
  simpl in Hdbg. subst st'. exists res. eexists. split; [reflexivity|].
  exists q. simpl. rewrite lookup_total_insert_eq, Hh3, Hq3, Hfresh.
  subst st2. simpl. rewrite lookup_assign_name.
  repeat split; try (f_equal; lia); try lia.
  apply in_or_app. right. left. reflexivity.
Qed.

(** ** The transaction queue *)

Lemma forEach_action_app l1 l2 st :
  forEach_action (l1 ++ l2) st = forEach_action l2 (exec (forEach_action l1) st).
Proof.
  revert st. induction l1 as [|a l1 IH]; intros st; simpl.
  - reflexivity.
  - unfold exec, bind.
    destruct (forEach_action_returns [a] st) as [s1 E1].
    simpl in E1. unfold bind in E1.
    destruct (apply_action a st) as [[[]|e] s] eqn:Ea.
    + rewrite IH. reflexivity.
    + discriminate.
Qed.

Lemma apply_action_returns a st :
  apply_action a st =
    (Ret tt,
     match run_action a st with
     | (Ret _, s) => s
     | (Throw e, s) => set_console (console s ++ [LogErrorExn "Failed to apply action:" e]) s
     end).
Proof.
  unfold apply_action, try_catch, console_error_exn, modify.
  destruct (run_action a st) as [[[]|e] s]; reflexivity.
Qed.

Lemma reachable_by_weaken (ok ok' : Action -> Prop) o dbg st :
  (forall a, ok a -> ok' a) -> reachable_by ok o dbg st -> reachable_by ok' o dbg st.
Proof.
  intros Hok. induction 1; [constructor|constructor; auto..].
Qed.


Lemma at_least_from_ties_before markers offset pos :
  at_least_from markers offset pos -> below_before markers offset pos ->
  ties_before markers offset pos.
Proof.
  intros Ha Hb i m Hm Heq.
  destruct (Z.lt_ge_cases i pos) as [Hlt|Hge]; [|lia].
  specialize (Hb i m Hlt Hm). lia.
Qed.

(** * The specification, statement by statement *)

(** ** Wrap failures *)

(** C1 (defect in the code).  A hit whose wrap throws is logged and does not
    advance the length of its query set, but the entry spliced into
    [this.highlights] for it before the wrap stays there.  After
    [add("a", [q]).apply()], where the only hit of [q] (offset 7) fails to
    wrap: the failure is logged, the length of "a" is 0, the marker list
    still holds the entry of the hit, is longer than the lengths add up to,
    and [assert_] rejects the state. *)
Theorem wrap_failure_marker_remains :
  let st := session [ActAdd "a" (QueriesArray [Finder [failing_hit 7]]) true None] fresh in
  console st = [LogError "exception: "] /\
  (exists q, lookup_name "a" (queries st) = Some q /\
             q_length (heap st !!! q) = 0 /\
             highlights st = [mkHMarker q 0 7]) /\
  Z.of_nat (length (highlights st)) <> sum_lengths (heap st) (queries st) /\
  (assert_ st).1 = Throw (Error "Invalid state: highlight out of position").
Proof.
  vm_compute. split; [reflexivity|]. split.
  - exists 0%nat. repeat split.
  - split; [discriminate|reflexivity].
Qed.

(** ** [stats.total] *)

(** C2 (defect in the code).  [remove_] subtracts the length of the removed
    set from [stats.total] whether or not the set is enabled.  A disabled set
    with one highlight leaves [stats.total] at 0, as the sum over the enabled
    sets; removing it brings [stats.total] to -1 while no set is left. *)
Theorem remove_disabled_decrements_total :
  let st1 := session [ActAdd "a" (hits_at [7]) false None] fresh in
  let st2 := session [ActRemove "a"] st1 in
  s_total (stats st1) = 0 /\ enabled_total st1 = 0 /\
  queries st2 = [] /\ enabled_total st2 = 0 /\ s_total (stats st2) = -1.
Proof. vm_compute. repeat split. Qed.

(** ** Reserves *)

(** C3, as stated, fails: with a reserve of 5 and 10 hits, the set does not
    end with 5 highlights and [lastId] advanced by 5. *)
Lemma reserve_5_hits_10_not_capped :
  let st := session [ActAdd "a" ten_hits true (Some 5)] fresh in
  ~ (exists q, lookup_name "a" (queries st) = Some q /\
               q_length (heap st !!! q) = 5 /\
               n_query q (highlights st) = 5 /\
               lastId st = lastId fresh + 5).
Proof.
  intros st (q & Hq & Hlen & _). vm_compute in Hq. injection Hq as <-.
  vm_compute in Hlen. discriminate.
Qed.

(** C4 (defect in the code).  With a reserve above the count, [lastId] is set
    to the reserve instead of being advanced by it: after "a" took ids 0 to
    2, adding "b" with one hit and a reserve of 2 moves [lastId] from 3 back
    to 2, an id "a" owns.  With a reserve not above the count, [lastId] is
    not advanced at all. *)
Theorem reserve_overwrites_lastId :
  let st1 := session [ActAdd "a" (hits_at [3; 5; 9]) true None] fresh in
  let st2 := session [ActAdd "b" (hits_at [1]) true (Some 2)] st1 in
  let st3 := session [ActAdd "a" ten_hits true (Some 5)] fresh in
  lastId st1 = 3 /\ lastId st2 = 2 /\ lastId st2 <> lastId st1 + 2 /\
  (exists q, lookup_name "b" (queries st2) = Some q /\
             q_id (heap st2 !!! q) = 3 /\ q_length (heap st2 !!! q) = 1 /\
             q_reserve (heap st2 !!! q) = Some 2) /\
  lastId st3 = 0 /\
  (exists q, lookup_name "a" (queries st3) = Some q /\ q_length (heap st3 !!! q) = 10).
Proof.
  vm_compute. repeat split; try discriminate.
  - exists 1%nat. repeat split.
  - exists 0%nat. repeat split.
Qed.

(** ** Insertion into the marker list *)

(** C5, as stated, fails: an entry with the offset of a stored one is spliced
    in before it, not after.  Two hits at offset 5 end up in the list in the
    reverse order of their insertion. *)
Lemma tie_inserted_before_equal :
  let markers := [mkHMarker 0 0 5] in
  (exists pos, splice_index markers 5 = Some pos /\ ~ ties_after markers 5 pos) /\
  highlights (session [ActAdd "a" (hits_at [5; 5]) true None] fresh) =
    [mkHMarker 0 1 5; mkHMarker 0 0 5].
Proof.
  split; [|reflexivity].
  exists 0. split; [reflexivity|].
  intros H. specialize (H 0 (mkHMarker 0 0 5) eq_refl eq_refl). lia.
Qed.

(** ** Selections *)

(** C6 (defect in the code).  On one text node the length is
    [focusOffset - anchorOffset], not its absolute value, and a length of 0
    or less is answered with [null]: a selection made from right to left
    inside one text node gives no Range, whatever [Range.descriptorRel]
    does. *)
Theorem same_node_right_to_left_is_null descriptorRel content n a f len :
  nodeType n = 3 -> f < a ->
  getSelectedRange descriptorRel content (Selected (mkSelection n a n f len)) =
    (Ret None, []).
Proof.
  intros Ht Hlt. unfold getSelectedRange. simpl.
  rewrite Ht. simpl. unfold same_node. rewrite Nat.eqb_refl.
  destruct (Z.leb_spec (f - a) 0); [reflexivity|lia].
Qed.

(** Characters 2 to 4 of the sample node, selected from 5 back to 2, give
    [null]; selected from 2 to 5 they give the Range from 2 to 4. *)
Lemma same_node_right_to_left_witness :
  let sel := mkSelection sample_node 5 sample_node 2 3 in
  getSelectedRange descriptorRel_clamped sample_content (Selected sel) = (Ret None, []) /\
  getSelectedRange descriptorRel_clamped sample_content (Selected (reversed sel)) =
    (Ret (Some (mkRange sample_content
                  (mkDescriptor (mkTextMarker sample_node 0) 2)
                  (mkDescriptor (mkTextMarker sample_node 0) 4))), []).
Proof.
  split.
  - apply same_node_right_to_left_is_null; [reflexivity|lia].
  - reflexivity.
Defined.

(** C7.  [getSelectedRange] returns [null], and does not throw, when there is
    no selection, when the anchor or the focus is not a text node, and when
    the selection has zero length, whatever [Range.descriptorRel] does; so a
    selection of zero length never becomes a Range. *)
Theorem getSelectedRange_null descriptorRel content ws :
  not_a_range ws -> (getSelectedRange descriptorRel content ws).1 = Ret None.
Proof.
  destruct ws as [| |sel]; simpl; [reflexivity..|].
  intros H.
  destruct (Z.eqb_spec (nodeType (anchorNode sel)) 3) as [Ha|Ha]; simpl; [|reflexivity].
  destruct (Z.eqb_spec (nodeType (focusNode sel)) 3) as [Hf|Hf]; simpl; [|reflexivity].
  destruct H as [H|[H|H]]; [contradiction..|].
  unfold zero_length in H.
  destruct (same_node (anchorNode sel) (focusNode sel)).
  - rewrite H, Z.sub_diag. reflexivity.
  - rewrite H. reflexivity.
Qed.

Lemma getSelectedRange_null_witness :
  (getSelectedRange descriptorRel_clamped sample_content
     (Selected (mkSelection sample_node 4 sample_node 4 0))).1 = Ret None.
Proof.
  apply getSelectedRange_null. simpl. right. right. reflexivity.
Defined.

(** ** Reserves, amended *)

(** C3 (amended).  During an add the reserve caps nothing: when the queries
    produce at least [reserve] hits whose wrap succeeds, every one of them is
    counted in the length of the set, none is suppressed, "Invalid or
    insufficient reserve specified" is logged and [q.reserve] is set to the
    count. *)
Theorem add_reserve_not_above_count name qs enabled r st :
  1 <= r -> r <= wrapped_queries qs ->
  let st' := exec (deferred_add_ name (QueriesArray qs) enabled (Some r)) st in
  exists q,
    lookup_name name (queries st') = Some q /\
    q_length (heap st' !!! q) = wrapped_queries qs /\
    q_reserve (heap st' !!! q) = Some (wrapped_queries qs) /\
    In (LogError "Invalid or insufficient reserve specified") (console st').
Proof.
  intros H1 Hr st'. subst st'. unfold exec, deferred_add_.
  destruct (Z.ltb_spec r 1) as [|_]; [lia|].
  destruct (remove_if_present_returns name st) as (st1 & Hk & _).
  rewrite Hk.
  destruct (add_insufficient_reserve name qs enabled r st1 Hr) as (res & st' & E & H).
  rewrite E. exact H.
Qed.

(** A reserve of 5 with 10 hits: the set ends with 10 highlights. *)
Lemma add_reserve_not_above_count_witness :
  let st' := exec (deferred_add_ "a" ten_hits true (Some 5)) fresh in
  exists q,
    lookup_name "a" (queries st') = Some q /\
    q_length (heap st' !!! q) = 10 /\
    q_reserve (heap st' !!! q) = Some 10 /\
    In (LogError "Invalid or insufficient reserve specified") (console st').
Proof.
  apply (add_reserve_not_above_count "a"
           [Finder (map hit [0; 1; 2; 3; 4; 5; 6; 7; 8; 9])] true 5 fresh).
  - lia.
  - simpl. lia.
Defined.

(** ** The marker list, amended *)

(** C5 (amended).  In every turn of the loop over the hits of a finder,
    the marker of the hit is spliced into [this.highlights], when that list
    is sorted, at the first index whose stored offset is at least the new
    offset (at the end when there is none), hence before the entries of
    equal offset, and the list stays sorted; after every apply, and between
    the closures of one, the marker list is non-decreasing by offset; and as
    long as no wrap fails and no query set is named after a property of
    [Object.prototype], its length is the sum of the lengths of the query
    sets. *)
Theorem marker_list_sorted ok o dbg st s q reserve h rest count :
  reachable_by ok o dbg st -> sorted_by_offset (highlights s) ->
  reserve_exceeded reserve count = false ->
  sorted_by_offset (highlights st) /\
  (exists pos,
     splice_index (highlights s) (hit_offset h) = Some pos /\
     0 <= pos <= Z.of_nat (length (highlights s)) /\
     below_before (highlights s) (hit_offset h) pos /\
     at_least_from (highlights s) (hit_offset h) pos /\
     ties_before (highlights s) (hit_offset h) pos /\
     while_hits q reserve (h :: rest) count s =
       while_hits q reserve rest (if hit_wraps h then count + 1 else count)
         (after_hit q count pos h s) /\
     highlights (after_hit q count pos h s) =
       splice_in pos (mkHMarker q count (hit_offset h)) (highlights s) /\
     sorted_by_offset (highlights (after_hit q count pos h s))) /\
  ((forall a, ok a -> action_wraps a = true /\ plain_names a = true) ->
   Z.of_nat (length (highlights st)) = sum_lengths (heap st) (queries st)).
Proof.
  intros Hreach Hsorted Hres. split; [|split].
  - exact (inv_sorted _ _ _ (registry_inv_reachable _ _ _ _ Hreach)).
  - destruct (splice_index_spec (highlights s) (hit_offset h))
      as (pos & Hpos & Hrange & Hs).
    destruct (Hs Hsorted) as [Hb Ha].
    assert (highlights (after_hit q count pos h s) =
            splice_in pos (mkHMarker q count (hit_offset h)) (highlights s)) as Hw.
    { unfold after_hit. destruct (hit_wraps h); reflexivity. }
    exists pos. split; [exact Hpos|]. split; [exact Hrange|].
    split; [exact Hb|]. split; [exact Ha|]. split.
    + apply at_least_from_ties_before; assumption.
    + split; [exact (while_hits_step _ _ _ _ _ _ _ Hres Hpos)|].
      split; [exact Hw|]. rewrite Hw.
      apply splice_in_sorted; [assumption|lia|assumption..].
  - intros Hok. apply markers_inv_length.
    apply (wrap_safe_reachable o dbg).
    exact (reachable_by_weaken _ _ _ _ _ (fun a Ha => proj1 (Hok a Ha)) Hreach).
Qed.

(** A third hit, at offset 5, of a second query set, on the list left by
    hits at 5, 3 and 5 of a first one: it goes before the two entries at 5. *)
Lemma marker_list_sorted_witness :
  let st := exec apply (enqueue (ActAdd "a" (hits_at [5; 3; 5]) true None) fresh) in
  let h := hit 5 in
  sorted_by_offset (highlights st) /\
  (exists pos,
     splice_index (highlights st) (hit_offset h) = Some pos /\
     0 <= pos <= Z.of_nat (length (highlights st)) /\
     below_before (highlights st) (hit_offset h) pos /\
     at_least_from (highlights st) (hit_offset h) pos /\
     ties_before (highlights st) (hit_offset h) pos /\
     while_hits 1 None [h] 0 st =
       while_hits 1 None [] (if hit_wraps h then 0 + 1 else 0) (after_hit 1 0 pos h st) /\
     highlights (after_hit 1 0 pos h st) =
       splice_in pos (mkHMarker 1 0 (hit_offset h)) (highlights st) /\
     sorted_by_offset (highlights (after_hit 1 0 pos h st))) /\
  ((forall a, action_wraps a = true /\ plain_names a = true ->
              action_wraps a = true /\ plain_names a = true) ->
   Z.of_nat (length (highlights st)) = sum_lengths (heap st) (queries st)).
Proof.
  intros st h.
  assert (reachable_by (fun a => action_wraps a = true /\ plain_names a = true)
            sample_options false st) as Hreach.
  { apply reachable_apply. apply reachable_enqueue.
    - apply reachable_constructor.
    - split; reflexivity. }
  apply (marker_list_sorted _ sample_options false st st 1%nat None h [] 0 Hreach).
  - exact (inv_sorted _ _ _ (registry_inv_reachable _ _ _ _ Hreach)).
  - reflexivity.
Defined.

(** ** [apply] *)

(** C8.  [apply] returns and leaves the queue empty.  Each queued closure is
    run exactly where its place in the queue puts it: from the state the
    closures before it have left, whether or not any of them threw; what it
    throws is caught and logged; and the closures after it are run from the
    state it leaves. *)
Theorem apply_runs_queue st :
  (exists st', apply st = (Ret tt, st') /\ transaction st' = []) /\
  forall before a after,
    transaction st = before ++ a :: after ->
    exists s1 s2,
      forEach_action before st = (Ret tt, s1) /\
      apply_action a s1 = (Ret tt, s2) /\
      match run_action a s1 with
      | (Ret _, s) => s2 = s
      | (Throw e, s) =>
          s2 = set_console (console s ++ [LogErrorExn "Failed to apply action:" e]) s
      end /\
      apply st = (Ret tt, set_transaction [] (exec (forEach_action after) s2)).
Proof.
  split.
  - pose proof (apply_transaction st) as Ht. unfold exec in Ht.
    unfold apply, bind, gets in *.
    destruct (transaction st) as [|a rest] eqn:E.
    + eexists. split; [reflexivity|]. exact Ht.
    + destruct (forEach_action_returns (a :: rest) st) as [st' E'].
      rewrite E' in Ht |- *. eexists. split; [reflexivity|]. exact Ht.
  - intros before a after Hq.
    destruct (forEach_action_returns before st) as [s1 E1].
    exists s1. eexists. split; [exact E1|].
    split; [apply apply_action_returns|]. split.
    + destruct (run_action a s1) as [[[]|e] s]; reflexivity.
    + unfold apply, bind, gets. rewrite Hq.
      destruct (before ++ a :: after) as [|x l] eqn:Eq.
      { destruct before; discriminate. }
      rewrite <- Eq. rewrite forEach_action_app.
      unfold exec at 1. rewrite E1. simpl forEach_action at 1.
      unfold bind at 1. rewrite apply_action_returns.
      destruct (forEach_action_returns after
                  (match run_action a s1 with
                   | (Ret _, s) => s
                   | (Throw e, s) =>
                       set_console (console s ++ [LogErrorExn "Failed to apply action:" e]) s
                   end)) as [s3 E3].
      unfold exec. rewrite E3. reflexivity.
Qed.

(** A removal of a set that does not exist throws; the add queued behind it
    is applied all the same. *)
Lemma apply_runs_queue_witness :
  let add_b := ActAdd "b" (hits_at [1]) true None in
  let st := enqueue add_b (enqueue (ActRemove "zz") fresh) in
  exists s1 s2,
    forEach_action [] st = (Ret tt, s1) /\
    apply_action (ActRemove "zz") s1 = (Ret tt, s2) /\
    match run_action (ActRemove "zz") s1 with
    | (Ret _, s) => s2 = s
    | (Throw e, s) =>
        s2 = set_console (console s ++ [LogErrorExn "Failed to apply action:" e]) s
    end /\
    apply st = (Ret tt, set_transaction [] (exec (forEach_action [add_b]) s2)).
Proof.
  intros add_b st.
  apply (proj2 (apply_runs_queue st) [] (ActRemove "zz") [add_b]).
  reflexivity.
Defined.

(** ** The rotating highlight id *)



(** ** [empty] *)

(** C10.  [empty] answers [true] exactly when every registered query set has
    length 0: it tells whether there are highlights, not whether there are
    query sets. *)
Theorem empty_iff_no_highlight o dbg st :
  reachable o dbg st ->
  empty st = true <->
  forall name q, In (name, q) (queries st) -> q_length (heap st !!! q) = 0.
Proof.
  intros Hreach.
  pose proof (inv_lengths _ _ _ (registry_inv_reachable _ _ _ _ Hreach)) as Hl.
  unfold empty. rewrite negb_true_iff. split.
  - intros He name q Hin.
    destruct (Z.ltb_spec 0 (q_length (heap st !!! q))) as [Hpos|Hle].
    + assert (existsb (fun kq => 0 <? q_length (heap st !!! kq.2)) (queries st) = true) as Ht.
      { apply existsb_exists. exists (name, q). split; [exact Hin|].
        simpl. apply Z.ltb_lt. exact Hpos. }
      congruence.
    + specialize (Hl q). lia.
  - intros Hall.
    destruct (existsb _ (queries st)) eqn:He; [|reflexivity].
    apply existsb_exists in He as [[name q] [Hin Hpos]].
    simpl in Hpos. apply Z.ltb_lt in Hpos. rewrite (Hall name q Hin) in Hpos. lia.
Qed.

(** A registry holding one query set without hits is empty. *)
Lemma empty_iff_no_highlight_witness :
  let st := exec apply (enqueue (ActAdd "x" (QueriesArray [Finder []]) true None) fresh) in
  queries st <> [] /\
  (empty st = true <->
   forall name q, In (name, q) (queries st) -> q_length (heap st !!! q) = 0).
Proof.
  split; [discriminate|].
  apply (empty_iff_no_highlight sample_options false).
  apply reachable_apply. apply reachable_enqueue; [|exact I].
  apply reachable_constructor.
Defined.

(** * Further properties *)

(** ** The loops of [add_queries_], continued *)

Lemma In_splice_in pos x m markers :
  In m (splice_in pos x markers) <-> m = x \/ In m markers.
Proof.
  unfold splice_in. rewrite in_app_iff. simpl.
  assert (In m markers <->
          In m (take (Z.to_nat pos) markers) \/ In m (drop (Z.to_nat pos) markers)) as H.
  { rewrite <- in_app_iff, take_drop. reflexivity. }
  rewrite H. split; [intros [H1|[H1|H1]]|intros [H1|[H1|H1]]]; auto.
Qed.

(** What one finder adds: the count moves by at most the number of hits
    that wrap and stays below the cap; every new entry belongs to [q]. *)
Lemma while_hits_bound q reserve hits :
  forall count st count' st',
    while_hits q reserve hits count st = (Ret count', st') ->
    count <= count' <= count + wrapped_hits hits /\
    (forall r, reserve = Some r -> count' <= Z.max count r) /\
    (forall m, In m (highlights st') ->
       In m (highlights st) \/ (m_query m = q /\ count <= m_index m <= count')) /\
    (forallb hit_sane hits = true ->
     forall m, In m (highlights st') ->
       In m (highlights st) \/
       (m_query m = q /\ count <= m_index m < count' /\ 0 <= m_offset m)).
Proof.
  induction hits as [|h rest IH]; intros count st count' st'.
  - simpl. unfold ret. intros [= <- <-]. simpl.
    split; [lia|]. split; [lia|]. split; auto.
  - simpl. destruct (reserve_exceeded reserve count) eqn:Hres.
    + unfold bind, console_error, modify, ret. intros [= <- <-]. simpl.
      pose proof (wrapped_hits_nonneg rest).
      split; [destruct (hit_wraps h); lia|]. split; [lia|]. split; auto.
    + unfold bind at 1. unfold gets at 1.
      destruct (splice_index_spec (highlights st) (hit_offset h))
        as (pos & Hpos & Hrange & _).
      rewrite Hpos. unfold bind at 1. unfold modify at 1.
      set (x := mkHMarker q count (hit_offset h)).
      set (st1 := set_highlights (splice_in pos x (highlights st)) st).
      assert (forall r, reserve = Some r -> count < r) as Hcap.
      { intros r ->. simpl in Hres. apply Z.leb_gt in Hres. exact Hres. }
      assert (forall m, In m (highlights st1) -> m = x \/ In m (highlights st)) as Hin1.
      { intros m Hm. apply In_splice_in in Hm. exact Hm. }
      destruct (hit_wraps h) eqn:Hw.
      * intros Heq. destruct (IH _ _ _ _ Heq) as (Hle & Hr & Hm & Hsane).
        split; [lia|]. split.
        { intros r Hrs. specialize (Hr r Hrs). specialize (Hcap r Hrs). lia. }
        split.
        -- intros m Hin. destruct (Hm m Hin) as [Hold|[Hq Hi]].
           ++ destruct (Hin1 m Hold) as [->|Hold']; [|left; exact Hold'].
              right. simpl. split; [reflexivity|lia].
           ++ right. split; [exact Hq|lia].
        -- unfold hit_sane at 1. rewrite Hw. simpl.
           intros Hall. apply andb_prop in Hall as [Hoff Hall].
           apply Z.leb_le in Hoff.
           intros m Hin. destruct (Hsane Hall m Hin) as [Hold|(Hq & Hi & Ho)].
           ++ destruct (Hin1 m Hold) as [->|Hold']; [|left; exact Hold'].
              right. simpl. split; [reflexivity|]. split; [lia|exact Hoff].
           ++ right. split; [exact Hq|]. split; [lia|exact Ho].
      * unfold bind at 1. unfold console_error at 1, modify at 1.
        intros Heq. destruct (IH _ _ _ _ Heq) as (Hle & Hr & Hm & _).
        split; [lia|]. split.
        { intros r Hrs. specialize (Hr r Hrs). lia. }
        split.
        -- intros m Hin. destruct (Hm m Hin) as [Hold|[Hq Hi]].
           ++ destruct (Hin1 m Hold) as [->|Hold']; [|left; exact Hold'].
              right. simpl. split; [reflexivity|lia].
           ++ right. split; [exact Hq|lia].
        -- unfold hit_sane at 1. rewrite Hw. simpl. discriminate.
Qed.

Lemma forEach_query_bound q reserve qs :
  forall count st count' st',
    forEach_query q reserve qs count st = (Ret count', st') ->
    count <= count' <= count + wrapped_queries qs /\
    (forall r, reserve = Some r -> count' <= Z.max count r) /\
    (forall m, In m (highlights st') ->
       In m (highlights st) \/ (m_query m = q /\ count <= m_index m <= count')) /\
    (forallb query_sane qs = true ->
     forall m, In m (highlights st') ->
       In m (highlights st) \/
       (m_query m = q /\ count <= m_index m < count' /\ 0 <= m_offset m)).
Proof.
  induction qs as [|i rest IH]; intros count st count' st'.
  - simpl. unfold ret. intros [= <- <-].
    split; [lia|]. split; [lia|]. split; auto.
  - simpl. destruct i as [|hits].
    + unfold bind at 1. unfold console_error at 1, modify at 1.
      intros Heq. destruct (IH _ _ _ _ Heq) as (Hle & Hr & Hm & Hsane).
      split; [lia|]. split; [exact Hr|]. split; [exact Hm|].
      simpl. exact Hsane.
    + unfold bind at 1.
      destruct (while_hits q reserve hits count st) as [[c1|e] st1] eqn:E1;
        [|discriminate].
      destruct (while_hits_bound _ _ _ _ _ _ _ E1) as (Hle1 & Hr1 & Hm1 & Hsane1).
      intros Heq. destruct (IH _ _ _ _ Heq) as (Hle & Hr & Hm & Hsane).
      split; [lia|]. split.
      { intros r Hrs. specialize (Hr r Hrs). specialize (Hr1 r Hrs). lia. }
      split.
      * intros m Hin. destruct (Hm m Hin) as [Hold|[Hq Hi]].
        -- destruct (Hm1 m Hold) as [Hold'|[Hq Hi]]; [left; exact Hold'|].
           right. split; [exact Hq|lia].
        -- right. split; [exact Hq|lia].
      * simpl. intros Hall. apply andb_prop in Hall as [Hh Hall].
        intros m Hin. destruct (Hsane Hall m Hin) as [Hold|(Hq & Hi & Ho)].
        -- destruct (Hsane1 Hh m Hold) as [Hold'|(Hq & Hi & Ho)]; [left; exact Hold'|].
           right. split; [exact Hq|]. split; [lia|exact Ho].
        -- right. split; [exact Hq|]. split; [lia|exact Ho].
Qed.

(** ** [add_queries_], continued *)

Lemma add_queries__result name q qs enabled st count st' :
  add_queries_ name q qs enabled st = (Ret count, st') ->
  exists markers' log,
    st' = after_add_queries q enabled count markers' log st /\
    0 <= count <= wrapped_queries qs /\
    (forall r, reserve_left (heap st !!! q) = Some r -> count <= Z.max 0 r) /\
    (reserve_left (heap st !!! q) = None -> count = wrapped_queries qs) /\
    drop_query q markers' = drop_query q (highlights st) /\
    (sorted_by_offset (highlights st) -> sorted_by_offset markers') /\
    (forall m, In m markers' ->
       In m (highlights st) \/ (m_query m = q /\ 0 <= m_index m <= count)) /\
    (forallb query_sane qs = true ->
     forall m, In m markers' ->
       In m (highlights st) \/
       (m_query m = q /\ 0 <= m_index m < count /\ 0 <= m_offset m)).
Proof.
  unfold add_queries_. unfold bind at 1. unfold deref at 1, gets at 1.
  fold (reserve_left (heap st !!! q)).
  unfold bind at 1.
  destruct (forEach_query_spec q (reserve_left (heap st !!! q)) qs 0 st)
    as (c & ms' & log & Heq & Hle & Hd & Hs & Hn & Hnone).
  pose proof (forEach_query_bound _ _ _ _ _ _ _ Heq) as (Hb & Hr & Hm & Hsane).
  rewrite Heq. intros H.
  assert (c = count /\ after_add_queries q enabled c ms' log st = st') as [-> <-].
  { unfold after_add_queries. unfold bind, update_q, modify, when, ret in H.
    destruct enabled; injection H as <- <-; split; reflexivity. }
  exists ms', log. split; [reflexivity|]. split; [lia|].
  split; [intros r Hrl; apply (Hr r Hrl)|]. split; [intros Hrl; rewrite (Hnone Hrl); lia|].
  split; [exact Hd|]. split; [exact Hs|]. split; [exact Hm|exact Hsane].
Qed.

Lemma add_queries__never_throws name q qs enabled st e st' :
  add_queries_ name q qs enabled st <> (Throw e, st').
Proof.
  destruct (add_queries__spec name q qs enabled st) as (c & ms & log & Heq & _).
  rewrite Heq. discriminate.
Qed.

(** ** The shape of the registry *)

Lemma shape_frame k st st' :
  shape_at k st ->
  queries st' = queries st -> next_ref st' = next_ref st ->
  highlights st' = highlights st ->
  s_queries (stats st') = s_queries (stats st) ->
  (forall q, q_reserve (heap st' !!! q) = q_reserve (heap st !!! q) /\
             q_length (heap st' !!! q) = q_length (heap st !!! q)) ->
  shape_at k st'.
Proof.
  intros [Hn Hr Ha Ho Hres Hq] Eq En Em Es Eh. constructor.
  - rewrite Eq. exact Hn.
  - rewrite Eq. exact Hr.
  - rewrite Eq, En. exact Ha.
  - rewrite Eq, Em. exact Ho.
  - intros q r. destruct (Eh q) as [-> ->]. apply Hres.
  - rewrite Eq, Es. exact Hq.
Qed.

Lemma length_delete_name name q qs :
  NoDup (map fst qs) -> lookup_name name qs = Some q ->
  Z.of_nat (length (delete_name name qs)) = Z.of_nat (length qs) - 1.
Proof.
  induction qs as [|[k r] l IH]; simpl; [discriminate|].
  intros Hnd. apply NoDup_cons in Hnd as [Hk Hnd].
  destruct (String.eqb_spec k name) as [->|Hne].
  - intros _.
    assert (delete_name name l = l) as ->; [|lia].
    clear -Hk. induction l as [|[k' r'] l IH]; simpl; [reflexivity|].
    destruct (String.eqb_spec k' name) as [->|Hne].
    + exfalso. apply Hk. simpl. left.
    + rewrite IH; [reflexivity|]. intros H. apply Hk. simpl. right. exact H.
  - intros H. simpl length. rewrite Nat2Z.inj_succ, (IH Hnd H). lia.
Qed.

Lemma shape_remove_ k name :
  triple (shape_at k) (remove_ name)
    (fun _ st => shape_at k st /\ lookup_name name (queries st) = None)
    (shape_at k).
Proof.
  intros st H. pose proof (remove__spec name st) as E.
  destruct (lookup_name name (queries st)) as [q|] eqn:Hq; rewrite E; [|exact H].
  destruct H as [Hn Hr Ha Ho Hres Hs].
  split; [|simpl; apply lookup_delete_name].
  constructor; simpl.
  - apply NoDup_fst_delete_name. exact Hn.
  - apply NoDup_snd_delete_name. exact Hr.
  - intros q' Hin. apply Ha.
    exact (proj1 (In_snd_delete_name_ne _ _ _ _ Hr Hq Hin)).
  - intros m Hm. apply In_drop_query in Hm as [Hm Hne].
    apply (In_snd_delete_name name q); auto.
  - exact Hres.
  - rewrite (length_delete_name _ _ _ Hn Hq). lia.
Qed.

Lemma shape_keeps_remove_ k name : keeps (shape_at k) (remove_ name).
Proof. eapply keeps_of_triple. apply shape_remove_. Qed.

Lemma shape_new_query_set k name enabled :
  triple (fun st => shape_at k st /\ lookup_name name (queries st) = None)
    (new_query_set name enabled)
    (fun q st => shape_at (k + 1) st /\ In q (map snd (queries st)) /\
                 q_length (heap st !!! q) = 0 /\ q_reserve (heap st !!! q) = None)
    (fun _ => False).
Proof.
  intros st [[Hn Hr Ha Ho Hres Hs] Hfresh]. unfold new_query_set.
  rewrite (assign_name_fresh _ _ _ Hfresh).
  assert (~ In (next_ref st) (map snd (queries st))) as Hnew.
  { intros Hin. specialize (Ha _ Hin). lia. }
  split; [|split; [|split]].
  - constructor; simpl.
    + rewrite map_app. simpl. apply NoDup_app. split; [exact Hn|].
      split; [|apply NoDup_singleton].
      intros x Hx Hx'. apply list_elem_of_In in Hx.
      apply list_elem_of_singleton in Hx'. subst x.
      exact (lookup_name_None _ _ Hfresh Hx).
    + rewrite map_app. simpl. apply NoDup_app. split; [exact Hr|].
      split; [|apply NoDup_singleton].
      intros r Hin Hin'. apply list_elem_of_In in Hin.
      apply list_elem_of_singleton in Hin'. subst r. contradiction.
    + intros q. rewrite map_app, in_app_iff. simpl.
      intros [Hin|[Heq|[]]]; [specialize (Ha _ Hin)|]; lia.
    + intros m Hm. rewrite map_app, in_app_iff. left. exact (Ho m Hm).
    + intros q r. rewrite lookup_total_insert.
      destruct (decide (next_ref st = q)); [discriminate|apply Hres].
    + rewrite length_app. simpl length. lia.
  - simpl. rewrite map_app, in_app_iff. right. left. reflexivity.
  - simpl. rewrite lookup_total_insert_eq. reflexivity.
  - simpl. rewrite lookup_total_insert_eq. reflexivity.
Qed.

Lemma reserve_left_Some d r :
  q_reserve d = Some r -> 1 <= r -> reserve_left d = Some (r - q_length d).
Proof.
  intros Hr H1. unfold reserve_left. rewrite Hr.
  destruct (Z.ltb_spec 0 r); [reflexivity|lia].
Qed.

Lemma shape_add_queries_ k name q qs enabled :
  triple (fun st => shape_at k st /\ In q (map snd (queries st)))
    (add_queries_ name q qs enabled)
    (fun count st' => shape_at k st' /\ 0 <= count)
    (fun _ => False).
Proof.
  intros st [[Hn Hr Ha Ho Hres Hs] Hq].
  destruct (add_queries_ name q qs enabled st) as [[count|e] st'] eqn:E;
    [|exact (add_queries__never_throws _ _ _ _ _ _ _ E)].
  destruct (add_queries__result _ _ _ _ _ _ _ E)
    as (ms' & log & -> & Hc & Hcap & _ & Hd & _ & Hm & _).
  assert (shape_at k
            (set_heap (<[q := set_q_length (q_length (heap st !!! q) + count) (heap st !!! q)]>
                         (heap st))
               (set_console (console st ++ log) (set_highlights ms' st)))) as Hinv.
  { constructor; simpl; auto.
    - intros m Hin. destruct (Hm m Hin) as [Hold|[-> _]]; [exact (Ho m Hold)|exact Hq].
    - intros q' r. rewrite lookup_total_insert.
      destruct (decide (q = q')) as [<-|Hne]; [|apply Hres].
      simpl. intros Hrs. destruct (Hres q r Hrs) as [H1 Hlen]. split; [exact H1|].
      specialize (Hcap (r - q_length (heap st !!! q)) (reserve_left_Some _ _ Hrs H1)).
      lia. }
  unfold after_add_queries.
  split; [|lia].
  destruct enabled; [|exact Hinv].
  apply (shape_frame _ _ _ Hinv); try reflexivity. intros q'. split; reflexivity.
Qed.

Lemma shape_keeps_add_queries_ k name q qs enabled :
  triple (fun st => shape_at k st /\ In q (map snd (queries st)))
    (add_queries_ name q qs enabled) (fun _ => shape_at k) (shape_at k).
Proof.
  eapply triple_weaken; [apply shape_add_queries_| | |].
  - intros st H. exact H.
  - intros a st [H _]. exact H.
  - intros st [].
Qed.

(** The descriptor an add has just created: its length is the count. *)
Lemma shape_add_queries_fresh k name q qs enabled :
  triple (fun st => shape_at k st /\ In q (map snd (queries st)) /\
                    q_length (heap st !!! q) = 0 /\ q_reserve (heap st !!! q) = None)
    (add_queries_ name q qs enabled)
    (fun count st' => shape_at k st' /\ 0 <= count /\
                      q_length (heap st' !!! q) = count)
    (fun _ => False).
Proof.
  intros st (Hshape & Hq & Hlen & Hres).
  pose proof (shape_add_queries_ k name q qs enabled st (conj Hshape Hq)) as H.
  destruct (add_queries_ name q qs enabled st) as [[count|e] st'] eqn:E; [|exact H].
  destruct H as (Hs' & Hc).
  split; [exact Hs'|]. split; [exact Hc|].
  destruct (add_queries__result _ _ _ _ _ _ _ E) as (ms' & log & -> & _).
  unfold after_add_queries. destruct enabled; simpl;
    rewrite lookup_total_insert_eq; simpl; lia.
Qed.

Lemma shape_update_q k q f :
  (forall d, q_length (f d) = q_length d /\ q_reserve (f d) = q_reserve d) ->
  keeps (shape_at k) (update_q q f).
Proof.
  intros Hf. apply keeps_modify. intros st H.
  apply (shape_frame k st); auto.
  intros q'. simpl. rewrite lookup_total_insert.
  destruct (decide (q = q')) as [->|]; [|split; reflexivity].
  destruct (Hf (heap st !!! q')) as [-> ->]. split; reflexivity.
Qed.

Lemma shape_modify_frame k (f : HH -> HH) :
  (forall st, queries (f st) = queries st /\ next_ref (f st) = next_ref st /\
              highlights (f st) = highlights st /\
              s_queries (stats (f st)) = s_queries (stats st) /\
              heap (f st) = heap st) ->
  keeps (shape_at k) (modify f).
Proof.
  intros Hf. apply keeps_modify. intros st H.
  destruct (Hf st) as (E1 & E2 & E3 & E4 & E5).
  apply (shape_frame k st); auto. intros q. rewrite E5. split; reflexivity.
Qed.

Lemma shape_console_error k msg : keeps (shape_at k) (console_error msg).
Proof. apply shape_modify_frame. intros st. repeat split. Qed.

Lemma shape_console_error_exn k msg x : keeps (shape_at k) (console_error_exn msg x).
Proof. apply shape_modify_frame. intros st. repeat split. Qed.

Lemma shape_advance_lastId k q reserve count :
  (forall r, reserve = Some r -> 1 <= r) ->
  triple (fun st => shape_at k st /\ 0 <= count /\ q_length (heap st !!! q) = count)
    (advance_lastId q reserve count) (fun _ => shape_at k) (fun _ => False).
Proof.
  intros Hr st (H & Hc & Hlen). unfold advance_lastId.
  destruct reserve as [r|].
  - specialize (Hr r eq_refl).
    destruct (Z.ltb_spec count r) as [Hlt|Hge];
      unfold bind, modify, console_error, update_q; simpl.
    + destruct H as [Hn Hrf Ha Ho Hres Hs]. constructor; simpl; auto.
      intros q' r'. rewrite lookup_total_insert.
      destruct (decide (q = q')) as [<-|Hne]; [|apply Hres].
      simpl. intros [= <-]. lia.
    + destruct H as [Hn Hrf Ha Ho Hres Hs]. constructor; simpl; auto.
      intros q' r'. rewrite lookup_total_insert.
      destruct (decide (q = q')) as [<-|Hne]; [|apply Hres].
      simpl. intros [= <-]. lia.
  - unfold modify. simpl. apply (shape_frame k st); auto.
Qed.

Lemma shape_next_highlight k : keeps (shape_at k) next_highlight.
Proof.
  intros st H. rewrite next_highlight_spec.
  apply (shape_frame k st); auto.
Qed.

Lemma shape_deferred_add_ name qa enabled reserve :
  keeps shape_inv (deferred_add_ name qa enabled reserve).
Proof.
  unfold shape_inv, deferred_add_, deferred_remove_.
  destruct qa as [|qs]; [apply keeps_throw|].
  set (reserve' := match reserve with
                   | Some r => if r <? 1 then None else Some r
                   | None => None
                   end).
  assert (forall r, reserve' = Some r -> 1 <= r) as Hres.
  { subst reserve'. intros r. destruct reserve as [r0|]; [|discriminate].
    destruct (Z.ltb_spec r0 1); [discriminate|]. intros [= <-]. exact H. }
  eapply triple_bind.
  { apply triple_gets with
      (Q := fun b st => shape_at 0 st /\ b = name_in name (queries st)).
    auto. }
  intros present. eapply triple_bind.
  { apply triple_when with
      (Q := fun _ st => shape_at 0 st /\ lookup_name name (queries st) = None).
    - intros _. eapply triple_weaken; [apply shape_remove_| | |].
      + intros st [H _]. exact H.
      + intros ? st H. exact H.
      + intros st H. exact H.
    - intros Hb st [H Hp]. split; [exact H|].
      rewrite Hb in Hp. unfold name_in in Hp.
      destruct (lookup_name name (queries st)); congruence. }
  intros ?. eapply triple_bind.
  { eapply triple_weaken; [apply shape_new_query_set| | |].
    - intros st H. exact H.
    - intros ? st H. exact H.
    - intros st []. }
  intros q. eapply triple_bind.
  { eapply triple_weaken; [apply (shape_add_queries_fresh (0 + 1))| | |].
    - intros st H. exact H.
    - intros ? st H. exact H.
    - intros st []. }
  intros count. simpl.
  eapply triple_bind.
  { eapply triple_weaken;
      [apply (shape_advance_lastId (0 + 1) q reserve' count Hres)| | |].
    - intros st (H & Hc & Hl). auto.
    - intros ? st H. exact H.
    - intros st []. }
  intros ?. eapply triple_bind.
  { apply triple_modify with (Q := fun _ => shape_at 0).
    intros st [Hn Hr Ha Ho Hrs Hs]. constructor; simpl; auto. lia. }
  intros ?. apply keeps_bind; [apply shape_next_highlight|].
  intros ?. apply keeps_debug_assert.
Qed.

Lemma shape_deferred_append_ name qa enabled :
  keeps shape_inv (deferred_append_ name qa enabled).
Proof.
  unfold shape_inv, deferred_append_.
  destruct qa as [|qs]; [apply keeps_throw|].
  eapply triple_bind.
  { apply triple_gets with
      (Q := fun registry st => shape_at 0 st /\ registry = queries st).
    auto. }
  intros registry. destruct (lookup_name name registry) as [q|] eqn:Hq.
  - apply triple_bind with (R := fun _ => shape_at 0).
    + eapply triple_weaken; [apply shape_keeps_add_queries_| | |].
      * intros st [H ->]. split; [exact H|].
        apply in_map_iff. exists (name, q). split; [reflexivity|].
        apply lookup_name_In. exact Hq.
      * intros ? st H. exact H.
      * intros st H. exact H.
    + intros ?. apply keeps_debug_assert.
  - apply triple_throw. tauto.
Qed.

Lemma shape_get_ k name : keeps (shape_at k) (get_ name).
Proof.
  unfold get_. apply keeps_bind; [apply keeps_gets|]. intros qs.
  destruct (lookup_name name qs); [apply keeps_ret|apply keeps_throw].
Qed.

Lemma shape_modify_total k (f : HH -> Z) :
  keeps (shape_at k) (modify (fun st => set_stats (set_s_total (f st) (stats st)) st)).
Proof. apply shape_modify_frame. intros st. repeat split. Qed.

Lemma shape_deferred_enable_ k name : keeps (shape_at k) (deferred_enable_ name).
Proof.
  unfold deferred_enable_, deref.
  apply keeps_bind; [apply shape_get_|]. intros q.
  apply keeps_bind; [apply keeps_gets|]. intros d.
  destruct (q_enabled d); [apply keeps_ret|].
  apply keeps_bind; [apply shape_update_q; intros; split; reflexivity|]. intros _.
  apply keeps_bind; [apply keeps_gets|]. intros d'.
  apply (shape_modify_total k (fun st => s_total (stats st) + q_length d')).
Qed.

Lemma shape_deferred_disable_ k name : keeps (shape_at k) (deferred_disable_ name).
Proof.
  unfold deferred_disable_, deref.
  apply keeps_bind; [apply shape_get_|]. intros q.
  apply keeps_bind; [apply keeps_gets|]. intros d.
  destruct (negb (q_enabled d)); [apply keeps_ret|].
  apply keeps_bind; [apply shape_update_q; intros; split; reflexivity|]. intros _.
  apply keeps_bind; [apply keeps_gets|]. intros d'.
  apply (shape_modify_total k (fun st => s_total (stats st) - q_length d')).
Qed.

Lemma shape_deferred_clear_ k reset : keeps (shape_at k) (deferred_clear_ reset).
Proof.
  unfold deferred_clear_.
  apply keeps_bind; [apply keeps_gets|]. intros keys.
  apply keeps_bind; [apply keeps_forEach_remove; intros; apply shape_keeps_remove_|].
  intros _.
  apply keeps_bind; [apply keeps_gets|]. intros registry.
  destruct registry; [|apply keeps_throw].
  apply keeps_when. apply keeps_bind.
  - apply shape_modify_frame. intros st. repeat split.
  - intros _. apply shape_modify_frame. intros st. repeat split.
Qed.

Lemma shape_run_action a : keeps shape_inv (run_action a).
Proof.
  destruct a; simpl.
  - apply shape_deferred_add_.
  - apply shape_deferred_append_.
  - apply shape_keeps_remove_.
  - apply shape_deferred_enable_.
  - apply shape_deferred_disable_.
  - apply shape_deferred_clear_.
Qed.

Lemma shape_apply_action a : keeps shape_inv (apply_action a).
Proof.
  unfold apply_action. apply keeps_try_catch; [apply shape_run_action|].
  intros e. apply shape_console_error_exn.
Qed.

Lemma shape_apply st : shape_inv st -> shape_inv (exec apply st).
Proof.
  intros H. unfold exec, apply, bind, gets.
  destruct (transaction st) as [|a rest] eqn:E.
  - simpl. apply (shape_frame 0 st); auto.
  - assert (keeps shape_inv (forEach_action (a :: rest))) as K.
    { apply keeps_forEach_action.
      - intros a' _. apply shape_run_action.
      - intros msg x. apply shape_console_error_exn. }
    specialize (K st H).
    destruct (forEach_action_returns (a :: rest) st) as [st' E'].
    rewrite E' in K |- *. simpl.
    apply (shape_frame 0 st'); auto.
Qed.

Lemma shape_reachable ok o dbg st : reachable_by ok o dbg st -> shape_inv st.
Proof.
  induction 1 as [|st a Hst IH Ha|st Hst IH|st a Hst IH Ha].
  - constructor; simpl; try (constructor; fail); try tauto.
    intros q r. rewrite lookup_total_empty. discriminate.
  - apply (shape_frame 0 st); auto.
  - apply shape_apply. exact IH.
  - exact (keeps_exec _ _ _ (shape_apply_action a) IH).
Qed.

(** ** Indices and offsets of the entries, when every hit is sane *)

Lemma triple_conj {A} (P P' : HH -> Prop) (c : M A) (Q Q' : A -> HH -> Prop)
    (E E' : HH -> Prop) :
  triple P c Q E -> triple P' c Q' E' ->
  triple (fun st => P st /\ P' st) c (fun a st => Q a st /\ Q' a st)
    (fun st => E st /\ E' st).
Proof.
  intros H H' st [HP HP']. specialize (H st HP). specialize (H' st HP').
  destruct (c st) as [[a|e] st']; split; assumption.
Qed.

Lemma hit_sane_wraps hits : forallb hit_sane hits = true -> forallb hit_wraps hits = true.
Proof.
  induction hits as [|h l IH]; simpl; [reflexivity|].
  unfold hit_sane at 1. intros H. apply andb_prop in H as [H1 H2].
  apply andb_prop in H1 as [-> _]. simpl. exact (IH H2).
Qed.

Lemma query_sane_wraps qs : forallb query_sane qs = true -> forallb query_wraps qs = true.
Proof.
  induction qs as [|i l IH]; simpl; [reflexivity|].
  intros H. apply andb_prop in H as [H1 H2]. rewrite (IH H2), andb_true_r.
  destruct i; simpl in *; [reflexivity|apply hit_sane_wraps; exact H1].
Qed.

Lemma action_sane_wraps a : action_sane a = true -> action_wraps a = true.
Proof.
  destruct a as [n [|qs] e r|n [|qs] e| | | |]; simpl; auto using query_sane_wraps.
Qed.

Lemma index_frame st st' :
  index_inv st -> highlights st' = highlights st ->
  (forall q, q_length (heap st' !!! q) = q_length (heap st !!! q)) ->
  index_inv st'.
Proof.
  intros H Em Eh m Hm. rewrite Em in Hm. rewrite Eh. exact (H m Hm).
Qed.

Lemma sane_frame st st' :
  sane_inv st ->
  queries st' = queries st -> next_ref st' = next_ref st ->
  highlights st' = highlights st ->
  (forall q, q_length (heap st' !!! q) = q_length (heap st !!! q)) ->
  sane_inv st'.
Proof.
  intros [Hm Hi] Eq En Em Eh. split.
  - apply (markers_inv_frame st); auto.
  - apply (index_frame st); auto.
Qed.

Lemma sane_modify_frame (f : HH -> HH) :
  (forall st, queries (f st) = queries st /\ next_ref (f st) = next_ref st /\
              highlights (f st) = highlights st /\ heap (f st) = heap st) ->
  keeps sane_inv (modify f).
Proof.
  intros Hf. apply keeps_modify. intros st H.
  destruct (Hf st) as (E1 & E2 & E3 & E4).
  apply (sane_frame st); auto. intros q. rewrite E4. reflexivity.
Qed.

Lemma sane_update_q q f :
  (forall d, q_length (f d) = q_length d) -> keeps sane_inv (update_q q f).
Proof.
  intros Hf. apply keeps_modify. intros st H.
  apply (sane_frame st); auto.
  intros q'. simpl. rewrite lookup_total_insert.
  destruct (decide (q = q')) as [->|]; [apply Hf|reflexivity].
Qed.

Lemma sane_remove_ name :
  triple sane_inv (remove_ name)
    (fun _ st => sane_inv st /\ lookup_name name (queries st) = None)
    sane_inv.
Proof.
  intros st [Hm Hi]. pose proof (markers_inv_remove_ name st Hm) as H.
  pose proof (remove__spec name st) as E.
  destruct (lookup_name name (queries st)) as [q|] eqn:Hq; rewrite E in H |- *.
  - destruct H as [H Hnone]. split; [|exact Hnone]. split; [exact H|].
    intros m Hin. simpl in Hin. apply In_drop_query in Hin as [Hin _].
    exact (Hi m Hin).
  - split; assumption.
Qed.

Lemma sane_keeps_remove_ name : keeps sane_inv (remove_ name).
Proof. eapply keeps_of_triple. apply sane_remove_. Qed.

Lemma sane_new_query_set name enabled :
  triple (fun st => sane_inv st /\ lookup_name name (queries st) = None)
    (new_query_set name enabled)
    (fun q st => sane_inv st /\ In q (map snd (queries st)))
    (fun _ => False).
Proof.
  intros st [[Hm Hi] Hfresh].
  pose proof (markers_inv_new_query_set name enabled st (conj Hm Hfresh)) as H.
  unfold new_query_set in *. destruct H as [H Hq].
  split; [|exact Hq]. split; [exact H|].
  intros m Hin. simpl in Hin. simpl.
  rewrite lookup_total_insert_ne; [exact (Hi m Hin)|].
  intros Heq. pose proof (inv_alloc _ Hm _ (inv_owner _ Hm m Hin)) as Hlt. lia.
Qed.

Lemma sane_add_queries_ name q qs enabled :
  forallb query_sane qs = true ->
  triple (fun st => sane_inv st /\ In q (map snd (queries st)))
    (add_queries_ name q qs enabled)
    (fun _ => sane_inv) (fun _ => False).
Proof.
  intros Hsane st [[Hm Hi] Hq].
  pose proof (markers_inv_add_queries_ name q qs enabled (query_sane_wraps _ Hsane)
                st (conj Hm Hq)) as H.
  destruct (add_queries_ name q qs enabled st) as [[count|e] st'] eqn:E;
    [|exact (add_queries__never_throws _ _ _ _ _ _ _ E)].
  split; [exact H|].
  destruct (add_queries__result _ _ _ _ _ _ _ E)
    as (ms' & log & -> & Hc & _ & _ & _ & _ & _ & Hnew).
  assert (0 <= q_length (heap st !!! q)) as Hlen.
  { rewrite <- (inv_count _ Hm q Hq). apply n_query_nonneg. }
  assert (forall m, In m ms' ->
            0 <= m_offset m /\
            m_index m <
              q_length (<[q := set_q_length (q_length (heap st !!! q) + count)
                                (heap st !!! q)]> (heap st) !!! m_query m)) as Hgoal.
  { intros m Hin. rewrite lookup_total_insert.
    destruct (Hnew Hsane m Hin) as [Hold|(Hmq & Hidx & Hoff)].
    - destruct (Hi m Hold) as [Ho Hix]. split; [exact Ho|].
      destruct (decide (q = m_query m)) as [Heq|Hne]; [|exact Hix].
      simpl. rewrite Heq. lia.
    - split; [exact Hoff|].
      destruct (decide (q = m_query m)) as [Heq|Hne]; [|congruence].
      simpl. lia. }
  unfold after_add_queries. destruct enabled; exact Hgoal.
Qed.

Lemma sane_advance_lastId q reserve count :
  keeps sane_inv (advance_lastId q reserve count).
Proof.
  unfold advance_lastId. destruct reserve as [r|].
  - destruct (count <? r).
    + apply keeps_bind; [|intros _; apply sane_update_q; reflexivity].
      apply sane_modify_frame. intros st. repeat split.
    + apply keeps_bind; [|intros _; apply sane_update_q; reflexivity].
      apply sane_modify_frame. intros st. repeat split.
  - apply sane_modify_frame. intros st. repeat split.
Qed.

Lemma sane_next_highlight : keeps sane_inv next_highlight.
Proof.
  intros st H. rewrite next_highlight_spec. apply (sane_frame st); auto.
Qed.

Lemma sane_deferred_add_ name qa enabled reserve :
  queries_sane qa = true ->
  keeps sane_inv (deferred_add_ name qa enabled reserve).
Proof.
  intros Hw. unfold deferred_add_, deferred_remove_.
  destruct qa as [|qs]; [apply keeps_throw|]. simpl in Hw.
  eapply triple_bind.
  { apply triple_gets with
      (Q := fun b st => sane_inv st /\ b = name_in name (queries st)).
    auto. }
  intros present. eapply triple_bind.
  { apply triple_when with
      (Q := fun _ st => sane_inv st /\ lookup_name name (queries st) = None).
    - intros _. eapply triple_weaken; [apply sane_remove_| | |].
      + intros st [H _]. exact H.
      + intros ? st H. exact H.
      + intros st H. exact H.
    - intros Hb st [H Hp]. split; [exact H|].
      rewrite Hb in Hp. unfold name_in in Hp.
      destruct (lookup_name name (queries st)); congruence. }
  intros ?. eapply triple_bind.
  { eapply triple_weaken; [apply sane_new_query_set| | |].
    - intros st H. exact H.
    - intros ? st H. exact H.
    - intros st []. }
  intros q. eapply triple_bind.
  { eapply triple_weaken; [apply (sane_add_queries_ name q qs enabled Hw)| | |].
    - intros st H. exact H.
    - intros ? st H. exact H.
    - intros st []. }
  intros count.
  apply keeps_bind; [apply sane_advance_lastId|]. intros _.
  apply keeps_bind; [apply sane_modify_frame; intros st; repeat split|]. intros _.
  apply keeps_bind; [apply sane_next_highlight|]. intros _.
  apply keeps_debug_assert.
Qed.

Lemma sane_deferred_append_ name qa enabled :
  queries_sane qa = true ->
  keeps sane_inv (deferred_append_ name qa enabled).
Proof.
  intros Hw. unfold deferred_append_.
  destruct qa as [|qs]; [apply keeps_throw|]. simpl in Hw.
  eapply triple_bind.
  { apply triple_gets with
      (Q := fun registry st => sane_inv st /\ registry = queries st).
    auto. }
  intros registry. destruct (lookup_name name registry) as [q|] eqn:Hq.
  - apply triple_bind with (R := fun _ => sane_inv).
    + eapply triple_weaken; [apply (sane_add_queries_ name q qs enabled Hw)| | |].
      * intros st [H ->]. split; [exact H|].
        apply in_map_iff. exists (name, q). split; [reflexivity|].
        apply lookup_name_In. exact Hq.
      * intros ? st H. exact H.
      * intros st [].
    + intros ?. apply keeps_debug_assert.
  - apply triple_throw. tauto.
Qed.

Lemma sane_get_ name : keeps sane_inv (get_ name).
Proof.
  unfold get_. apply keeps_bind; [apply keeps_gets|]. intros qs.
  destruct (lookup_name name qs); [apply keeps_ret|apply keeps_throw].
Qed.

Lemma sane_deferred_enable_ name : keeps sane_inv (deferred_enable_ name).
Proof.
  unfold deferred_enable_, deref.
  apply keeps_bind; [apply sane_get_|]. intros q.
  apply keeps_bind; [apply keeps_gets|]. intros d.
  destruct (q_enabled d); [apply keeps_ret|].
  apply keeps_bind; [apply sane_update_q; reflexivity|]. intros _.
  apply keeps_bind; [apply keeps_gets|]. intros d'.
  apply sane_modify_frame. intros st. repeat split.
Qed.

Lemma sane_deferred_disable_ name : keeps sane_inv (deferred_disable_ name).
Proof.
  unfold deferred_disable_, deref.
  apply keeps_bind; [apply sane_get_|]. intros q.
  apply keeps_bind; [apply keeps_gets|]. intros d.
  destruct (negb (q_enabled d)); [apply keeps_ret|].
  apply keeps_bind; [apply sane_update_q; reflexivity|]. intros _.
  apply keeps_bind; [apply keeps_gets|]. intros d'.
  apply sane_modify_frame. intros st. repeat split.
Qed.

Lemma sane_deferred_clear_ reset : keeps sane_inv (deferred_clear_ reset).
Proof.
  unfold deferred_clear_.
  apply keeps_bind; [apply keeps_gets|]. intros keys.
  apply keeps_bind; [apply keeps_forEach_remove, sane_keeps_remove_|]. intros _.
  apply keeps_bind; [apply keeps_gets|]. intros registry.
  destruct registry; [|apply keeps_throw].
  apply keeps_when. apply keeps_bind.
  - apply sane_modify_frame. intros st. repeat split.
  - intros _. apply sane_modify_frame. intros st. repeat split.
Qed.

Lemma sane_run_action a : action_sane a = true -> keeps sane_inv (run_action a).
Proof.
  destruct a; simpl; intros Hw.
  - apply sane_deferred_add_. exact Hw.
  - apply sane_deferred_append_. exact Hw.
  - apply sane_keeps_remove_.
  - apply sane_deferred_enable_.
  - apply sane_deferred_disable_.
  - apply sane_deferred_clear_.
Qed.

Lemma sane_apply_action a : action_sane a = true -> keeps sane_inv (apply_action a).
Proof.
  intros Hw. unfold apply_action.
  apply keeps_try_catch; [apply sane_run_action; exact Hw|].
  intros e. apply sane_modify_frame. intros st. repeat split.
Qed.

Lemma sane_reachable o dbg st :
  reachable_by (fun a => action_sane a = true) o dbg st ->
  sane_inv st /\ forallb action_sane (transaction st) = true.
Proof.
  induction 1 as [|st a Hst [Hinv Hw] Ha|st Hst [Hinv Hw]|st a Hst [Hinv Hw] Ha].
  - split; [|reflexivity]. split.
    + constructor; simpl; try (constructor; fail); tauto.
    + intros m [].
  - split.
    + apply (sane_frame st); auto.
    + simpl. rewrite forallb_app, Hw. simpl. rewrite Ha. reflexivity.
  - split; [|rewrite apply_transaction; reflexivity].
    unfold exec, apply, bind, gets. destruct (transaction st) as [|a rest] eqn:E.
    + simpl. apply (sane_frame st); auto.
    + assert (keeps sane_inv (forEach_action (a :: rest))) as K.
      { apply keeps_forEach_action.
        - intros a' Ha'. apply sane_run_action.
          rewrite forallb_forall in Hw. apply Hw. exact Ha'.
        - intros msg x. apply sane_modify_frame. intros s. repeat split. }
      specialize (K st Hinv).
      destruct (forEach_action_returns (a :: rest) st) as [st' E'].
      rewrite E' in K |- *. simpl. apply (sane_frame st'); auto.
  - split.
    + exact (keeps_exec _ _ _ (sane_apply_action a Ha) Hinv).
    + pose proof (registry_inv_reachable _ _ _ _ Hst) as R.
      pose proof (keeps_exec _ _ _ (registry_inv_apply_action o (transaction st) a) R) as K.
      rewrite (inv_transaction _ _ _ K). exact Hw.
Qed.

(** The loop of [assert_] over a sorted list whose entries pass its test. *)
Lemma assert_markers_ok h markers :
  forall c k,
    sorted_by_offset markers ->
    (forall m, In m markers -> c <= m_offset m /\ m_index m < q_length (h !!! m_query m)) ->
    assert_markers h markers c k = Ret (k + Z.of_nat (length markers)).
Proof.
  induction markers as [|m l IH]; intros c k Hs Hall.
  - simpl. f_equal. lia.
  - simpl assert_markers.
    destruct (Hall m (or_introl eq_refl)) as [Hc Hi].
    destruct (Z.ltb_spec (m_offset m) c) as [|_]; [lia|].
    destruct (Z.leb_spec (q_length (h !!! m_query m)) (m_index m)) as [|_]; [lia|].
    simpl. apply StronglySorted_inv in Hs as [Hs Hm].
    rewrite IH.
    + f_equal. simpl length. lia.
    + exact Hs.
    + intros m' Hin. split.
      * rewrite Forall_forall in Hm. apply Hm. apply list_elem_of_In. exact Hin.
      * exact (proj2 (Hall m' (or_intror Hin))).
Qed.

(** ** [deferred_add_] as a whole *)

Lemma remove_if_present_target name st :
  forall B (k : M B),
    (present <- gets (fun st => name_in name (queries st)) ;;
     when present (deferred_remove_ name) ;; k) st = k (add_target name st).
Proof.
  intros B k. unfold add_target, name_in, deferred_remove_.
  pose proof (remove__spec name st) as E.
  unfold bind at 1. unfold gets at 1.
  destruct (lookup_name name (queries st)) as [q|]; simpl.
  - unfold bind at 1. rewrite E. reflexivity.
  - reflexivity.
Qed.

Lemma lookup_add_target name st : lookup_name name (queries (add_target name st)) = None.
Proof.
  unfold add_target. destruct (lookup_name name (queries st)) eqn:E; [|exact E].
  simpl. apply lookup_delete_name.
Qed.

Lemma normal_reserve_ge1 reserve r : normal_reserve reserve = Some r -> 1 <= r.
Proof.
  unfold normal_reserve. destruct reserve as [r0|]; [|discriminate].
  destruct (Z.ltb_spec r0 1); [discriminate|]. intros [= <-]. assumption.
Qed.

(** Where an add that gets past its argument check leaves the instance. *)
Lemma deferred_add__spec name qs enabled reserve st :
  let st1 := add_target name st in
  let q := next_ref st1 in
  exists res st' markers',
    deferred_add_ name (QueriesArray qs) enabled reserve st = (res, st') /\
    (debug st = false -> res = Ret tt) /\
    queries st' = queries st1 ++ [(name, q)] /\
    next_ref st' = S q /\
    highlights st' = markers' /\
    drop_query q markers' = drop_query q (highlights st1) /\
    (forall m, In m markers' -> In m (highlights st1) \/ m_query m = q) /\
    heap st' !!! q =
      mkQuerySet name enabled (s_highlight (stats st)) (lastId st) (wrapped_queries qs)
        (match normal_reserve reserve with
         | Some r => Some (if wrapped_queries qs <? r then r else wrapped_queries qs)
         | None => None
         end) /\
    (forall q', q' <> q -> heap st' !!! q' = heap st !!! q') /\
    lastId st' =
      match normal_reserve reserve with
      | Some r => if wrapped_queries qs <? r then r else lastId st
      | None => lastId st + wrapped_queries qs
      end /\
    s_queries (stats st') = s_queries (stats st1) + 1 /\
    s_total (stats st') =
      s_total (stats st1) + (if enabled then wrapped_queries qs else 0) /\
    debug st' = debug st /\ options st' = options st /\
    transaction st' = transaction st.
Proof.
  intros st1 q. unfold deferred_add_. fold (normal_reserve reserve).
  rewrite remove_if_present_target. fold st1.
  assert (lastId st1 = lastId st /\ s_highlight (stats st1) = s_highlight (stats st) /\
          heap st1 = heap st /\ debug st1 = debug st /\ options st1 = options st /\
          transaction st1 = transaction st) as (El & Eh & Ehp & Ed & Eo & Et).
  { subst st1. unfold add_target. destruct (lookup_name name (queries st));
      repeat split. }
  pose proof (lookup_add_target name st) as Hfresh. fold st1 in Hfresh.
  unfold bind at 1. unfold new_query_set at 1.
  rewrite (assign_name_fresh _ _ _ Hfresh). fold q.
  set (d := mkQuerySet name enabled (s_highlight (stats st1)) (lastId st1) 0 None).
  set (st2 := set_queries _ _).
  unfold bind at 1.
  destruct (add_queries_ name q qs enabled st2) as [[count|e] st3] eqn:E3;
    [|exfalso; exact (add_queries__never_throws _ _ _ _ _ _ _ E3)].
  destruct (add_queries__result _ _ _ _ _ _ _ E3)
    as (ms' & log & -> & Hc & _ & Hcount & Hd & _ & Hm & _).
  assert (heap st2 !!! q = d) as Hq2 by (subst st2; simpl; apply lookup_total_insert_eq).
  assert (count = wrapped_queries qs) as ->.
  { apply Hcount. rewrite Hq2. reflexivity. }
  set (st3 := after_add_queries q enabled (wrapped_queries qs) ms' log st2).
  assert (heap st3 = <[q := set_q_length (0 + wrapped_queries qs) d]> (heap st2) /\
          queries st3 = queries st2 /\ next_ref st3 = next_ref st2 /\
          highlights st3 = ms' /\ lastId st3 = lastId st2 /\
          s_queries (stats st3) = s_queries (stats st2) /\
          s_total (stats st3) =
            s_total (stats st2) + (if enabled then wrapped_queries qs else 0) /\
          debug st3 = debug st2 /\ options st3 = options st2 /\
          transaction st3 = transaction st2)
    as (H3h & H3q & H3n & H3m & H3l & H3s & H3t & H3d & H3o & H3tr).
  { subst st3. unfold after_add_queries. rewrite Hq2.
    destruct enabled; simpl; repeat split; lia. }
  clearbody st3.
  unfold bind at 1.
  destruct (advance_lastId_returns q (normal_reserve reserve) (wrapped_queries qs) st3)
    as (st4 & E4 & Hs4 & Ho4).
  assert (heap st4 !!! q =
            mkQuerySet name enabled (s_highlight (stats st1)) (lastId st1)
              (wrapped_queries qs)
              (match normal_reserve reserve with
               | Some r => Some (if wrapped_queries qs <? r then r else wrapped_queries qs)
               | None => None
               end) /\
          (forall q', q' <> q -> heap st4 !!! q' = heap st3 !!! q') /\
          lastId st4 =
            match normal_reserve reserve with
            | Some r => if wrapped_queries qs <? r then r else lastId st3
            | None => lastId st3 + wrapped_queries qs
            end /\
          queries st4 = queries st3 /\ next_ref st4 = next_ref st3 /\
          highlights st4 = highlights st3 /\ debug st4 = debug st3 /\
          transaction st4 = transaction st3) as (H4q & H4o & H4l & H4qs & H4n & H4m & H4d & H4t).
  { revert E4. unfold advance_lastId.
    assert (heap st3 !!! q = set_q_length (wrapped_queries qs) d) as Hq3.
    { rewrite H3h, lookup_total_insert_eq. f_equal. }
    destruct (normal_reserve reserve) as [r|].
    - destruct (wrapped_queries qs <? r);
        unfold bind, modify, console_error, update_q; intros [= <-]; simpl;
        rewrite lookup_total_insert_eq, Hq3;
        (split; [reflexivity|]); (split; [|repeat split]);
        intros q' Hne; apply lookup_total_insert_ne; congruence.
    - unfold modify. intros [= <-]. simpl. rewrite Hq3.
      split; [reflexivity|]. repeat split. }
  rewrite E4. clear E4.
  assert (debug st2 = debug st1) as E2d by reflexivity.
  unfold bind at 1. unfold modify at 1.
  unfold bind at 1. rewrite next_highlight_spec.
  match goal with
  | |- context [debug_assert ?s] =>
      pose proof (debug_assert_state s) as Hdbg;
      assert (debug s = debug st) as Hdebug by (simpl; congruence);
      assert (debug st = false -> debug_assert s = (Ret tt, s)) as Hret;
      [intros Hoff; unfold debug_assert, bind, gets, when; rewrite Hdebug, Hoff; reflexivity|];
      destruct (debug_assert s) as [res st'] eqn:Edbg
  end.
  simpl in Hdbg. subst st'.
  exists res. eexists. exists ms'. split; [reflexivity|].
  split; [intros Hoff; specialize (Hret Hoff); congruence|].
  simpl.
  split; [rewrite H4qs, H3q; reflexivity|].
  split; [rewrite H4n, H3n; reflexivity|].
  split; [rewrite H4m, H3m; reflexivity|].
  split; [exact Hd|].
  split; [intros m Hin; destruct (Hm m Hin) as [Hold|[Hq _]]; [left; exact Hold|right; exact Hq]|].
  split; [rewrite H4q, Eh, El; reflexivity|].
  split.
  { intros q' Hne. rewrite (H4o q' Hne), H3h, lookup_total_insert_ne by congruence.
    subst st2. simpl. rewrite lookup_total_insert_ne by congruence.
    rewrite Ehp. reflexivity. }
  split; [rewrite H4l, H3l; subst st2; simpl; rewrite El; reflexivity|].
  split; [rewrite Hs4, H3s; reflexivity|].
  split; [rewrite Hs4, H3t; reflexivity|].
  split; [congruence|].
  split; [rewrite Ho4, H3o; subst st2; simpl; exact Eo|].
  rewrite H4t, H3tr. subst st2. simpl. exact Et.
Qed.

(** ** [deferred_enable_], [deferred_disable_], [deferred_append_], [deferred_clear_] *)

Lemma deferred_enable__spec name st :
  deferred_enable_ name st =
    match lookup_name name (queries st) with
    | None => (Throw (Error "Query set non-existent"), st)
    | Some q => (Ret tt, if q_enabled (heap st !!! q) then st else toggled q true st)
    end.
Proof.
  unfold deferred_enable_, get_, deref, bind, gets, throw, ret, toggled.
  destruct (lookup_name name (queries st)) as [q|]; [|reflexivity].
  destruct (q_enabled (heap st !!! q)); [reflexivity|].
  unfold update_q, modify. simpl. rewrite lookup_total_insert_eq. reflexivity.
Qed.

Lemma deferred_disable__spec name st :
  deferred_disable_ name st =
    match lookup_name name (queries st) with
    | None => (Throw (Error "Query set non-existent"), st)
    | Some q => (Ret tt, if q_enabled (heap st !!! q) then toggled q false st else st)
    end.
Proof.
  unfold deferred_disable_, get_, deref, bind, gets, throw, ret, toggled.
  destruct (lookup_name name (queries st)) as [q|]; [|reflexivity].
  destruct (q_enabled (heap st !!! q)); [|reflexivity].
  unfold update_q, modify. simpl. rewrite lookup_total_insert_eq. reflexivity.
Qed.

Lemma deferred_append__spec name qs enabled st :
  match lookup_name name (queries st) with
  | None =>
      deferred_append_ name (QueriesArray qs) enabled st =
        (Throw (Error "Invalid or query set not yet created"), st)
  | Some q =>
      exists res count markers' log,
        deferred_append_ name (QueriesArray qs) enabled st =
          (res, after_add_queries q enabled count markers' log st) /\
        add_queries_ name q qs enabled st =
          (Ret count, after_add_queries q enabled count markers' log st) /\
        (debug st = false -> res = Ret tt)
  end.
Proof.
  destruct (lookup_name name (queries st)) as [q|] eqn:Hq;
    unfold deferred_append_; unfold bind at 1; unfold gets at 1; rewrite Hq;
    [|reflexivity].
  destruct (add_queries__spec name q qs enabled st) as (count & ms' & log & Heq & _).
  unfold bind at 1. rewrite Heq.
  set (st' := after_add_queries q enabled count ms' log st).
  assert (debug st' = debug st) as Hd.
  { subst st'. unfold after_add_queries. destruct enabled; reflexivity. }
  pose proof (debug_assert_state st') as Hs.
  assert (debug st = false -> debug_assert st' = (Ret tt, st')) as Hret.
  { intros Hoff. unfold debug_assert, bind, gets, when. rewrite Hd, Hoff. reflexivity. }
  destruct (debug_assert st') as [res s] eqn:E. simpl in Hs. subst s.
  exists res, count, ms', log. split; [reflexivity|]. split; [reflexivity|].
  intros Hoff. specialize (Hret Hoff). congruence.
Qed.

Lemma delete_name_absent name qs :
  ~ In name (map fst qs) -> delete_name name qs = qs.
Proof.
  induction qs as [|[k r] l IH]; simpl; [reflexivity|].
  intros H. destruct (String.eqb_spec k name) as [->|Hne]; [tauto|].
  rewrite IH; [reflexivity|tauto].
Qed.

Lemma no_owner_no_marker st :
  shape_inv st -> queries st = [] -> highlights st = [].
Proof.
  intros H Hq. destruct (highlights st) as [|m l] eqn:E; [reflexivity|].
  exfalso. pose proof (shape_owner _ _ H m) as Ho.
  rewrite E, Hq in Ho. exact (Ho (or_introl eq_refl)).
Qed.

(** Removing the registered names one after the other removes them all. *)
Lemma forEach_remove_all n :
  forall st, shape_inv st -> length (queries st) = n ->
    exists st',
      forEach_remove (map fst (queries st)) st = (Ret tt, st') /\
      shape_inv st' /\ queries st' = [] /\
      lastId st' = lastId st /\ s_highlight (stats st') = s_highlight (stats st) /\
      console st' = console st /\ options st' = options st /\
      debug st' = debug st /\ transaction st' = transaction st.
Proof.
  induction n as [|n IH]; intros st Hshape Hlen.
  - destruct (queries st) as [|kq l] eqn:E; [|discriminate].
    exists st. split; [reflexivity|]. split; [exact Hshape|]. split; [exact E|].
    repeat split; reflexivity.
  - destruct (queries st) as [|[k q] l] eqn:E; [discriminate|].
    simpl map. simpl forEach_remove. unfold bind at 1.
    pose proof (remove__spec k st) as Hr. rewrite E in Hr. simpl in Hr.
    rewrite String.eqb_refl in Hr. rewrite Hr.
    pose proof (shape_keeps_remove_ 0 k st Hshape) as Hs1. rewrite Hr in Hs1.
    set (st1 := after_remove k q st) in *.
    assert (queries st1 = l) as Hq1.
    { subst st1. simpl. rewrite E. simpl. rewrite String.eqb_refl.
      apply delete_name_absent.
      pose proof (shape_names _ _ Hshape) as Hnd. rewrite E in Hnd. simpl in Hnd.
      apply NoDup_cons in Hnd as [Hk _]. intros Hin. apply Hk.
      apply list_elem_of_In. exact Hin. }
    destruct (IH st1 Hs1) as (st' & Heq & Hs' & Hq' & Hl & Hh & Hc & Ho & Hd & Ht).
    { rewrite Hq1. simpl in Hlen. lia. }
    rewrite Hq1 in Heq. exists st'. split; [exact Heq|].
    split; [exact Hs'|]. split; [exact Hq'|].
    assert (lastId st1 = lastId st /\ s_highlight (stats st1) = s_highlight (stats st) /\
            console st1 = console st /\ options st1 = options st /\
            debug st1 = debug st /\ transaction st1 = transaction st)
      as (E1 & E2 & E3 & E4 & E5 & E6) by (repeat split).
    repeat split; congruence.
Qed.

(** ** Entries of one descriptor *)

Lemma keep_query_drop_other q r markers :
  r <> q -> keep_query r (drop_query q markers) = keep_query r markers.
Proof.
  intros Hne. induction markers as [|m l IH]; simpl; [reflexivity|].
  destruct (Nat.eqb_spec (m_query m) q) as [Heq|Hq]; simpl.
  - destruct (Nat.eqb_spec (m_query m) r); [congruence|exact IH].
  - destruct (Nat.eqb_spec (m_query m) r); [f_equal|]; exact IH.
Qed.

Lemma keep_query_drop_eq q r l1 l2 :
  r <> q -> drop_query q l1 = drop_query q l2 -> keep_query r l1 = keep_query r l2.
Proof.
  intros Hne H. rewrite <- (keep_query_drop_other q r l1 Hne), H.
  apply keep_query_drop_other. exact Hne.
Qed.

Lemma drop_query_absent q markers :
  (forall m, In m markers -> m_query m <> q) -> drop_query q markers = markers.
Proof.
  induction markers as [|m l IH]; simpl; [reflexivity|].
  intros H. destruct (Nat.eqb_spec (m_query m) q) as [Heq|Hne].
  - exfalso. exact (H m (or_introl eq_refl) Heq).
  - f_equal. apply IH. intros m' Hm'. apply H. right. exact Hm'.
Qed.

Lemma lookup_delete_name_ne name k qs :
  k <> name -> lookup_name k (delete_name name qs) = lookup_name k qs.
Proof.
  intros Hne. induction qs as [|[k' r] l IH]; simpl; [reflexivity|].
  destruct (String.eqb_spec k' name) as [->|Hk]; simpl.
  - destruct (String.eqb_spec name k); [congruence|exact IH].
  - destruct (String.eqb_spec k' k); [reflexivity|exact IH].
Qed.

Lemma lookup_name_app_ne name k q qs :
  k <> name -> lookup_name k (qs ++ [(name, q)]) = lookup_name k qs.
Proof.
  intros Hne. induction qs as [|[k' r] l IH]; simpl.
  - destruct (String.eqb_spec name k); [congruence|reflexivity].
  - destruct (String.eqb_spec k' k); [reflexivity|exact IH].
Qed.

Lemma lookup_name_app_new name q qs :
  lookup_name name qs = None -> lookup_name name (qs ++ [(name, q)]) = Some q.
Proof.
  induction qs as [|[k' r] l IH]; simpl.
  - rewrite String.eqb_refl. reflexivity.
  - destruct (String.eqb_spec k' name); [discriminate|exact IH].
Qed.

Lemma lookup_name_ref q qs name :
  lookup_name name qs = Some q -> In q (map snd qs).
Proof.
  intros H. apply in_map_iff. exists (name, q). split; [reflexivity|].
  apply lookup_name_In. exact H.
Qed.

Lemma distinct_names_distinct_refs st n1 n2 q1 q2 :
  shape_inv st -> lookup_name n1 (queries st) = Some q1 ->
  lookup_name n2 (queries st) = Some q2 -> n1 <> n2 -> q1 <> q2.
Proof.
  intros H H1 H2 Hne ->. apply Hne.
  exact (NoDup_snd_key _ _ _ _ (shape_refs _ _ H) (lookup_name_In _ _ _ H1)
           (lookup_name_In _ _ _ H2)).
Qed.

Lemma deferred_clear__spec st reset :
  shape_inv st ->
  exists st',
    deferred_clear_ reset st = (Ret tt, st') /\
    queries st' = [] /\ highlights st' = [] /\ s_queries (stats st') = 0 /\
    lastId st' = (if reset then 0 else lastId st) /\
    s_highlight (stats st') = (if reset then 0 else s_highlight (stats st)).
Proof.
  intros Hshape.
  destruct (forEach_remove_all _ st Hshape eq_refl)
    as (st1 & Heq & Hs1 & Hq1 & Hl & Hh & _).
  pose proof (no_owner_no_marker _ Hs1 Hq1) as Hm1.
  pose proof (shape_queries _ _ Hs1) as Hn1. rewrite Hq1 in Hn1. simpl in Hn1.
  unfold deferred_clear_. unfold bind at 1. unfold gets at 1.
  unfold bind at 1. rewrite Heq.
  unfold bind at 1. unfold gets at 1. rewrite Hq1.
  destruct reset; unfold when, bind, modify, ret; eexists;
    (split; [reflexivity|]); simpl; repeat split; auto; lia.
Qed.

Lemma delete_name_app_new name q qs :
  lookup_name name qs = None -> delete_name name (qs ++ [(name, q)]) = qs.
Proof.
  induction qs as [|[k r] l IH]; simpl.
  - rewrite String.eqb_refl. reflexivity.
  - destruct (String.eqb_spec k name); [discriminate|].
    intros H. rewrite (IH H). reflexivity.
Qed.

Lemma add_target_fresh name st :
  lookup_name name (queries st) = None -> add_target name st = st.
Proof. intros H. unfold add_target. rewrite H. reflexivity. Qed.

Lemma add_target_present name q0 st :
  lookup_name name (queries st) = Some q0 -> add_target name st = after_remove name q0 st.
Proof. intros H. unfold add_target. rewrite H. reflexivity. Qed.

Lemma no_marker_of_unallocated st q :
  shape_inv st -> (next_ref st <= q)%nat ->
  forall m, In m (highlights st) -> m_query m <> q.
Proof.
  intros H Hq m Hm Heq.
  pose proof (shape_alloc _ _ H _ (shape_owner _ _ H m Hm)) as Hlt. lia.
Qed.

Lemma set_q_enabled_same d : set_q_enabled (q_enabled d) d = d.
Proof. destruct d. reflexivity. Qed.

(** ** The sum over the enabled sets *)

Lemma enabled_total_sum st : enabled_total st = enabled_sum (heap st) (queries st).
Proof. reflexivity. Qed.

Lemma enabled_sum_cons h k q qs :
  enabled_sum h ((k, q) :: qs) = counted (h !!! q) + enabled_sum h qs.
Proof.
  unfold enabled_sum. simpl. generalize (counted (h !!! q)). generalize 0.
  induction qs as [|[k' q'] l IH]; intros a b; simpl; [lia|].
  replace (a + b + counted (h !!! q')) with (a + counted (h !!! q') + b) by lia.
  apply IH.
Qed.

Lemma enabled_sum_app h qs k q :
  enabled_sum h (qs ++ [(k, q)]) = enabled_sum h qs + counted (h !!! q).
Proof.
  induction qs as [|[k' q'] l IH]; simpl.
  - rewrite enabled_sum_cons. unfold enabled_sum. simpl. lia.
  - rewrite !enabled_sum_cons, IH. lia.
Qed.

Lemma enabled_sum_agree h h' qs :
  (forall q, In q (map snd qs) -> counted (h' !!! q) = counted (h !!! q)) ->
  enabled_sum h' qs = enabled_sum h qs.
Proof.
  induction qs as [|[k q] l IH]; intros H; [reflexivity|].
  rewrite !enabled_sum_cons, IH.
  - rewrite (H q); [reflexivity|left; reflexivity].
  - intros q' Hin. apply H. right. exact Hin.
Qed.

Lemma enabled_sum_update h h' qs q :
  NoDup (map snd qs) -> In q (map snd qs) ->
  (forall q', q' <> q -> h' !!! q' = h !!! q') ->
  enabled_sum h' qs = enabled_sum h qs - counted (h !!! q) + counted (h' !!! q).
Proof.
  induction qs as [|[k r] l IH]; intros Hnd Hin Hother; [destruct Hin|].
  simpl in Hnd. apply NoDup_cons in Hnd as [Hr Hnd].
  rewrite !enabled_sum_cons.
  destruct (Nat.eq_dec r q) as [->|Hne].
  - rewrite (enabled_sum_agree h h' l); [lia|].
    intros q' Hq'. rewrite Hother; [reflexivity|].
    intros ->. apply Hr. apply list_elem_of_In. exact Hq'.
  - rewrite IH; [|exact Hnd| |exact Hother].
    + rewrite (Hother r Hne). lia.
    + destruct Hin as [Heq|Hin]; [simpl in Heq; congruence|exact Hin].
Qed.

Lemma enabled_sum_delete h name q qs :
  NoDup (map fst qs) -> lookup_name name qs = Some q ->
  enabled_sum h (delete_name name qs) = enabled_sum h qs - counted (h !!! q).
Proof.
  induction qs as [|[k r] l IH]; simpl; [discriminate|].
  intros Hnd. apply NoDup_cons in Hnd as [Hk Hnd].
  destruct (String.eqb_spec k name) as [->|Hne].
  - intros [= ->]. rewrite enabled_sum_cons, delete_name_absent; [lia|].
    intros Hin. apply Hk. apply list_elem_of_In. exact Hin.
  - intros H. rewrite !enabled_sum_cons, (IH Hnd H). lia.
Qed.

(** ** Nodes of a selection *)



(** ** Invariants of the reachable states, in general *)

Lemma keeps_conj_shape (I : HH -> Prop) (c : M unit) :
  keeps shape_inv c ->
  (forall st, shape_inv st -> I st -> I (exec c st)) ->
  keeps (fun st => shape_inv st /\ I st) c.
Proof.
  intros Hs HI st [Hshape Hst].
  specialize (Hs st Hshape). specialize (HI st Hshape Hst). unfold exec in HI.
  destruct (c st) as [[a|e] st']; split; assumption.
Qed.

(** A property of the registry that holds of the new instance, that no
    operation satisfying [okb] breaks, and that depends on the registry only,
    holds in every state reachable with such operations. *)
Lemma reachable_registry_invariant (okb : Action -> bool) (I : HH -> Prop) o dbg :
  I (constructor o dbg) ->
  (forall st st', registry_eq st st' -> I st -> I st') ->
  (forall a st, okb a = true -> shape_inv st -> registry_inv o (transaction st) st ->
                I st -> I (exec (run_action a) st)) ->
  forall st, reachable_by (fun a => okb a = true) o dbg st -> I st.
Proof.
  intros Hinit Hframe Hstep.
  assert (forall a t, okb a = true ->
            keeps (fun st => (shape_inv st /\ registry_inv o t st) /\ I st) (run_action a))
    as Hrun.
  { intros a t Ha st [[Hshape Hreg] Hst].
    pose proof (shape_run_action a st Hshape) as H1.
    pose proof (registry_inv_run_action o t a st Hreg) as H2.
    pose proof (inv_transaction _ _ _ Hreg) as Et.
    subst t.
    pose proof (Hstep a st Ha Hshape Hreg Hst) as H3. unfold exec in H3.
    destruct (run_action a st) as [[u|e] st']; simpl in *; (split; [split|]); assumption. }
  assert (forall msg x t,
            keeps (fun st => (shape_inv st /\ registry_inv o t st) /\ I st)
              (console_error_exn msg x)) as Hlog.
  { intros msg x t. apply keeps_modify. intros st [[Hshape Hreg] Hst].
    split; [split|].
    - apply (shape_frame 0 st); auto.
    - apply (registry_inv_frame o t st); auto.
    - apply (Hframe st); [repeat split|exact Hst]. }
  assert (forall st, reachable_by (fun a => okb a = true) o dbg st ->
            I st /\ forallb okb (transaction st) = true) as Hall;
    [|intros st H; exact (proj1 (Hall st H))].
  induction 1 as [|st a Hst [Hinv Hw] Ha|st Hst [Hinv Hw]|st a Hst [Hinv Hw] Ha].
  - split; [exact Hinit|reflexivity].
  - split.
    + apply (Hframe st); [repeat split|exact Hinv].
    + simpl. rewrite forallb_app, Hw. simpl. rewrite Ha. reflexivity.
  - split; [|rewrite apply_transaction; reflexivity].
    pose proof (shape_reachable _ _ _ _ Hst) as Hshape.
    pose proof (registry_inv_reachable _ _ _ _ Hst) as Hreg.
    unfold exec, apply, bind, gets. destruct (transaction st) as [|a rest] eqn:E.
    + simpl. apply (Hframe st); [repeat split|exact Hinv].
    + assert (keeps (fun st0 => (shape_inv st0 /\ registry_inv o (a :: rest) st0) /\ I st0)
                (forEach_action (a :: rest))) as K.
      { apply keeps_forEach_action.
        - intros a' Ha'. apply Hrun.
          rewrite forallb_forall in Hw. apply Hw. exact Ha'.
        - intros msg x. apply Hlog. }
      specialize (K st (conj (conj Hshape Hreg) Hinv)).
      destruct (forEach_action_returns (a :: rest) st) as [st' E'].
      rewrite E' in K |- *. simpl. destruct K as [_ K].
      apply (Hframe st'); [repeat split|exact K].
  - pose proof (shape_reachable _ _ _ _ Hst) as Hshape.
    pose proof (registry_inv_reachable _ _ _ _ Hst) as Hreg.
    assert (keeps (fun st0 => (shape_inv st0 /\ registry_inv o (transaction st) st0) /\ I st0)
              (apply_action a)) as K.
    { unfold apply_action. apply keeps_try_catch; [apply Hrun; exact Ha|].
      intros e. apply Hlog. }
    pose proof (keeps_exec _ _ _ K (conj (conj Hshape Hreg) Hinv)) as [[_ Hreg'] Hst'].
    split; [exact Hst'|].
    rewrite (inv_transaction _ _ _ Hreg'). exact Hw.
Qed.

(** ** Highlight ids and CSS variants of the registered sets *)

Lemma In_snd_app_new (qs : list (string * nat)) name q q' :
  In q' (map snd (qs ++ [(name, q)])) <-> In q' (map snd qs) \/ q' = q.
Proof.
  rewrite map_app, in_app_iff. simpl. split; [intros [H|[H|[]]]|intros [H|H]]; auto.
Qed.

Lemma add_target_refs name st q :
  shape_inv st -> In q (map snd (queries (add_target name st))) ->
  In q (map snd (queries st)).
Proof.
  intros Hshape. unfold add_target.
  destruct (lookup_name name (queries st)) as [q0|] eqn:E; [|auto].
  simpl. intros Hin.
  exact (proj1 (In_snd_delete_name_ne _ _ _ _ (shape_refs _ _ Hshape) E Hin)).
Qed.

Lemma add_target_next_ref name st : next_ref (add_target name st) = next_ref st.
Proof. unfold add_target. destruct (lookup_name name (queries st)); reflexivity. Qed.

Lemma toggled_fields q b st q' :
  q_id (heap (toggled q b st) !!! q') = q_id (heap st !!! q') /\
  q_length (heap (toggled q b st) !!! q') = q_length (heap st !!! q') /\
  q_id_highlight (heap (toggled q b st) !!! q') = q_id_highlight (heap st !!! q').
Proof.
  unfold toggled. simpl. rewrite lookup_total_insert.
  destruct (decide (q = q')) as [->|]; repeat split.
Qed.

(** A property of the descriptors of the registered sets goes from a state
    to one with fewer sets and the same store. *)
Lemma ids_inv_subset st st' :
  ids_inv st ->
  (forall q, In q (map snd (queries st')) -> In q (map snd (queries st))) ->
  (forall q, q_id (heap st' !!! q) = q_id (heap st !!! q) /\
             q_length (heap st' !!! q) = q_length (heap st !!! q)) ->
  lastId st' = lastId st ->
  ids_inv st'.
Proof.
  intros [H1 H2] Hsub Hheap Hl. split.
  - intros q Hq. destruct (Hheap q) as [-> ->]. rewrite Hl. apply H1, Hsub, Hq.
  - intros q1 q2 Hq1 Hq2 Hne.
    destruct (Hheap q1) as [-> ->]. destruct (Hheap q2) as [-> ->].
    apply H2; auto.
Qed.

Lemma ids_step a st :
  action_plain a = true -> shape_inv st -> ids_inv st ->
  ids_inv (exec (run_action a) st).
Proof.
  intros Hplain Hshape Hids.
  assert (forall s, exec (run_action a) st = s -> ids_inv s) as Hgoal;
    [|exact (Hgoal _ eq_refl)].
  intros s Hs. unfold exec in Hs.
  destruct a as [name [|qs] enabled reserve|name qa enabled|name|name|name|reset];
    simpl in Hplain; try discriminate; unfold run_action in Hs.
  - simpl in Hs. subst s. exact Hids.
  - destruct (normal_reserve reserve) as [r|] eqn:Hres; [discriminate|].
    destruct (deferred_add__spec name qs enabled reserve st)
      as (res & sa & ms & Heq & _ & Hq & _ & _ & _ & _ & Hh & Hother & Hl & _).
    rewrite Heq in Hs. simpl in Hs. subst sa. rewrite Hres in Hh, Hl.
    rewrite add_target_next_ref in *.
    pose proof (wrapped_queries_nonneg qs) as Hw.
    destruct Hids as [H1 H2].
    assert (forall q, In q (map snd (queries (add_target name st))) ->
              In q (map snd (queries st)) /\ q <> next_ref st /\
              heap s !!! q = heap st !!! q) as Hold.
    { intros q Hin. pose proof (add_target_refs _ _ _ Hshape Hin) as Hin'.
      pose proof (shape_alloc _ _ Hshape _ Hin'). split; [exact Hin'|].
      split; [lia|]. apply Hother. lia. }
    split.
    + intros q Hin. rewrite Hq in Hin. apply In_snd_app_new in Hin as [Hin| ->].
      * destruct (Hold q Hin) as (Hin' & _ & ->). specialize (H1 q Hin'). lia.
      * rewrite Hh. simpl. lia.
    + intros q1 q2 Hin1 Hin2 Hne. rewrite Hq in Hin1, Hin2.
      apply In_snd_app_new in Hin1 as [Hin1| ->];
        apply In_snd_app_new in Hin2 as [Hin2| ->].
      * destruct (Hold q1 Hin1) as (Hin1' & _ & ->).
        destruct (Hold q2 Hin2) as (Hin2' & _ & ->). apply H2; auto.
      * destruct (Hold q1 Hin1) as (Hin1' & _ & ->). rewrite Hh. simpl.
        left. apply H1. exact Hin1'.
      * destruct (Hold q2 Hin2) as (Hin2' & _ & ->). rewrite Hh. simpl.
        right. apply H1. exact Hin2'.
      * congruence.
  - unfold deferred_remove_ in Hs. pose proof (remove__spec name st) as E.
    destruct (lookup_name name (queries st)) as [q0|] eqn:E0;
      rewrite E in Hs; simpl in Hs; subst s; [|exact Hids].
    apply (ids_inv_subset st); [exact Hids| |intros q; split; reflexivity|reflexivity].
    intros q Hin. simpl in Hin.
    exact (proj1 (In_snd_delete_name_ne _ _ _ _ (shape_refs _ _ Hshape) E0 Hin)).
  - rewrite deferred_enable__spec in Hs.
    destruct (lookup_name name (queries st)) as [q0|]; simpl in Hs; subst s;
      [|exact Hids].
    destruct (q_enabled (heap st !!! q0)); [exact Hids|].
    apply (ids_inv_subset st); [exact Hids|auto| |reflexivity].
    intros q. destruct (toggled_fields q0 true st q) as (E1 & E2 & _). auto.
  - rewrite deferred_disable__spec in Hs.
    destruct (lookup_name name (queries st)) as [q0|]; simpl in Hs; subst s;
      [|exact Hids].
    destruct (q_enabled (heap st !!! q0)); [|exact Hids].
    apply (ids_inv_subset st); [exact Hids|auto| |reflexivity].
    intros q. destruct (toggled_fields q0 false st q) as (E1 & E2 & _). auto.
  - destruct (deferred_clear__spec st reset Hshape) as (s' & Heq & Hq & _).
    rewrite Heq in Hs. simpl in Hs. subst s'.
    split; [intros q Hin|intros q1 q2 Hin]; rewrite Hq in Hin; destruct Hin.
Qed.

Lemma variants_step o a st :
  shape_inv st -> registry_inv o (transaction st) st ->
  (1 <= maxHighlight (options st) -> variants_inv st) ->
  1 <= maxHighlight (options (exec (run_action a) st)) ->
  variants_inv (exec (run_action a) st).
Proof.
  intros Hshape Hreg Hvar.
  pose proof (keeps_exec _ _ _ (registry_inv_run_action o (transaction st) a) Hreg) as Hreg'.
  assert (options (exec (run_action a) st) = options st) as Eo.
  { rewrite (inv_options _ _ _ Hreg'), (inv_options _ _ _ Hreg). reflexivity. }
  rewrite Eo. intros Hmax. specialize (Hvar Hmax).
  pose proof (inv_highlight _ _ _ Hreg Hmax) as Hh.
  assert (forall s, exec (run_action a) st = s -> options s = options st ->
            variants_inv s) as Hgoal; [|exact (Hgoal _ eq_refl Eo)].
  clear Eo Hreg'. intros s Hs Eo. unfold variants_inv. rewrite Eo. unfold exec in Hs.
  destruct a as [name [|qs] enabled reserve|name [|qs] enabled|name|name|name|reset];
    unfold run_action in Hs.
  - simpl in Hs. subst s. exact Hvar.
  - destruct (deferred_add__spec name qs enabled reserve st)
      as (res & sa & ms & Heq & _ & Hq & _ & _ & _ & _ & Hhp & Hother & _).
    rewrite Heq in Hs. simpl in Hs. subst sa.
    rewrite add_target_next_ref in *.
    intros q Hin. rewrite Hq in Hin. apply In_snd_app_new in Hin as [Hin| ->].
    + pose proof (add_target_refs _ _ _ Hshape Hin) as Hin'.
      pose proof (shape_alloc _ _ Hshape _ Hin').
      rewrite Hother by lia. exact (Hvar q Hin').
    + rewrite Hhp. simpl. exact Hh.
  - simpl in Hs. subst s. exact Hvar.
  - pose proof (deferred_append__spec name qs enabled st) as E.
    destruct (lookup_name name (queries st)) as [q0|] eqn:E0.
    + destruct E as (res & count & ms & log & Heq & _ & _).
      rewrite Heq in Hs. simpl in Hs. subst s.
      intros q Hin.
      assert (In q (map snd (queries st))) as Hin'
        by (revert Hin; unfold after_add_queries; destruct enabled; auto).
      specialize (Hvar q Hin').
      unfold after_add_queries. destruct enabled; simpl;
        rewrite lookup_total_insert; destruct (decide (q0 = q)) as [->|]; exact Hvar.
    + rewrite E in Hs. simpl in Hs. subst s. exact Hvar.
  - unfold deferred_remove_ in Hs. pose proof (remove__spec name st) as E.
    destruct (lookup_name name (queries st)) as [q0|] eqn:E0;
      rewrite E in Hs; simpl in Hs; subst s; [|exact Hvar].
    intros q Hin. simpl in Hin. simpl. apply Hvar.
    exact (proj1 (In_snd_delete_name_ne _ _ _ _ (shape_refs _ _ Hshape) E0 Hin)).
  - rewrite deferred_enable__spec in Hs.
    destruct (lookup_name name (queries st)) as [q0|]; simpl in Hs; subst s;
      [|exact Hvar].
    destruct (q_enabled (heap st !!! q0)); [exact Hvar|].
    intros q Hin. destruct (toggled_fields q0 true st q) as (_ & _ & ->).
    exact (Hvar q Hin).
  - rewrite deferred_disable__spec in Hs.
    destruct (lookup_name name (queries st)) as [q0|]; simpl in Hs; subst s;
      [|exact Hvar].
    destruct (q_enabled (heap st !!! q0)); [|exact Hvar].
    intros q Hin. destruct (toggled_fields q0 false st q) as (_ & _ & ->).
    exact (Hvar q Hin).
  - destruct (deferred_clear__spec st reset Hshape) as (s' & Heq & Hq & _).
    rewrite Heq in Hs. simpl in Hs. subst s'.
    intros q Hin. rewrite Hq in Hin. destruct Hin.
Qed.

Lemma ids_reachable o dbg st :
  reachable_by (fun a => action_plain a = true) o dbg st -> ids_inv st.
Proof.
  apply (reachable_registry_invariant action_plain ids_inv).
  - split; [intros q []|intros q1 q2 []].
  - intros s s' (_ & Eh & _ & Eq & _ & El & _) [H1 H2].
    unfold ids_inv. rewrite Eh, Eq, El. split; assumption.
  - intros a s Ha Hshape _ Hids. exact (ids_step a s Ha Hshape Hids).
Qed.

Lemma variants_reachable o dbg st :
  reachable_by (fun a => true = true) o dbg st ->
  1 <= maxHighlight (options st) -> variants_inv st.
Proof.
  apply (reachable_registry_invariant (fun _ => true)
           (fun st => 1 <= maxHighlight (options st) -> variants_inv st)).
  - intros _ q [].
  - intros s s' (Eo & Eh & _ & Eq & _) H. unfold variants_inv.
    rewrite Eo, Eh, Eq. exact H.
  - intros a s _ Hshape Hreg Hvar. exact (variants_step o a s Hshape Hreg Hvar).
Qed.

(** * Further properties of the registry *)

(** ** [add_queries_] *)

(** X1.  [add_queries_] always returns: failures to build a finder and
    failures to wrap are absorbed, and the binary search never reads outside
    the marker list.  The count it returns is at most the number of hits
    whose wrap succeeded, is that number when the set has no reserve, and
    does not exceed what is left of a reserve; the length of the set grows
    by the count, [stats.total] grows by it when [enabled] is set, and the
    registry and [lastId] are left alone. *)
Theorem add_queries_returns name q qs enabled st :
  exists count st',
    add_queries_ name q qs enabled st = (Ret count, st') /\
    0 <= count <= wrapped_queries qs /\
    (forall r, reserve_left (heap st !!! q) = Some r -> count <= Z.max 0 r) /\
    (reserve_left (heap st !!! q) = None -> count = wrapped_queries qs) /\
    q_length (heap st' !!! q) = q_length (heap st !!! q) + count /\
    s_total (stats st') = s_total (stats st) + (if enabled then count else 0) /\
    queries st' = queries st /\ lastId st' = lastId st.
Proof.
  destruct (add_queries_ name q qs enabled st) as [[count|e] st'] eqn:E;
    [|exfalso; exact (add_queries__never_throws _ _ _ _ _ _ _ E)].
  destruct (add_queries__result _ _ _ _ _ _ _ E)
    as (ms' & log & -> & Hc & Hcap & Hnone & _).
  exists count. eexists. split; [reflexivity|].
  split; [exact Hc|]. split; [exact Hcap|]. split; [exact Hnone|].
  unfold after_add_queries. destruct enabled; simpl;
    rewrite lookup_total_insert_eq; simpl; repeat split; lia.
Qed.

(** ** The shape of the registry *)

(** X2.  In every state the highlighter can be brought to with query sets
    of plain names, [stats.queries] is the number of registered query
    sets. *)
Theorem stats_queries_counts_sets o dbg st :
  reachable_by (fun a => plain_names a = true) o dbg st ->
  s_queries (stats st) = Z.of_nat (length (queries st)).
Proof.
  intros H. pose proof (shape_queries _ _ (shape_reachable _ _ _ _ H)) as E. lia.
Qed.

Lemma stats_queries_counts_sets_witness :
  let st := session [ActAdd "a" (hits_at [3]) true None;
                     ActAdd "b" (hits_at [4]) true None;
                     ActAdd "a" (hits_at [5; 6]) true None;
                     ActRemove "b"; ActRemove "b"] fresh in
  s_queries (stats st) = Z.of_nat (length (queries st)).
Proof.
  apply (stats_queries_counts_sets sample_options false).
  apply reachable_apply.
  repeat (apply reachable_enqueue; [|reflexivity]).
  apply reachable_constructor.
Defined.

(** X3.  A query set with a reserve never holds more highlights than its
    reserve, whatever is added or appended to it, and the reserve is at
    least 1. *)
Theorem reserve_never_exceeded ok o dbg st name q r :
  reachable_by ok o dbg st ->
  lookup_name name (queries st) = Some q ->
  q_reserve (heap st !!! q) = Some r ->
  1 <= r /\ 0 <= q_length (heap st !!! q) <= r.
Proof.
  intros H _ Hr.
  destruct (shape_reserve _ _ (shape_reachable _ _ _ _ H) q r Hr) as [H1 H2].
  pose proof (inv_lengths _ _ _ (registry_inv_reachable _ _ _ _ H) q). lia.
Qed.

(** Two hits under a reserve of 4, then four more appended: the set holds 4. *)
Lemma reserve_never_exceeded_witness :
  let st := session [ActAdd "a" (hits_at [3; 5]) true (Some 4);
                     ActAppend "a" (hits_at [1; 2; 7; 8]) true] fresh in
  1 <= 4 /\ 0 <= q_length (heap st !!! 0%nat) <= 4.
Proof.
  apply (reserve_never_exceeded (fun _ => True) sample_options false _ "a").
  - apply reachable_apply.
    repeat (apply reachable_enqueue; [|exact I]).
    apply reachable_constructor.
  - reflexivity.
  - reflexivity.
Defined.

(** ** [deferred_clear_] *)

(** X4.  From every state the highlighter can be brought to with query sets
    of plain names, [deferred_clear_] returns, never throwing "Query set
    object not empty", and leaves no query set, no entry in the marker list
    and [stats.queries] at 0; [lastId] and [stats.highlight] are zeroed
    exactly when [reset] is set. *)
Theorem clear_empties_registry o dbg st reset :
  reachable_by (fun a => plain_names a = true) o dbg st ->
  exists st',
    deferred_clear_ reset st = (Ret tt, st') /\
    queries st' = [] /\ highlights st' = [] /\ s_queries (stats st') = 0 /\
    lastId st' = (if reset then 0 else lastId st) /\
    s_highlight (stats st') = (if reset then 0 else s_highlight (stats st)).
Proof.
  intros H. apply deferred_clear__spec. exact (shape_reachable _ _ _ _ H).
Qed.

Lemma clear_empties_registry_witness :
  let st := session [ActAdd "a" (QueriesArray [Finder [hit 3; failing_hit 4]]) true None;
                     ActAdd "b" (hits_at [5]) false (Some 3)] fresh in
  exists st',
    deferred_clear_ true st = (Ret tt, st') /\
    queries st' = [] /\ highlights st' = [] /\ s_queries (stats st') = 0 /\
    lastId st' = 0 /\ s_highlight (stats st') = 0.
Proof.
  apply (clear_empties_registry sample_options false _ true).
  apply reachable_apply.
  repeat (apply reachable_enqueue; [|reflexivity]).
  apply reachable_constructor.
Defined.

(** ** Operations that throw *)

(** X5.  A plain name that is not registered, in a state the highlighter
    can be brought to with query sets of plain names: [remove], [enable],
    [disable] and [lastIdOf] throw "Query set non-existent", [append] throws
    "Invalid or query set not yet created", and none of them changes
    anything. *)
Theorem missing_name_throws o dbg name st :
  reachable_by (fun a => plain_names a = true) o dbg st ->
  plain_name name = true ->
  lookup_name name (queries st) = None ->
  remove_ name st = (Throw (Error "Query set non-existent"), st) /\
  deferred_enable_ name st = (Throw (Error "Query set non-existent"), st) /\
  deferred_disable_ name st = (Throw (Error "Query set non-existent"), st) /\
  lastIdOf name st = (Throw (Error "Query set non-existent"), st) /\
  forall qs enabled,
    deferred_append_ name (QueriesArray qs) enabled st =
      (Throw (Error "Invalid or query set not yet created"), st).
Proof.
  intros _ _ H.
  pose proof (remove__spec name st) as E1.
  pose proof (deferred_enable__spec name st) as E2.
  pose proof (deferred_disable__spec name st) as E3.
  rewrite H in E1, E2, E3.
  split; [exact E1|]. split; [exact E2|]. split; [exact E3|]. split.
  - unfold lastIdOf, get_, bind, gets, throw. rewrite H. reflexivity.
  - intros qs enabled. pose proof (deferred_append__spec name qs enabled st) as E4.
    rewrite H in E4. exact E4.
Qed.

Lemma missing_name_throws_witness :
  let st := session [ActAdd "a" (hits_at [3]) true None] fresh in
  remove_ "zz" st = (Throw (Error "Query set non-existent"), st) /\
  deferred_enable_ "zz" st = (Throw (Error "Query set non-existent"), st) /\
  deferred_disable_ "zz" st = (Throw (Error "Query set non-existent"), st) /\
  lastIdOf "zz" st = (Throw (Error "Query set non-existent"), st) /\
  forall qs enabled,
    deferred_append_ "zz" (QueriesArray qs) enabled st =
      (Throw (Error "Invalid or query set not yet created"), st).
Proof.
  apply (missing_name_throws sample_options false "zz").
  - apply reachable_apply. apply reachable_enqueue; [|reflexivity].
    apply reachable_constructor.
  - reflexivity.
  - reflexivity.
Defined.

(** X6.  With [HtmlHighlighter.debug] off and query sets of plain names, a
    deferred operation that throws has changed nothing: an invalid [queries]
    argument is rejected before the set of that name is removed, and a
    missing name is rejected before anything is written.  A transaction is
    not atomic, but each of its failing closures is. *)
Theorem failed_operation_changes_nothing o dbg st a e st' :
  reachable_by (fun a => plain_names a = true) o dbg st ->
  plain_names a = true -> debug st = false ->
  run_action a st = (Throw e, st') -> st' = st.
Proof.
  intros Hreach _ Hoff Hrun.
  pose proof (shape_reachable _ _ _ _ Hreach) as Hshape.
  destruct a as [name [|qs] enabled reserve|name [|qs] enabled|name|name|name|reset];
    unfold run_action in Hrun.
  - unfold deferred_add_, throw in Hrun. congruence.
  - destruct (deferred_add__spec name qs enabled reserve st)
      as (res & s & ms & Heq & Hret & _).
    rewrite Heq in Hrun. rewrite (Hret Hoff) in Hrun. discriminate.
  - unfold deferred_append_, throw in Hrun. congruence.
  - pose proof (deferred_append__spec name qs enabled st) as E.
    destruct (lookup_name name (queries st)) as [q|].
    + destruct E as (res & c & ms & log & Heq & _ & Hret).
      rewrite Heq in Hrun. rewrite (Hret Hoff) in Hrun. discriminate.
    + congruence.
  - unfold deferred_remove_ in Hrun. pose proof (remove__spec name st) as E.
    destruct (lookup_name name (queries st)); congruence.
  - rewrite deferred_enable__spec in Hrun.
    destruct (lookup_name name (queries st)); congruence.
  - rewrite deferred_disable__spec in Hrun.
    destruct (lookup_name name (queries st)); congruence.
  - destruct (deferred_clear__spec st reset Hshape) as (s & Heq & _).
    congruence.
Qed.

(** An add over an existing set with [queries] not an array: the existing
    set is still there. *)
Lemma failed_operation_changes_nothing_witness :
  let st := session [ActAdd "a" (hits_at [3]) true None] fresh in
  snd (run_action (ActAdd "a" NotAnArray true None) st) = st.
Proof.
  intros st.
  apply (failed_operation_changes_nothing sample_options false st
           (ActAdd "a" NotAnArray true None)
           (Error "Invalid or no queries array specified")).
  - apply reachable_apply. apply reachable_enqueue; [|reflexivity].
    apply reachable_constructor.
  - reflexivity.
  - reflexivity.
  - vm_compute. reflexivity.
Defined.

(** ** [deferred_add_] *)

(** X7.  With query sets of plain names, adding a query set under a new
    name and removing it again gives back the registry, the marker list
    (entries of hits whose wrap failed included) and [stats.queries]; for a
    set added enabled it gives back [stats.total] as well. *)
Theorem add_remove_round_trip o dbg st name qs enabled reserve :
  reachable_by (fun a => plain_names a = true) o dbg st ->
  plain_name name = true ->
  lookup_name name (queries st) = None ->
  let st' := exec (remove_ name)
               (exec (deferred_add_ name (QueriesArray qs) enabled reserve) st) in
  queries st' = queries st /\ highlights st' = highlights st /\
  s_queries (stats st') = s_queries (stats st) /\
  (enabled = true -> s_total (stats st') = s_total (stats st)).
Proof.
  intros Hreach _ Hnew st'. subst st'.
  pose proof (shape_reachable _ _ _ _ Hreach) as Hshape.
  destruct (deferred_add__spec name qs enabled reserve st)
    as (res & sa & ms & Heq & _ & Hq & _ & Hm & Hd & _ & Hh & _ & _ & Hsq & Hst & _).
  rewrite (add_target_fresh _ _ Hnew) in *.
  assert (exec (deferred_add_ name (QueriesArray qs) enabled reserve) st = sa) as Ea
    by (unfold exec; rewrite Heq; reflexivity).
  pose proof (remove__spec name sa) as Hr.
  rewrite Hq, (lookup_name_app_new _ _ _ Hnew) in Hr.
  assert (exec (remove_ name) sa = after_remove name (next_ref st) sa) as Eb
    by (unfold exec; rewrite Hr; reflexivity).
  rewrite Ea, Eb. simpl.
  rewrite Hq, (delete_name_app_new _ _ _ Hnew), Hm, Hd, Hh, Hsq, Hst.
  split; [reflexivity|]. split.
  - apply drop_query_absent. apply no_marker_of_unallocated; [exact Hshape|lia].
  - split; [lia|]. intros ->. simpl. lia.
Qed.

Lemma add_remove_round_trip_witness :
  let st := session [ActAdd "a" (hits_at [3; 9]) true None] fresh in
  let st' := exec (remove_ "b")
               (exec (deferred_add_ "b" (QueriesArray [Finder [hit 5; failing_hit 7]])
                        true (Some 3)) st) in
  queries st' = queries st /\ highlights st' = highlights st /\
  s_queries (stats st') = s_queries (stats st) /\
  (true = true -> s_total (stats st') = s_total (stats st)).
Proof.
  apply (add_remove_round_trip sample_options false).
  - apply reachable_apply. apply reachable_enqueue; [|reflexivity].
    apply reachable_constructor.
  - reflexivity.
  - reflexivity.
Defined.

(** X8.  With query sets of plain names and ids within the safe integers,
    an add without a usable reserve ([null], not a number, or below 1) gives
    the new set the ids from the former [lastId] on, one for each hit whose
    wrap succeeded, and moves [lastId] past them; [lastIdOf] then answers
    the id before [lastId], or [-1] when nothing was highlighted. *)
Theorem add_without_reserve_ids o dbg name qs enabled reserve st :
  reachable_by (fun a => plain_names a = true) o dbg st ->
  plain_name name = true ->
  0 <= lastId st -> lastId st + wrapped_queries qs <= max_safe_integer ->
  normal_reserve reserve = None ->
  let st' := exec (deferred_add_ name (QueriesArray qs) enabled reserve) st in
  exists q,
    lookup_name name (queries st') = Some q /\
    q_id (heap st' !!! q) = lastId st /\
    q_length (heap st' !!! q) = wrapped_queries qs /\
    q_reserve (heap st' !!! q) = None /\
    lastId st' = lastId st + wrapped_queries qs /\
    (lastIdOf name st').1 =
      Ret (if 0 <? wrapped_queries qs then lastId st' - 1 else -1).
Proof.
  intros _ _ _ _ Hres st'. subst st'.
  destruct (deferred_add__spec name qs enabled reserve st)
    as (res & sa & ms & Heq & _ & Hq & _ & _ & _ & _ & Hh & _ & Hl & _).
  rewrite Hres in Hh, Hl.
  assert (exec (deferred_add_ name (QueriesArray qs) enabled reserve) st = sa) as Ea
    by (unfold exec; rewrite Heq; reflexivity).
  rewrite Ea.
  assert (lookup_name name (queries sa) = Some (next_ref (add_target name st))) as Hlook.
  { rewrite Hq. apply lookup_name_app_new. apply lookup_add_target. }
  exists (next_ref (add_target name st)).
  split; [exact Hlook|]. rewrite Hh. simpl.
  split; [reflexivity|]. split; [reflexivity|]. split; [reflexivity|].
  split; [exact Hl|].
  unfold lastIdOf, get_, deref, bind, gets, ret. rewrite Hlook. simpl.
  rewrite Hh, Hl. simpl. destruct (0 <? wrapped_queries qs); f_equal; lia.
Qed.

Lemma add_without_reserve_ids_witness :
  let st := session [ActAdd "a" (hits_at [3; 9]) true None] fresh in
  let st' := exec (deferred_add_ "b" (QueriesArray [Finder [hit 5; failing_hit 7; hit 8]])
                     true (Some 0)) st in
  exists q,
    lookup_name "b" (queries st') = Some q /\
    q_id (heap st' !!! q) = lastId st /\
    q_length (heap st' !!! q) = 2 /\
    q_reserve (heap st' !!! q) = None /\
    lastId st' = lastId st + 2 /\
    (lastIdOf "b" st').1 = Ret (lastId st' - 1).
Proof.
  apply (add_without_reserve_ids sample_options false "b"
           [Finder [hit 5; failing_hit 7; hit 8]] true (Some 0)).
  - apply reachable_apply. apply reachable_enqueue; [|reflexivity].
    apply reachable_constructor.
  - reflexivity.
  - discriminate.
  - discriminate.
  - reflexivity.
Defined.

(** X9.  Adding under a name that is already registered destroys the old set
    first: no entry of the old descriptor is left in the marker list, the
    name stands for a new descriptor that counts the new highlights only,
    and [stats.queries] is what it was. *)
Theorem add_replaces_existing ok o dbg st name q0 qs enabled reserve :
  reachable_by ok o dbg st ->
  lookup_name name (queries st) = Some q0 ->
  let st' := exec (deferred_add_ name (QueriesArray qs) enabled reserve) st in
  (forall m, In m (highlights st') -> m_query m <> q0) /\
  s_queries (stats st') = s_queries (stats st) /\
  exists q,
    lookup_name name (queries st') = Some q /\ q <> q0 /\
    q_length (heap st' !!! q) = wrapped_queries qs.
Proof.
  intros Hreach Hold st'. subst st'.
  pose proof (shape_reachable _ _ _ _ Hreach) as Hshape.
  destruct (deferred_add__spec name qs enabled reserve st)
    as (res & sa & ms & Heq & _ & Hq & _ & Hm & _ & Hin & Hh & _ & _ & Hsq & _).
  pose proof (lookup_add_target name st) as Hfresh.
  rewrite (add_target_present _ _ _ Hold) in *.
  assert (exec (deferred_add_ name (QueriesArray qs) enabled reserve) st = sa) as Ea
    by (unfold exec; rewrite Heq; reflexivity).
  rewrite Ea. simpl in Hq, Hin, Hh, Hsq.
  assert (q0 < next_ref st)%nat as Hlt
    by (apply (shape_alloc _ _ Hshape), (lookup_name_ref _ _ _ Hold)).
  split; [|split].
  - intros m Hmm. rewrite Hm in Hmm. destruct (Hin m Hmm) as [Hd|Hnew]; [|lia].
    apply In_drop_query in Hd. tauto.
  - lia.
  - exists (next_ref st). split; [|split].
    + rewrite Hq. apply lookup_name_app_new. exact Hfresh.
    + lia.
    + rewrite Hh. reflexivity.
Qed.

Lemma add_replaces_existing_witness :
  let st := session [ActAdd "a" (hits_at [3; 9]) true None;
                     ActAdd "b" (hits_at [4]) true None] fresh in
  let st' := exec (deferred_add_ "a" (QueriesArray [Finder [hit 5]]) true None) st in
  (forall m, In m (highlights st') -> m_query m <> 0%nat) /\
  s_queries (stats st') = s_queries (stats st) /\
  exists q,
    lookup_name "a" (queries st') = Some q /\ q <> 0%nat /\
    q_length (heap st' !!! q) = 1.
Proof.
  apply (add_replaces_existing (fun _ => True) sample_options false).
  - apply reachable_apply.
    repeat (apply reachable_enqueue; [|exact I]).
    apply reachable_constructor.
  - reflexivity.
Defined.

(** ** One query set at a time *)

(** X10.  An add, append, remove, enable or disable of one query set leaves
    every other registered set as it was: the same descriptor with the same
    fields, and the same entries in the marker list, in the same order. *)
Theorem other_sets_untouched ok o dbg st a name other q :
  reachable_by ok o dbg st ->
  action_name a = Some name -> other <> name ->
  lookup_name other (queries st) = Some q ->
  let st' := exec (run_action a) st in
  lookup_name other (queries st') = Some q /\
  heap st' !!! q = heap st !!! q /\
  keep_query q (highlights st') = keep_query q (highlights st).
Proof.
  intros Hreach Ha Hne Hq st'. subst st'.
  pose proof (shape_reachable _ _ _ _ Hreach) as Hshape.
  assert (q < next_ref st)%nat as Hlt
    by (apply (shape_alloc _ _ Hshape), (lookup_name_ref _ _ _ Hq)).
  assert (forall q0, lookup_name name (queries st) = Some q0 -> q <> q0) as Hdiff.
  { intros q0 H0. exact (distinct_names_distinct_refs _ _ _ _ _ Hshape Hq H0 Hne). }
  assert (forall s, exec (run_action a) st = s ->
            lookup_name other (queries s) = Some q /\
            heap s !!! q = heap st !!! q /\
            keep_query q (highlights s) = keep_query q (highlights st)) as Hgoal;
    [|exact (Hgoal _ eq_refl)].
  intros s Hs. unfold exec in Hs.
  destruct a as [n [|qs] enabled reserve|n [|qs] enabled|n|n|n|reset];
    simpl in Ha; try discriminate; injection Ha as ->; unfold run_action in Hs.
  - simpl in Hs. subst s. auto.
  - destruct (deferred_add__spec name qs enabled reserve st)
      as (res & sa & ms & Heq & _ & Hqs & _ & Hm & Hd & _ & _ & Hother & _).
    rewrite Heq in Hs. simpl in Hs. subst sa.
    assert (lookup_name other (queries (add_target name st)) = Some q /\
            keep_query q (highlights (add_target name st)) = keep_query q (highlights st) /\
            next_ref (add_target name st) = next_ref st) as (H1 & H2 & H3).
    { unfold add_target. destruct (lookup_name name (queries st)) as [q0|] eqn:E0.
      - simpl. rewrite lookup_delete_name_ne by exact Hne.
        split; [exact Hq|]. split; [|reflexivity].
        apply keep_query_drop_other. exact (Hdiff q0 eq_refl).
      - auto. }
    rewrite H3 in *.
    split; [rewrite Hqs; rewrite lookup_name_app_ne by exact Hne; exact H1|].
    split; [apply Hother; lia|].
    rewrite Hm, <- H2. apply (keep_query_drop_eq (next_ref st)); [lia|exact Hd].
  - simpl in Hs. subst s. auto.
  - pose proof (deferred_append__spec name qs enabled st) as E.
    destruct (lookup_name name (queries st)) as [q0|] eqn:E0.
    + destruct E as (res & count & ms & log & Heq & Hadd & _).
      rewrite Heq in Hs. simpl in Hs. subst s.
      destruct (add_queries__result _ _ _ _ _ _ _ Hadd)
        as (ms2 & log2 & Hst & _ & _ & _ & Hd & _).
      rewrite Hst. specialize (Hdiff q0 eq_refl).
      unfold after_add_queries. destruct enabled; simpl;
        (split; [exact Hq|]);
        (split; [apply lookup_total_insert_ne; congruence|]);
        apply (keep_query_drop_eq q0); auto.
    + rewrite E in Hs. simpl in Hs. subst s. auto.
  - unfold deferred_remove_ in Hs. pose proof (remove__spec name st) as E.
    destruct (lookup_name name (queries st)) as [q0|] eqn:E0;
      rewrite E in Hs; simpl in Hs; subst s; [|auto].
    simpl. rewrite lookup_delete_name_ne by exact Hne.
    split; [exact Hq|]. split; [reflexivity|].
    apply keep_query_drop_other. exact (Hdiff q0 eq_refl).
  - rewrite deferred_enable__spec in Hs.
    destruct (lookup_name name (queries st)) as [q0|] eqn:E0;
      simpl in Hs; subst s; [|auto].
    destruct (q_enabled (heap st !!! q0)); [auto|].
    unfold toggled. simpl. split; [exact Hq|]. split; [|reflexivity].
    apply lookup_total_insert_ne. specialize (Hdiff q0 eq_refl). congruence.
  - rewrite deferred_disable__spec in Hs.
    destruct (lookup_name name (queries st)) as [q0|] eqn:E0;
      simpl in Hs; subst s; [|auto].
    destruct (q_enabled (heap st !!! q0)); [|auto].
    unfold toggled. simpl. split; [exact Hq|]. split; [|reflexivity].
    apply lookup_total_insert_ne. specialize (Hdiff q0 eq_refl). congruence.
Qed.

Lemma other_sets_untouched_witness :
  let st := session [ActAdd "a" (hits_at [3; 9]) true None;
                     ActAdd "b" (hits_at [4; 9]) true None] fresh in
  let st' := exec (run_action (ActAdd "a" (hits_at [1; 4; 9; 12]) false None)) st in
  lookup_name "b" (queries st') = Some 1%nat /\
  heap st' !!! 1%nat = heap st !!! 1%nat /\
  keep_query 1 (highlights st') = keep_query 1 (highlights st).
Proof.
  apply (other_sets_untouched (fun _ => True) sample_options false _ _ "a" "b").
  - apply reachable_apply.
    repeat (apply reachable_enqueue; [|exact I]).
    apply reachable_constructor.
  - reflexivity.
  - discriminate.
  - reflexivity.
Defined.

(** ** [deferred_enable_] and [deferred_disable_] *)

(** X11.  Disabling an enabled query set takes its length off [stats.total]
    and clears its flag; disabling it again does nothing; enabling it again
    brings back the state there was, field for field. *)
Theorem disable_enable_round_trip name q st :
  lookup_name name (queries st) = Some q ->
  q_enabled (heap st !!! q) = true ->
  let sd := exec (deferred_disable_ name) st in
  s_total (stats sd) = s_total (stats st) - q_length (heap st !!! q) /\
  q_enabled (heap sd !!! q) = false /\
  deferred_disable_ name sd = (Ret tt, sd) /\
  same_registry st (exec (deferred_enable_ name) sd).
Proof.
  intros Hq Hen sd.
  assert (sd = toggled q false st) as ->.
  { subst sd. unfold exec. rewrite deferred_disable__spec, Hq. simpl.
    rewrite Hen. reflexivity. }
  assert (q_enabled (heap (toggled q false st) !!! q) = false) as Hoff.
  { unfold toggled. simpl. rewrite lookup_total_insert_eq. reflexivity. }
  split; [reflexivity|]. split; [exact Hoff|]. split.
  { rewrite deferred_disable__spec.
    change (queries (toggled q false st)) with (queries st).
    rewrite Hq, Hoff. reflexivity. }
  unfold exec. rewrite deferred_enable__spec.
  change (queries (toggled q false st)) with (queries st). rewrite Hq, Hoff.
  simpl snd. unfold same_registry, toggled. simpl.
  rewrite !lookup_total_insert_eq. simpl.
  repeat split.
  - destruct (stats st) as [sq t h]. unfold set_s_total. simpl. f_equal. lia.
  - intros q'. rewrite !lookup_total_insert.
    destruct (decide (q = q')) as [<-|_]; [|reflexivity].
    rewrite <- Hen. destruct (heap st !!! q). reflexivity.
Qed.

Lemma disable_enable_round_trip_witness :
  let st := session [ActAdd "a" (hits_at [3; 9]) true None] fresh in
  let sd := exec (deferred_disable_ "a") st in
  s_total (stats sd) = s_total (stats st) - q_length (heap st !!! 0%nat) /\
  q_enabled (heap sd !!! 0%nat) = false /\
  deferred_disable_ "a" sd = (Ret tt, sd) /\
  same_registry st (exec (deferred_enable_ "a") sd).
Proof.
  apply (disable_enable_round_trip "a" 0%nat); reflexivity.
Defined.

(** X12.  With query sets of plain names, enabling or disabling any query
    set, adding a set under a new name and removing an enabled set leave the
    distance between [stats.total] and the sum of the lengths of the enabled
    sets as it was: these operations keep [stats.total] in step. *)
Theorem total_kept_in_step o dbg st :
  reachable_by (fun a => plain_names a = true) o dbg st ->
  (forall name, plain_name name = true ->
     total_drift (exec (deferred_enable_ name) st) = total_drift st) /\
  (forall name, plain_name name = true ->
     total_drift (exec (deferred_disable_ name) st) = total_drift st) /\
  (forall name qs enabled reserve,
     plain_name name = true ->
     lookup_name name (queries st) = None ->
     total_drift (exec (deferred_add_ name (QueriesArray qs) enabled reserve) st) =
     total_drift st) /\
  (forall name q,
     lookup_name name (queries st) = Some q -> q_enabled (heap st !!! q) = true ->
     total_drift (exec (remove_ name) st) = total_drift st).
Proof.
  intros Hreach. pose proof (shape_reachable _ _ _ _ Hreach) as Hshape.
  pose proof (shape_refs _ _ Hshape) as Hrefs.
  assert (forall q b,
            In q (map snd (queries st)) -> q_enabled (heap st !!! q) = negb b ->
            total_drift (toggled q b st) = total_drift st) as Htoggle.
  { intros q b Hin Hen. unfold total_drift. rewrite !enabled_total_sum.
    unfold toggled. simpl queries. simpl heap.
    rewrite (enabled_sum_update (heap st) _ (queries st) q Hrefs Hin)
      by (intros q' Hne; apply lookup_total_insert_ne; congruence).
    rewrite lookup_total_insert_eq. unfold counted. simpl. rewrite Hen.
    destruct b; simpl; lia. }
  split; [|split; [|split]].
  - intros name _. unfold exec. rewrite deferred_enable__spec.
    destruct (lookup_name name (queries st)) as [q|] eqn:Hq; [|reflexivity].
    simpl. destruct (q_enabled (heap st !!! q)) eqn:Hen; [reflexivity|].
    apply Htoggle; [exact (lookup_name_ref _ _ _ Hq)|exact Hen].
  - intros name _. unfold exec. rewrite deferred_disable__spec.
    destruct (lookup_name name (queries st)) as [q|] eqn:Hq; [|reflexivity].
    simpl. destruct (q_enabled (heap st !!! q)) eqn:Hen; [|reflexivity].
    apply Htoggle; [exact (lookup_name_ref _ _ _ Hq)|exact Hen].
  - intros name qs enabled reserve _ Hnew.
    destruct (deferred_add__spec name qs enabled reserve st)
      as (res & sa & ms & Heq & _ & Hq & _ & _ & _ & _ & Hh & Hother & _ & _ & Hst & _).
    rewrite (add_target_fresh _ _ Hnew) in *.
    unfold exec. rewrite Heq. simpl snd.
    unfold total_drift. rewrite !enabled_total_sum, Hq, enabled_sum_app, Hst, Hh.
    rewrite (enabled_sum_agree (heap st) (heap sa)).
    + unfold counted. simpl. destruct enabled; lia.
    + intros q' Hin. rewrite Hother; [reflexivity|].
      pose proof (shape_alloc _ _ Hshape _ Hin). lia.
  - intros name q Hq Hen. unfold exec.
    pose proof (remove__spec name st) as E. rewrite Hq in E. rewrite E. simpl snd.
    unfold total_drift. rewrite !enabled_total_sum. simpl.
    rewrite (enabled_sum_delete _ _ _ _ (shape_names _ _ Hshape) Hq).
    unfold counted. rewrite Hen. lia.
Qed.

Lemma total_kept_in_step_witness :
  let st := session [ActAdd "a" (hits_at [3; 9]) true None;
                     ActAdd "b" (hits_at [4]) false None] fresh in
  total_drift (exec (deferred_enable_ "b") st) = total_drift st.
Proof.
  intros st.
  refine (proj1 (total_kept_in_step sample_options false st _) "b" eq_refl).
  apply reachable_apply.
  repeat (apply reachable_enqueue; [|reflexivity]).
  apply reachable_constructor.
Defined.

(** ** [assert_] *)

(** X13.  As long as every hit starts at a non-negative offset, no wrap
    fails and the query sets have plain names, [assert_] returns in every
    state the highlighter can be in: the marker list is in order, every
    entry has an index below the length of its query set, and the list is as
    long as the lengths add up to. *)
Theorem assert_passes o dbg st :
  reachable_by (fun a => action_sane a = true /\ plain_names a = true) o dbg st ->
  assert_ st = (Ret tt, st).
Proof.
  intros Hreach'.
  pose proof (reachable_by_weaken _ (fun a => action_sane a = true) _ _ _
                (fun a Ha => proj1 Ha) Hreach') as Hreach.
  destruct (sane_reachable _ _ _ Hreach) as [[Hm Hi] _].
  pose proof (inv_sorted _ _ _ (registry_inv_reachable _ _ _ _ Hreach)) as Hs.
  unfold assert_. rewrite (assert_markers_ok _ _ 0 0 Hs Hi).
  rewrite (markers_inv_length _ Hm), Z.add_0_l, Z.eqb_refl. reflexivity.
Qed.

Lemma assert_passes_witness :
  let st := session [ActAdd "a" (hits_at [3; 5]) true (Some 3);
                     ActAdd "b" (hits_at [4]) true None;
                     ActAppend "a" (hits_at [1; 9]) true;
                     ActDisable "b"] fresh in
  assert_ st = (Ret tt, st).
Proof.
  apply (assert_passes sample_options false).
  apply reachable_apply.
  repeat (apply reachable_enqueue; [|split; reflexivity]).
  apply reachable_constructor.
Defined.

(** ** [getSelectedRange] and [prev] *)



(** X15.  [prev] does not touch the cursor when there is nothing to visit;
    otherwise, from an index in [-1, total), it asks for an index in
    [0, total): the one before, and the last one from the first entry or
    from no entry, so that after [next] it comes back to where it was. *)
Theorem prev_target_in_range index total :
  (total <= 0 -> prev_target index total = None) /\
  (0 < total -> -1 <= index < total ->
   exists i,
     prev_target index total = Some i /\ 0 <= i < total /\
     (index <= 0 -> i = total - 1) /\ (1 <= index -> i = index - 1) /\
     (0 <= index -> prev_target (next_target index) total = Some index)).
Proof.
  unfold prev_target, next_target. split.
  - intros H. destruct (Z.leb_spec total 0); [reflexivity|lia].
  - intros Ht Hi. destruct (Z.leb_spec total 0); [lia|].
    eexists. split; [reflexivity|].
    destruct (Z.ltb_spec index 1); destruct (Z.ltb_spec (index + 1) 1);
      repeat split; intros; try lia; f_equal; lia.
Qed.

Lemma prev_target_in_range_witness :
  exists i,
    prev_target 0 4 = Some i /\ 0 <= i < 4 /\
    (0 <= 0 -> i = 4 - 1) /\ (1 <= 0 -> i = 0 - 1) /\
    (0 <= 0 -> prev_target (next_target 0) 4 = Some 0).
Proof. apply (proj2 (prev_target_in_range 0 4)); lia. Defined.

(** ** Highlight ids and CSS variants *)

(** X16.  As long as no reserve is used and nothing is appended, the
    highlight ids of two registered query sets never overlap, and every id
    in use is below [lastId]. *)
Theorem highlight_ids_disjoint o dbg st n1 q1 n2 q2 :
  reachable_by (fun a => action_plain a = true) o dbg st ->
  lookup_name n1 (queries st) = Some q1 ->
  lookup_name n2 (queries st) = Some q2 ->
  n1 <> n2 ->
  q_id (heap st !!! q1) + q_length (heap st !!! q1) <= lastId st /\
  (q_id (heap st !!! q1) + q_length (heap st !!! q1) <= q_id (heap st !!! q2) \/
   q_id (heap st !!! q2) + q_length (heap st !!! q2) <= q_id (heap st !!! q1)).
Proof.
  intros Hreach H1 H2 Hne.
  destruct (ids_reachable _ _ _ Hreach) as [Hbelow Hdisj].
  pose proof (shape_reachable _ _ _ _ Hreach) as Hshape.
  split.
  - apply Hbelow. exact (lookup_name_ref _ _ _ H1).
  - apply Hdisj; [exact (lookup_name_ref _ _ _ H1)|exact (lookup_name_ref _ _ _ H2)|].
    exact (distinct_names_distinct_refs _ _ _ _ _ Hshape H1 H2 Hne).
Qed.

Lemma highlight_ids_disjoint_witness :
  let st := session [ActAdd "a" (hits_at [3; 9]) true None;
                     ActAdd "b" (hits_at [4]) false None;
                     ActAdd "a" (hits_at [1; 2; 5]) true (Some 0);
                     ActDisable "a"] fresh in
  q_id (heap st !!! 2%nat) + q_length (heap st !!! 2%nat) <= lastId st /\
  (q_id (heap st !!! 2%nat) + q_length (heap st !!! 2%nat) <= q_id (heap st !!! 1%nat) \/
   q_id (heap st !!! 1%nat) + q_length (heap st !!! 1%nat) <= q_id (heap st !!! 2%nat)).
Proof.
  apply (highlight_ids_disjoint sample_options false _ "a" 2%nat "b" 1%nat).
  - apply reachable_apply.
    repeat (apply reachable_enqueue; [|reflexivity]).
    apply reachable_constructor.
  - reflexivity.
  - reflexivity.
  - discriminate.
Defined.

(** X17.  With [maxHighlight >= 1], the CSS variant [id_highlight] of every
    registered query set lies in [0, maxHighlight). *)
Theorem variants_in_range ok o dbg st name q :
  1 <= maxHighlight o -> reachable_by ok o dbg st ->
  lookup_name name (queries st) = Some q ->
  0 <= q_id_highlight (heap st !!! q) < maxHighlight o.
Proof.
  intros Hmax Hreach Hq.
  pose proof (inv_options _ _ _ (registry_inv_reachable _ _ _ _ Hreach)) as Eo.
  rewrite <- Eo.
  apply (variants_reachable o dbg).
  - exact (reachable_by_weaken _ _ _ _ _ (fun _ _ => eq_refl) Hreach).
  - rewrite Eo. exact Hmax.
  - exact (lookup_name_ref _ _ _ Hq).
Qed.

(** The sixth set of a page with [maxHighlight: 5] gets variant 0 again. *)
Lemma variants_in_range_witness :
  let st := session [ActAdd "a" (hits_at [1]) true None;
                     ActAdd "b" (hits_at [2]) true None;
                     ActAdd "c" (hits_at [3]) true None;
                     ActAdd "d" (hits_at [4]) true None;
                     ActAdd "e" (hits_at [5]) true None;
                     ActAdd "f" (hits_at [6]) true None] fresh in
  0 <= q_id_highlight (heap st !!! 5%nat) < 5.
Proof.
  apply (variants_in_range (fun _ => True) sample_options false _ "f").
  - simpl. lia.
  - apply reachable_apply.
    repeat (apply reachable_enqueue; [|exact I]).
    apply reachable_constructor.
  - reflexivity.
Defined.
